(** * html-to-md: the HTML to Markdown converter of [packages/process/html/__main__.py]

    A shallow embedding of the converter's table flattener
    ([_CustomMarkdownify.convert_table]), image rule ([convert_img]),
    HTML sanitizer ([HtmlConverter._preprocess_html]) and table-row repair
    pass ([_fix_markdown_tables], [_clean_table_row]), with the properties
    of the specification stated and settled against it.

    Python strings are modelled as lists of 8-bit characters ([list ascii]),
    read as the code points 0..255. *)

From Stdlib Require Import Ascii String.
From Stdlib Require Import List Bool Arith Lia PeanoNat.
From Stdlib Require Import Numbers.DecimalString.
From Equations Require Import Equations.
Import ListNotations.

Local Open Scope list_scope.

(* ===================================================================== *)
(** * Python strings *)
(* ===================================================================== *)

Module Py.

(** A Python [str]. *)
Definition str := list ascii.

(** A string literal. *)
Definition lit (s : string) : str := list_ascii_of_string s.
Arguments lit s : simpl never.

Definition pipe : ascii := "|"%char.
Definition dash : ascii := "-"%char.
Definition space : ascii := " "%char.
Definition nl : ascii := "010"%char.
Definition cr : ascii := "013"%char.
Definition dquote : ascii := "034"%char.
Definition backslash : ascii := "092"%char.

(** [str.isspace] on one character, for the code points below 256: the
    characters that [str.strip] removes and that the regular expression
    class [\s] matches. *)
Definition isspace (c : ascii) : bool :=
  let n := nat_of_ascii c in
  ((9 <=? n) && (n <=? 13)) || ((28 <=? n) && (n <=? 32))
  || (n =? 133) || (n =? 160).

(** [s.lstrip(chars)], with the set of characters given as a predicate. *)
Fixpoint lstrip_by (p : ascii -> bool) (s : str) : str :=
  match s with
  | [] => []
  | c :: s' => if p c then lstrip_by p s' else s
  end.

(** [s.rstrip(chars)]: the longest suffix of characters of the set is
    dropped. *)
Fixpoint rstrip_by (p : ascii -> bool) (s : str) : str :=
  match s with
  | [] => []
  | c :: s' =>
      match rstrip_by p s' with
      | [] => if p c then [] else [c]
      | r => c :: r
      end
  end.

Definition lstrip (s : str) : str := lstrip_by isspace s.
Definition rstrip (s : str) : str := rstrip_by isspace s.
(** [s.strip()] *)
Definition strip (s : str) : str := rstrip (lstrip s).
(** [s.rstrip(c)] for a one-character set. *)
Definition rstrip_char (c : ascii) (s : str) : str := rstrip_by (Ascii.eqb c) s.

(** [c in s] for a one-character string [c]. *)
Definition has_char (c : ascii) (s : str) : bool := existsb (Ascii.eqb c) s.

(** [s.startswith(p)] *)
Fixpoint startswith (p s : str) : bool :=
  match p, s with
  | [], _ => true
  | a :: p', b :: s' => Ascii.eqb a b && startswith p' s'
  | _ :: _, [] => false
  end.

(** [s.endswith(p)] *)
Definition endswith (p s : str) : bool := startswith (rev p) (rev s).

(** [sub in s] *)
Fixpoint contains (sub s : str) : bool :=
  startswith sub s ||
  match s with
  | [] => false
  | _ :: s' => contains sub s'
  end.

(** [s.count(c)] for a one-character string [c]. *)
Fixpoint count (c : ascii) (s : str) : nat :=
  match s with
  | [] => 0
  | x :: s' => (if Ascii.eqb x c then 1 else 0) + count c s'
  end.

(** [s.split(c)] for a one-character separator: never the empty list. *)
Fixpoint split (c : ascii) (s : str) : list str :=
  match s with
  | [] => [[]]
  | x :: s' =>
      if Ascii.eqb x c then [] :: split c s'
      else match split c s' with
           | p :: ps => (x :: p) :: ps
           | [] => [[x]]
           end
  end.

(** [sep.join(parts)] *)
Fixpoint join (sep : str) (parts : list str) : str :=
  match parts with
  | [] => []
  | [p] => p
  | p :: ps => p ++ sep ++ join sep ps
  end.

(** [s.replace(c, r)] for a one-character [c]. *)
Definition replace (c : ascii) (r : str) (s : str) : str :=
  flat_map (fun x => if Ascii.eqb x c then r else [x]) s.

(** [re.sub(r'\s+', ' ', s)]: every maximal run of whitespace becomes one
    space. [inrun] says that the character before was whitespace. *)
Fixpoint collapse_ws_from (inrun : bool) (s : str) : str :=
  match s with
  | [] => []
  | c :: s' =>
      if isspace c
      then (if inrun then collapse_ws_from true s'
            else space :: collapse_ws_from true s')
      else c :: collapse_ws_from false s'
  end.
Definition collapse_ws (s : str) : str := collapse_ws_from false s.

(** [str(n)] for a non-negative integer. *)
Definition str_of_nat (n : nat) : str :=
  lit (NilEmpty.string_of_uint (Nat.to_uint n)).

(** The truth value of a string: non-empty. *)
Definition truthy (s : str) : bool :=
  match s with [] => false | _ :: _ => true end.

(** Equality of strings, decided. *)
Definition str_eqb (a b : str) : bool :=
  if list_eq_dec ascii_dec a b then true else false.

End Py.
Import Py.

(* ===================================================================== *)
(** * The table-row repair pass *)
(* ===================================================================== *)

(** [_clean_table_row]: a cell between two pipes. *)
Definition clean_cell (part : str) : str :=
  let cleaned := strip part in
  let cleaned := collapse_ws cleaned in
  let cleaned := replace cr [space] (replace nl [space] cleaned) in
  [space] ++ cleaned ++ [space].

(** [_clean_table_row]: the loop over [enumerate(parts)]. *)
Fixpoint clean_parts (n i : nat) (parts : list str) : list str :=
  match parts with
  | [] => []
  | part :: rest =>
      (if (i =? 0) || (i =? n - 1) then part else clean_cell part)
        :: clean_parts n (S i) rest
  end.

Definition _clean_table_row (row : str) : str :=
  if negb (truthy (strip row)) || negb (has_char pipe row) then row
  else
    let parts := split pipe row in
    join [pipe] (clean_parts (length parts) 0 parts).

(** The test of [_fix_markdown_tables] for a table row. *)
Definition is_table_row (line : str) : bool :=
  has_char pipe line
  && startswith [pipe] (strip line)
  && endswith [pipe] (strip line).

(** The body of the inner loop after the three [break] tests: the
    continuation line is merged into the row. *)
Definition merge_continuation (table_row next_line : str) : str :=
  let continuation_text := strip next_line in
  if truthy continuation_text then
    let table_row :=
      rstrip (rstrip_char pipe table_row) ++ [space] ++ continuation_text in
    if negb (endswith [pipe] table_row) then table_row ++ lit " |"
    else table_row
  else table_row.

(** The three [break] tests of the inner loop, in the source's order. *)
Definition stops_absorbing (table_row next_line : str) : bool :=
  if has_char pipe next_line && contains (lit "---") next_line then true
  else if has_char pipe next_line
          && startswith [pipe] next_line
          && endswith [pipe] next_line
          && (count pipe table_row <=? count pipe next_line) then true
  else if negb (truthy next_line) || negb (has_char pipe next_line) then true
  else false.

(** The inner [while j < len(lines)] loop, run on [lines[j:]]: the merged
    row and the lines left from the final [j] on. *)
Fixpoint absorb (table_row : str) (rest : list str) : str * list str :=
  match rest with
  | [] => (table_row, [])
  | l :: rest' =>
      let next_line := strip l in
      if stops_absorbing table_row next_line then (table_row, rest)
      else absorb (merge_continuation table_row next_line) rest'
  end.

(** The outer [while i < len(lines)] loop, run on [lines[i:]]. (The source
    also computes [is_header], which it does not use.) *)
Equations? fix_lines (lines : list str) : list str by wf (length lines) lt :=
  fix_lines [] := [];
  fix_lines (line :: rest) :=
    if is_table_row line
    then _clean_table_row (fst (absorb line rest))
           :: fix_lines (snd (absorb line rest))
    else line :: fix_lines rest.
Proof.
  all: simpl; try lia.
  assert (shorter : forall (r : list str) (t : str),
             length (snd (absorb t r)) <= length r).
  { induction r as [|l r IH]; intros t; simpl; [lia|].
    destruct (stops_absorbing t (strip l)); simpl; [lia|].
    specialize (IH (merge_continuation t (strip l))). lia. }
  specialize (shorter rest line). lia.
Qed.

(** [_fix_markdown_tables] *)
Definition _fix_markdown_tables (markdown_content : str) : str :=
  join [nl] (fix_lines (split nl markdown_content)).


(* ===================================================================== *)
(** * The DOM tree and the table flattener *)
(* ===================================================================== *)

(** Code that may raise: [Ok] carries the value, [Raise] stands for a raised
    [Exception]. *)
Inductive Exc (A : Type) : Type :=
| Ok (a : A)
| Raise.
Arguments Ok {A} a.
Arguments Raise {A}.

Definition bind {A B : Type} (m : Exc A) (k : A -> Exc B) : Exc B :=
  match m with
  | Ok a => k a
  | Raise => Raise
  end.

(** [try: m  except Exception: handler] *)
Definition try_except {A : Type} (m handler : Exc A) : Exc A :=
  match m with
  | Ok a => Ok a
  | Raise => handler
  end.

Notation "x <- m ;; k" := (bind m (fun x => k))
  (at level 61, m at next level, right associativity).

(** The class of a string of the tree: [NavigableString] or one of its
    subclasses. The parser gives a comment, a declaration and the like a
    class of their own, and so it does with the strings that it finds inside
    a [script], [style], [template], [rt] or [rp] element. *)
Inductive string_class : Type :=
| NavigableString
| CData
| Comment
| Declaration
| Doctype
| ProcessingInstruction
| Script
| Stylesheet
| TemplateString
| RubyTextString
| RubyParenthesisString.

Definition class_index (cls : string_class) : nat :=
  match cls with
  | NavigableString => 0
  | CData => 1
  | Comment => 2
  | Declaration => 3
  | Doctype => 4
  | ProcessingInstruction => 5
  | Script => 6
  | Stylesheet => 7
  | TemplateString => 8
  | RubyTextString => 9
  | RubyParenthesisString => 10
  end.

(** [type(a) is type(b)] for two strings of the classes [a] and [b]. *)
Definition class_eqb (a b : string_class) : bool :=
  class_index a =? class_index b.

(** A node of the parsed tree: a string, of some class, or a [Tag]. The
    [BeautifulSoup] object itself is the tag named [[document]]. *)
#[warnings="-register-all"]
Inductive node : Type :=
| Text (cls : string_class) (s : str)
| Tag (name : str) (attrs : list (str * str)) (children : list node).

Definition document (children : list node) : node :=
  Tag (lit "[document]") [] children.

Definition children (n : node) : list node :=
  match n with
  | Text _ _ => []
  | Tag _ _ cs => cs
  end.

(** [n.descendants]: every node below [n], in document order. *)
Fixpoint descendants (n : node) : list node :=
  match n with
  | Text _ _ => []
  | Tag _ _ cs => flat_map (fun c => c :: descendants c) cs
  end.

(** A tag whose name is one of [names]. *)
Definition is_named (names : list str) (n : node) : bool :=
  match n with
  | Text _ _ => false
  | Tag nm _ _ => existsb (str_eqb nm) names
  end.

(** [n.find_all(names)] *)
Definition find_all (names : list str) (n : node) : list node :=
  filter (is_named names) (descendants n).

(** [n.find(name)] *)
Definition find (name : str) (n : node) : option node :=
  hd_error (find_all [name] n).

(** [n.find_all(names, recursive=False)] *)
Definition find_all_direct (names : list str) (n : node) : list node :=
  filter (is_named names) (children n).

(** The strings below [n], of whatever class, in document order. *)
Fixpoint strings (n : node) : list str :=
  match n with
  | Text _ s => [s]
  | Tag _ _ cs => flat_map strings cs
  end.

(** [builder.string_containers] of the HTML tree builders: the elements
    whose strings get a class of their own. *)
Definition string_containers : list (str * string_class) :=
  [(lit "rt", RubyTextString); (lit "rp", RubyParenthesisString);
   (lit "style", Stylesheet); (lit "script", Script);
   (lit "template", TemplateString)].

(** [tag.interesting_string_types]: the class of the strings of a string
    container, and [(NavigableString, CData)] for every other tag. *)
Definition interesting_string_types (n : node) : list string_class :=
  match n with
  | Text _ _ => [NavigableString; CData]
  | Tag nm _ _ =>
      match List.find (fun p => str_eqb nm (fst p)) string_containers with
      | Some p => [snd p]
      | None => [NavigableString; CData]
      end
  end.

(** The strings at and below [n] whose class is one of [types], in document
    order. *)
Fixpoint strings_of_class (types : list string_class) (n : node)
  : list str :=
  match n with
  | Text cls s => if existsb (class_eqb cls) types then [s] else []
  | Tag _ _ cs => flat_map (strings_of_class types) cs
  end.

(** [tag._all_strings()]: the strings below the tag whose class is one of
    the tag's [interesting_string_types]. A comment is none of them, and
    for a tag that is no string container neither is a string inside a
    [script], [style], [template], [rt] or [rp]. *)
Definition _all_strings (n : node) : list str :=
  flat_map (strings_of_class (interesting_string_types n)) (children n).

(** [n.get_text(" ", strip=True)]: every string of [_all_strings] is
    stripped, the empty ones are left out, and the rest is joined by one
    space. *)
Definition get_text (n : node) : str :=
  join [space] (filter truthy (map strip (_all_strings n))).

(** [for t in n.find_all(name): t.decompose()]: every tag of that name below
    [n] is taken out of the tree. *)
Fixpoint decompose_all (name : str) (n : node) : node :=
  match n with
  | Text cls s => Text cls s
  | Tag nm attrs cs =>
      Tag nm attrs
        (flat_map (fun c => if is_named [name] c then []
                            else [decompose_all name c]) cs)
  end.

(** The part of [_sanitize_table_html] on the tree: a [div] or [span] with a
    [table] among its children is unwrapped (replaced by its children). *)
Definition is_wrapper (n : node) : bool :=
  is_named [lit "div"; lit "span"] n
  && existsb (is_named [lit "table"]) (children n).

Fixpoint unwrap_below (n : node) : list node :=
  match n with
  | Text cls s => [Text cls s]
  | Tag nm attrs cs =>
      let cs' := flat_map unwrap_below cs in
      if is_wrapper n then cs' else [Tag nm attrs cs']
  end.

Definition unwrap_wrappers (soup : node) : node :=
  match soup with
  | Text cls s => Text cls s
  | Tag nm attrs cs => Tag nm attrs (flat_map unwrap_below cs)
  end.

Definition table_tags : list str :=
  map lit ["table"; "thead"; "tbody"; "tfoot"; "tr"; "td"; "th";
           "colgroup"; "col"]%string.
Definition allowed : list str := map lit ["scope"; "colspan"; "rowspan"]%string.

(** The part of [_sanitize_table_html] on the attributes: the tags of a table
    keep only the allowed ones. *)
Fixpoint keep_allowed (top : bool) (n : node) : node :=
  match n with
  | Text cls s => Text cls s
  | Tag nm attrs cs =>
      Tag nm
        (if negb top && is_named table_tags n
         then filter (fun kv => existsb (str_eqb (fst kv)) allowed) attrs
         else attrs)
        (map (keep_allowed false) cs)
  end.

(** The options of [_CustomMarkdownify]. *)
Record options : Type := {
  preserve_tables_as_html : bool;
  sanitize_tables_html : bool;
  nested_table_handling : str;
  keep_data_uris : bool;
  keep_inline_images_in : list str
}.

(** The defaults set by [_CustomMarkdownify.__init__]. *)
Definition default_options : options := {|
  preserve_tables_as_html := false;
  sanitize_tables_html := true;
  nested_table_handling := lit "append";
  keep_data_uris := false;
  keep_inline_images_in := []
|}.

(** What the converter takes from BeautifulSoup and markdownify:
    [str(el)], [BeautifulSoup(str(el), 'html.parser')] and the
    [convert_table] of [markdownify.MarkdownConverter]. Each may raise. *)
Record Library : Type := {
  render : node -> Exc str;
  reparse : node -> Exc node;
  super_convert_table : node -> str -> bool -> Exc str
}.

Section Flattener.

Variable L : Library.
Variable opts : options.

(** [self._sanitize_table_html(str(el))] *)
Definition _sanitize_table_html (el : node) : Exc str :=
  html <- render L el ;;
  if negb (sanitize_tables_html opts) then Ok html
  else
    try_except
      (soup <- reparse L el ;;
       render L (keep_allowed true (unwrap_wrappers soup)))
      (Ok html).

Definition escape_pipes (s : str) : str := replace pipe [backslash; pipe] s.

Definition text_without_nested (cell : node) : Exc str :=
  cell_copy <- reparse L cell ;;
  Ok (get_text (decompose_all (lit "table") cell_copy)).

(** [x or ' '] *)
Definition or_blank (s : str) : str := if truthy s then s else [space].

(** ['| ' + ' | '.join(cells) + ' |'] *)
Definition row_line (cells : list str) : str :=
  lit "| " ++ join (lit " | ") cells ++ lit " |".

Definition separator_line (width : nat) : str :=
  row_line (repeat (lit "---") width).

(** [iter_rows]: the rows of [thead], then those of [tbody], or else the
    rows that are children of the table. *)
Definition iter_rows (table_tag : node) : list node :=
  let thead := find (lit "thead") table_tag in
  let tbody := find (lit "tbody") table_tag in
  (match thead with
   | Some h => find_all_direct [lit "tr"] h
   | None => []
   end)
  ++ (match tbody with
      | Some b => find_all_direct [lit "tr"] b
      | None => []
      end)
  ++ (match thead, tbody with
      | None, None => find_all_direct [lit "tr"] table_tag
      | _, _ => []
      end).

Definition cells_in_row (row : node) : list node :=
  find_all_direct [lit "th"; lit "td"] row.

(** The lines of a nested table: the loop over [enumerate(nested_rows)]. *)
Fixpoint nested_lines (i : nat) (nested_rows : list node) : list str :=
  match nested_rows with
  | [] => []
  | row :: rest =>
      let cells := cells_in_row row in
      let cell_texts :=
        map (fun cell => or_blank (escape_pipes (get_text cell))) cells in
      row_line cell_texts
        :: (if i =? 0 then [separator_line (length cell_texts)] else [])
        ++ nested_lines (S i) rest
  end.

Definition convert_nested_table_to_markdown (table_tag : node) : Exc str :=
  try_except
    (match find (lit "table") table_tag with
     | Some _ => _sanitize_table_html table_tag
     | None =>
         let nested_rows := iter_rows table_tag in
         match nested_rows with
         | [] => _sanitize_table_html table_tag
         | _ :: _ => Ok (join [nl] (nested_lines 0 nested_rows))
         end
     end)
    (_sanitize_table_html table_tag).

(** [f"**Table {nested_idx}:**\n\n{nested_md.strip()}\n"] *)
Definition table_block (nested_idx : nat) (nested_md : str) : str :=
  lit "**Table " ++ str_of_nat nested_idx ++ lit ":**" ++ [nl; nl]
  ++ strip nested_md ++ [nl].

(** The reference to the tables [start_idx .. last_idx] of one cell. *)
Definition reference (start_idx last_idx : nat) : str :=
  if start_idx =? last_idx
  then lit "[See Table " ++ str_of_nat start_idx ++ lit "](#table-"
       ++ str_of_nat start_idx ++ lit ")"
  else lit "[See Tables " ++ str_of_nat start_idx ++ lit "-"
       ++ str_of_nat last_idx ++ lit "](#table-"
       ++ str_of_nat start_idx ++ lit ")".

(** [base_text] with the reference: after the text, in brackets, or alone. *)
Definition with_reference (base_text ref : str) : str :=
  if truthy base_text then base_text ++ lit " (" ++ ref ++ lit ")"
  else ref.

(** The loop [for t in nested_tables]: the blocks of one cell, with the
    index after it. *)
Fixpoint convert_nested_tables (nested_idx : nat) (nested_tables : list node)
  : Exc (list str * nat) :=
  match nested_tables with
  | [] => Ok ([], nested_idx)
  | t :: rest =>
      nested_md <- convert_nested_table_to_markdown t ;;
      r <- convert_nested_tables (S nested_idx) rest ;;
      Ok (table_block nested_idx nested_md :: fst r, snd r)
  end.

(** The body of the loop [for c in cells]: the text of the cell, the blocks
    it adds to [row_blocks], and the index after it. *)
Definition convert_cell (nested_idx : nat) (c : node)
  : Exc (str * list str * nat) :=
  raw <- text_without_nested c ;;
  let base_text := escape_pipes raw in
  let nested_tables := find_all [lit "table"] c in
  match nested_tables with
  | [] => Ok (base_text, [], nested_idx)
  | _ :: _ =>
      let start_idx := nested_idx in
      r <- convert_nested_tables nested_idx nested_tables ;;
      let nested_idx := snd r in
      Ok (with_reference base_text (reference start_idx (nested_idx - 1)),
          fst r, nested_idx)
  end.

(** The loop [for c in cells] of one row. *)
Fixpoint convert_cells (nested_idx : nat) (cells : list node)
  : Exc (list str * list str * nat) :=
  match cells with
  | [] => Ok ([], [], nested_idx)
  | c :: rest =>
      r1 <- convert_cell nested_idx c ;;
      let '(text, blocks, nested_idx) := r1 in
      r2 <- convert_cells nested_idx rest ;;
      let '(texts, row_blocks, nested_idx) := r2 in
      Ok (text :: texts, blocks ++ row_blocks, nested_idx)
  end.

(** Pad/truncate to header width. *)
Definition pad_truncate (texts : list str) (width : nat) : list str :=
  if length texts <? width
  then texts ++ repeat [] (width - length texts)
  else firstn width texts.

(** The loop [for r in body_rows]: the cell texts of every row, the nested
    blocks, and the index after the last row. *)
Fixpoint convert_rows (width nested_idx : nat) (body_rows : list node)
  : Exc (list (list str) * list str * nat) :=
  match body_rows with
  | [] => Ok ([], [], nested_idx)
  | r :: rest =>
      r1 <- convert_cells nested_idx (cells_in_row r) ;;
      let '(texts, row_blocks, nested_idx) := r1 in
      r2 <- convert_rows width nested_idx rest ;;
      let '(rows_texts, nested_blocks, nested_idx) := r2 in
      Ok (pad_truncate texts width :: rows_texts,
          row_blocks ++ nested_blocks, nested_idx)
  end.

(** The header cells of the header row. *)
Fixpoint header_texts (first_cells : list node) : Exc (list str) :=
  match first_cells with
  | [] => Ok []
  | c :: rest =>
      raw <- text_without_nested c ;;
      texts <- header_texts rest ;;
      Ok (or_blank (escape_pipes raw) :: texts)
  end.

(** What the 'append' strategy has collected when its loops are done. *)
Record flat : Type := {
  header_cells : list str;
  body_texts : list (list str);
  nested_blocks : list str
}.

Definition is_th (c : node) : bool := is_named [lit "th"] c.

(** The 'append' strategy on the rows of a table, up to the end of the loop
    over the body rows. *)
Definition flatten (rows : list node) : Exc flat :=
  let first_cells := cells_in_row (hd (Text NavigableString []) rows) in
  hb <- (if existsb is_th first_cells
         then (h <- header_texts first_cells ;; Ok (h, tl rows))
         else Ok (repeat [space] (length first_cells), rows)) ;;
  let '(header_cells, body_rows) := hb in
  r <- convert_rows (length header_cells) 1 body_rows ;;
  let '(rows_texts, nested_blocks, _) := r in
  Ok {| header_cells := header_cells;
        body_texts := rows_texts;
        nested_blocks := nested_blocks |}.

(** The text returned by the 'append' strategy. *)
Definition flat_output (f : flat) : str :=
  let md_lines :=
    row_line (header_cells f)
      :: separator_line (length (header_cells f))
      :: map row_line (body_texts f) in
  let out := join [nl] md_lines in
  let out :=
    match nested_blocks f with
    | [] => out
    | _ :: _ => out ++ [nl; nl] ++ join [nl; nl] (nested_blocks f)
    end in
  out ++ [nl].

(** The [try] block of [convert_table]: [Ok (Some out)] when it returns
    [out], [Ok None] when it is left without a [return], [Raise] when an
    exception leaves it. *)
Definition convert_table_try (el : node) : Exc (option str) :=
  if preserve_tables_as_html opts then
    html <- _sanitize_table_html el ;;
    Ok (Some ([nl; nl] ++ html ++ [nl; nl]))
  else
    match find (lit "table") el with
    | Some _ =>
        if str_eqb (nested_table_handling opts) (lit "html") then
          html <- _sanitize_table_html el ;;
          Ok (Some ([nl; nl] ++ html ++ [nl; nl]))
        else
          let rows := iter_rows el in
          match rows with
          | [] => Ok (Some [])
          | _ :: _ =>
              f <- flatten rows ;;
              Ok (Some (flat_output f))
          end
    | None => Ok None
    end.

(** [_CustomMarkdownify.convert_table], for an element [el] that is a tag
    of the tree (the source parses [el] first when it is given a string):
    what the [try] block returns, or else the standard conversion. *)
Definition convert_table (el : node) (text : str) (convert_as_inline : bool)
  : Exc str :=
  match convert_table_try el with
  | Ok (Some out) => Ok out
  | Ok None => super_convert_table L el text convert_as_inline
  | Raise => super_convert_table L el text convert_as_inline
  end.

End Flattener.

(** A library for the examples, not the real one: its [str(el)] writes the
    tree out in a plain way (every tag with an end tag, every string as it
    is, nothing escaped), its parser gives back the tree that was written,
    and its standard converter answers with a fixed text. *)
Definition write_attr (kv : str * str) : str :=
  [space] ++ fst kv ++ lit "=" ++ [dquote] ++ snd kv ++ [dquote].

Fixpoint write (n : node) : str :=
  match n with
  | Text _ s => s
  | Tag nm attrs cs =>
      if str_eqb nm (lit "[document]") then flat_map write cs
      else lit "<" ++ nm ++ flat_map write_attr attrs ++ lit ">"
           ++ flat_map write cs ++ lit "</" ++ nm ++ lit ">"
  end.

Definition standard_text : str := lit "<standard pipe table>".

Definition ideal : Library := {|
  render := fun n => Ok (write n);
  reparse := fun n => Ok (document [n]);
  super_convert_table := fun _ _ _ => Ok standard_text
|}.

(** A library that gives up on deep trees, as a recursion limit does. *)
Fixpoint depth (n : node) : nat :=
  match n with
  | Text _ _ => 0
  | Tag _ _ cs => S (fold_right (fun c d => Nat.max (depth c) d) 0 cs)
  end.

Definition limited (limit : nat) : Library := {|
  render := fun n => if depth n <=? limit then Ok (write n) else Raise;
  reparse := fun n => if depth n <=? limit then Ok (document [n]) else Raise;
  super_convert_table := fun _ _ _ => Ok standard_text
|}.


(* ===================================================================== *)
(** * The image rule *)
(* ===================================================================== *)

(** [attrs.get(key, None)] *)
Fixpoint attr_get (key : str) (attrs : list (str * str)) : option str :=
  match attrs with
  | [] => None
  | (k, v) :: rest => if str_eqb k key then Some v else attr_get key rest
  end.

(** [attrs.get(key, None) or ""] *)
Definition attr_or_empty (key : str) (attrs : list (str * str)) : str :=
  match attr_get key attrs with
  | Some v => v
  | None => []
  end.

(** [_CustomMarkdownify.convert_img], for an [img] with the attributes
    [attrs] below a parent tag named [parent_name]. *)
Definition convert_img (opts : options) (attrs : list (str * str))
    (parent_name : str) (text : str) (convert_as_inline : bool) : str :=
  let alt := attr_or_empty (lit "alt") attrs in
  let src := attr_or_empty (lit "src") attrs in
  let title := attr_or_empty (lit "title") attrs in
  let title_part :=
    if truthy title
    then [space; dquote] ++ replace dquote [backslash; dquote] title ++ [dquote]
    else [] in
  if convert_as_inline
     && negb (existsb (str_eqb parent_name) (keep_inline_images_in opts))
  then alt
  else
    let src :=
      if startswith (lit "data:") src && negb (keep_data_uris opts)
      then hd [] (split ","%char src) ++ lit "..."
      else src in
    lit "![" ++ alt ++ lit "](" ++ src ++ title_part ++ lit ")".

(* ===================================================================== *)
(** * The HTML sanitizer *)
(* ===================================================================== *)

Module Re.

(** The character classes of the sanitizer's patterns. *)
Inductive class : Type :=
| Any                (* [.] under DOTALL *)
| Except (c : ascii) (* [[^c]] *)
| Blank.             (* [\s] *)

Definition in_class (k : class) (c : ascii) : bool :=
  match k with
  | Any => true
  | Except x => negb (Ascii.eqb c x)
  | Blank => isspace c
  end.

(** The pieces of the sanitizer's patterns. *)
Inductive atom : Type :=
| Chr (c : ascii)    (* one character, letters in either case (IGNORECASE) *)
| Star (k : class)   (* [k*], greedy *)
| Lazy (k : class)   (* [k*?], non-greedy *)
| Opt (c : ascii).   (* [c?], greedy *)

Definition regex := list atom.

(** ASCII lower case. *)
Definition lower (c : ascii) : ascii :=
  let n := nat_of_ascii c in
  if (65 <=? n) && (n <=? 90) then ascii_of_nat (n + 32) else c.

Definition eqb_nocase (a b : ascii) : bool := Ascii.eqb (lower a) (lower b).

(** A literal piece of a pattern. *)
Definition text (s : str) : regex := map Chr s.

(** The backtracking matcher at the start of [s]: the length of the first
    match in the order in which [re] tries them (a greedy star the longest
    run first, a non-greedy one the shortest first). *)
Fixpoint match_len (r : regex) (s : str) : option nat :=
  match r with
  | [] => Some 0
  | Chr c :: r' =>
      match s with
      | x :: s' => if eqb_nocase x c then option_map S (match_len r' s')
                   else None
      | [] => None
      end
  | Star k :: r' =>
      (fix star (s : str) : option nat :=
         match s with
         | x :: s' =>
             if in_class k x then
               match star s' with
               | Some n => Some (S n)
               | None => match_len r' s
               end
             else match_len r' s
         | [] => match_len r' []
         end) s
  | Lazy k :: r' =>
      (fix lazy (s : str) : option nat :=
         match match_len r' s with
         | Some n => Some n
         | None =>
             match s with
             | x :: s' => if in_class k x then option_map S (lazy s')
                          else None
             | [] => None
             end
         end) s
  | Opt c :: r' =>
      match s with
      | x :: s' =>
          if eqb_nocase x c then
            match match_len r' s' with
            | Some n => Some (S n)
            | None => match_len r' s
            end
          else match_len r' s
      | [] => match_len r' []
      end
  end.

(** [re.search(r, s)]: where the leftmost match starts. *)
Fixpoint search (r : regex) (s : str) : option nat :=
  match match_len r s with
  | Some _ => Some 0
  | None =>
      match s with
      | [] => None
      | _ :: s' => option_map S (search r s')
      end
  end.

(** [re.sub(r, '', s)], with [skip] characters of a match still to drop. *)
Fixpoint sub_from (r : regex) (skip : nat) (s : str) : str :=
  match s with
  | [] => []
  | c :: s' =>
      match skip with
      | S k => sub_from r k s'
      | 0 =>
          match match_len r s with
          | Some (S n) => sub_from r n s'
          | _ => c :: sub_from r 0 s'
          end
      end
  end.

Definition sub (r : regex) (s : str) : str := sub_from r 0 s.

End Re.
Import Re.

Definition q : regex := [Chr dquote].
Definition re_content : regex :=
  text (lit "<div id=") ++ q ++ text (lit "content")
  ++ [Star (Except ">"%char); Chr ">"%char].
Definition re_likes : regex :=
  text (lit "<div id=") ++ q ++ text (lit "likes-and-labels-container").
Definition re_link : regex :=
  text (lit "<link") ++ [Star (Except ">"%char)] ++ text (lit "rel=") ++ q
  ++ text (lit "stylesheet") ++ q
  ++ [Star (Except ">"%char); Opt "/"%char; Chr ">"%char].
Definition re_style_block : regex :=
  text (lit "<style>") ++ [Lazy Any] ++ text (lit "</style>").
Definition re_style_attr : regex :=
  text (lit "style=") ++ q ++ [Star (Except dquote)] ++ q.
Definition re_drawio : regex :=
  text (lit "<div") ++ [Star (Except ">"%char)] ++ text (lit "id=") ++ q
  ++ text (lit "drawio-macro-content") ++ [Star (Except dquote)] ++ q
  ++ [Star (Except ">"%char); Chr ">"%char; Lazy Any]
  ++ text (lit "</div>") ++ [Star Blank] ++ text (lit "<script")
  ++ [Star (Except ">"%char); Chr ">"%char; Lazy Any]
  ++ text (lit "</script>").
Definition re_svg : regex :=
  text (lit "<svg") ++ [Star (Except ">"%char); Chr ">"%char; Lazy Any]
  ++ text (lit "</svg>").
Definition re_canvas : regex :=
  text (lit "<canvas") ++ [Star (Except ">"%char); Chr ">"%char; Lazy Any]
  ++ text (lit "</canvas>").
Definition re_viewer : regex :=
  text (lit "<script") ++ [Star (Except ">"%char); Chr ">"%char; Star Blank]
  ++ text (lit "(function()") ++ [Star Blank] ++ text (lit "{")
  ++ [Star Blank] ++ text (lit "function startViewer()") ++ [Lazy Any]
  ++ text (lit "</script>").
Definition re_data_img : regex :=
  text (lit "<img") ++ [Star (Except ">"%char)] ++ text (lit "src=") ++ q
  ++ text (lit "data:") ++ [Star (Except dquote)] ++ q
  ++ [Star (Except ">"%char); Opt "/"%char; Chr ">"%char; Star Blank].
Definition re_evaluation : regex :=
  text (lit "<span") ++ [Star (Except ">"%char); Chr ">"%char]
  ++ text (lit "draw.io evaluation version</span>").
Definition re_diagram : regex :=
  text (lit "<div") ++ [Star (Except ">"%char)] ++ text (lit "class=") ++ q
  ++ [Star (Except dquote)] ++ text (lit "geDiagramContainer")
  ++ [Star (Except dquote)] ++ q
  ++ [Star (Except ">"%char); Chr ">"%char; Lazy Any] ++ text (lit "</div>").

(** The patterns of the [re.sub] calls, in the order of the source. *)
Definition removals : list regex :=
  [re_link; re_style_block; re_style_attr; re_drawio; re_svg; re_canvas;
   re_viewer; re_data_img; re_evaluation; re_diagram].

(** [HtmlConverter._preprocess_html] *)
Definition _preprocess_html (html_content : str) : str :=
  let html_content :=
    match search re_content html_content with
    | Some start_pos => skipn start_pos html_content
    | None => html_content
    end in
  let html_content :=
    match search re_likes html_content with
    | Some end_pos => firstn end_pos html_content
    | None => html_content
    end in
  fold_left (fun html r => sub r html) removals html_content.


(** [HtmlConverter.convert_string], which sanitizes and hands the text to
    [convert_stream], which sanitizes again, parses, converts and strips.
    [convert_soup] stands for the parser and the converter run on the
    sanitized text. *)
Definition convert_string (convert_soup : str -> str) (html_content : str)
  : str :=
  let html_content := _preprocess_html html_content in
  let html_content := _preprocess_html html_content in
  strip (convert_soup html_content).

(* ===================================================================== *)
(** * Definitions used to state the properties *)
(* ===================================================================== *)

(** Induction on a tree, with the property known of every child. *)
Section NodeInduction.

Variable P : node -> Prop.
Hypothesis text_case : forall cls s, P (Text cls s).
Hypothesis tag_case :
  forall nm attrs cs, Forall P cs -> P (Tag nm attrs cs).

Fixpoint node_induction (n : node) : P n :=
  match n with
  | Text cls s => text_case cls s
  | Tag nm attrs cs =>
      tag_case nm attrs cs
        ((fix all (l : list node) : Forall P l :=
            match l with
            | [] => Forall_nil P
            | c :: l' => Forall_cons c (node_induction c) (all l')
            end) cs)
  end.

End NodeInduction.

(** The number of tables below a cell. *)
Definition tables_in (c : node) : nat := length (find_all [lit "table"] c).

(** The nested tables of a list of cells, in document order. *)
Definition tables_of (cells : list node) : list node :=
  flat_map (find_all [lit "table"]) cells.

(** The blocks of the renderings [mds], numbered [idx], [idx + 1], ... *)
Definition labelled (idx : nat) (mds : list str) : list str :=
  map (fun p => table_block (fst p) (snd p))
      (combine (seq idx (length mds)) mds).

(** The text of a cell with [k] nested tables, the first of them numbered
    [idx]: its own text, with a reference when [k] is not zero. *)
Definition marked (base_text : str) (idx k : nat) : str :=
  match k with
  | 0 => base_text
  | S _ => with_reference base_text (reference idx (idx + k - 1))
  end.

(** The texts of the cells of a row whose first free index is [idx], from
    the texts [raws] of the cells without their nested tables. *)
Fixpoint cell_texts (idx : nat) (cells : list node) (raws : list str)
  : list str :=
  match cells, raws with
  | c :: cells', raw :: raws' =>
      marked (escape_pipes raw) idx (tables_in c)
        :: cell_texts (idx + tables_in c) cells' raws'
  | _, _ => []
  end.

(** The rows of the flat table, each padded or truncated to [width]. *)
Fixpoint row_texts (width idx : nat) (rows : list node)
    (raws : list (list str)) : list (list str) :=
  match rows, raws with
  | r :: rows', raw :: raws' =>
      pad_truncate (cell_texts idx (cells_in_row r) raw) width
        :: row_texts width (idx + length (tables_of (cells_in_row r)))
             rows' raws'
  | _, _ => []
  end.

(** The rows that [flatten] takes as body rows. *)
Definition body_rows_of (rows : list node) : list node :=
  if existsb is_th (cells_in_row (hd (Text NavigableString []) rows))
  then tl rows else rows.

(** The text of a cell once every table below it is deleted. *)
Definition own_text (c : node) : str :=
  get_text (decompose_all (lit "table") c).

(** The strings at and below [n] whose class is one of [types] and that lie
    in no table below [n]. *)
Fixpoint own_strings_of_class (types : list string_class) (n : node)
  : list str :=
  match n with
  | Text cls s => if existsb (class_eqb cls) types then [s] else []
  | Tag _ _ cs =>
      flat_map (fun c => if is_named [lit "table"] c then []
                         else own_strings_of_class types c) cs
  end.

(** The strings below a cell that [get_text] takes from it and that lie in
    no table below the cell. *)
Definition own_strings (n : node) : list str :=
  flat_map (fun c => if is_named [lit "table"] c then []
                     else own_strings_of_class (interesting_string_types n) c)
           (children n).

(** The parser gives back the tree that [str] wrote. *)
Definition faithful (L : Library) (c : node) : Prop :=
  reparse L c = Ok (document [c]).

(** The copy of a cell that [text_without_nested] works on,
    [BeautifulSoup(str(cell), 'html.parser')], where the parser gives one. *)
Definition cell_copy (L : Library) (cell : node) : node :=
  match reparse L cell with
  | Ok cell_copy => cell_copy
  | Raise => document []
  end.

(** What [text_without_nested] gives for a cell, where it gives a text. *)
Definition raw_text (L : Library) (cell : node) : str :=
  match text_without_nested L cell with
  | Ok raw => raw
  | Raise => []
  end.

(** The texts of the cells of the rows, one for each cell, before the rows
    are padded or cut: the text that [text_without_nested] gives, with its
    pipes escaped and with the reference of the cell. [idx] is the first
    free index. *)
Fixpoint own_row_texts (L : Library) (idx : nat) (rows : list node)
  : list (list str) :=
  match rows with
  | [] => []
  | r :: rows' =>
      cell_texts idx (cells_in_row r) (map (raw_text L) (cells_in_row r))
        :: own_row_texts L (idx + length (tables_of (cells_in_row r))) rows'
  end.

(** A text of several lines. *)
Definition text_of (lines : list string) : str := join [nl] (map lit lines).

(** Tags and strings for the examples. *)
Definition el (name : string) (cs : list node) : node := Tag (lit name) [] cs.
Definition txt (s : string) : node := Text NavigableString (lit s).

(** An outer table with a header row and one body row of three cells: a
    text with one nested table, two nested tables alone, and a cell beyond
    the header's width. *)
Definition example_table : node :=
  el "table"
    [el "tr" [el "th" [txt "A"]; el "th" [txt "B"]];
     el "tr"
       [el "td" [txt "x";
                 el "table" [el "tr" [el "td" [txt "n1"]; el "td" [txt "n2"]]]];
        el "td" [el "table" [el "tr" [el "td" [txt "p"]]];
                 el "table" [el "tr" [el "td" [txt "q"]]]];
        el "td" [txt "extra"]]].

Definition example_flat : flat :=
  match flatten ideal default_options (iter_rows example_table) with
  | Ok f => f
  | Raise => {| header_cells := []; body_texts := []; nested_blocks := [] |}
  end.

(** A table with no table inside. *)
Definition plain_table : node :=
  el "table"
    [el "tr" [el "th" [txt "A"]; el "th" [txt "B"]];
     el "tr" [el "td" [txt "1"]; el "td" [txt "2"]]].

(** A cell with two nested tables and no text of its own, and one with a
    text and one nested table. *)
Definition two_tables_cell : node :=
  el "td" [el "table" [el "tr" [el "td" [txt "p"]]];
           el "table" [el "tr" [el "td" [txt "q"]]]].
Definition text_and_table_cell : node :=
  el "td" [txt "x"; el "table" [el "tr" [el "td" [txt "n"]]]].

(** A literal in which ['] stands for the double quote. *)
Definition quoted (s : string) : str :=
  map (fun c => if Ascii.eqb c "'"%char then dquote else c) (lit s).

(** No match of [r] anywhere in [s]. *)
Definition no_match (r : regex) (s : str) : bool :=
  match search r s with
  | None => true
  | Some _ => false
  end.

(** Nothing is left for the sanitizer to do: the content [div], if there is
    one, opens the text, and no other pattern of the sanitizer matches. *)
Definition settled (html : str) : bool :=
  match search re_content html with
  | None | Some 0 => true
  | Some (S _) => false
  end
  && no_match re_likes html
  && forallb (fun r => no_match r html) removals.

(** Every match of the pattern takes at least one character. *)
Definition starts_with_a_character (r : regex) : bool :=
  match r with
  | Chr _ :: _ => true
  | _ => false
  end.

(** A stylesheet link whose inline style holds a [>], and a page with an
    image given as a data URI. *)
Definition styled_link : str := quoted "<link style='a>b' rel='stylesheet'>".
Definition image_page : str :=
  quoted "<p>Logo:</p><img alt='logo' src='data:image/png;base64,iVBORw0='>".
Definition image_attrs : list (str * str) :=
  [(lit "alt", lit "logo");
   (lit "src", lit "data:image/png;base64,iVBORw0=")].

(** A table row of this kind does not end in two pipes and is not a lone
    pipe. *)
Definition row_ends_well (line : str) : bool :=
  negb (is_table_row line)
  || (negb (endswith (lit "||") line) && (2 <=? count pipe line)).

(** Every table row of the text is of that kind. *)
Definition rows_end_well (markdown_content : str) : bool :=
  forallb row_ends_well (split nl markdown_content).

(** A line that the inner loop can absorb: stripped, it holds a pipe and no
    [---]. *)
Definition absorbable (line : str) : Prop :=
  has_char pipe (strip line) = true
  /\ contains (lit "---") (strip line) = false.

(** [repaired lines out]: [out] is [lines] with every line that is no table
    row kept as it is and in its place, but for the absorbable lines that
    follow a table row, which are taken away with the row, one line (with a
    pipe) standing for the row and for them. *)
Inductive repaired : list str -> list str -> Prop :=
| repaired_nil : repaired [] []
| repaired_kept (line : str) (rest out : list str) :
    is_table_row line = false ->
    repaired rest out ->
    repaired (line :: rest) (line :: out)
| repaired_row (line : str) (absorbed rest : list str) (row : str)
    (out : list str) :
    is_table_row line = true ->
    Forall absorbable absorbed ->
    has_char pipe row = true ->
    repaired rest out ->
    repaired (line :: absorbed ++ rest) (row :: out).

(** A table whose second row has an empty last cell and is followed by a
    line that continues it. *)
Definition broken_table : str :=
  text_of ["| a | b |"; "| c ||"; "d |"]%string.

(** A table whose row is spread over three lines, and a text after it. *)
Definition spread_row : str :=
  text_of ["| a | b |"; "| c"; "d |"; ""; "end"]%string.

(** What is left of a row when a line is merged into it. *)
Definition stem (line : str) : str := rstrip (rstrip_char pipe line).

(** A row into which lines have been merged. *)
Definition merged_from (line m : str) : Prop :=
  m = line
  \/ exists t, m = stem line ++ space :: t /\ endswith [pipe] m = true.

(** A table whose header cell holds a nested table, as its one body cell
    does. *)
Definition header_nested_table : node :=
  el "table"
    [el "tr" [el "th" [txt "A"; el "table" [el "tr" [el "td" [txt "h"]]]]];
     el "tr" [el "td" [el "table" [el "tr" [el "td" [txt "b"]]]]]].

(** A table with one row and one cell, which holds a text and a nested
    table with a [thead] and a [tbody]. *)
Definition nested_sections_table : node :=
  el "table"
    [el "tr"
       [el "td"
          [txt "x";
           el "table"
             [el "thead" [el "tr" [el "th" [txt "H"]]];
              el "tbody" [el "tr" [el "td" [txt "v"]]]]]]].

(** A table with a [tbody] whose one cell holds a table with a [thead]; the
    one cell of that [thead] holds a table in its turn. *)
Definition innermost_table : node := el "table" [el "tr" [el "td" [txt "n"]]].
Definition middle_table : node :=
  el "table" [el "thead" [el "tr" [el "td" [txt "h"; innermost_table]]]].
Definition nested_thead_table : node :=
  el "table" [el "tbody" [el "tr" [el "td" [middle_table]]]].

(** A cell with a comment, a script, a template and a ruby text beside its
    own text and a nested table. *)
Definition noisy_cell : node :=
  el "td"
    [txt "a";
     Text Comment (lit "note");
     el "script" [Text Script (lit "run()")];
     el "template" [Text TemplateString (lit "t")];
     el "ruby" [txt "k"; el "rt" [Text RubyTextString (lit "r")]];
     el "table" [el "tr" [el "td" [txt "n"]]];
     txt "b"].

(* ===================================================================== *)
(** * The entry point: the Markdown and the file name that [main] returns *)
(* ===================================================================== *)

(** [re.split(r"\r?\n", s)]: the texts between the line ends, a line end
    being a newline together with the carriage return before it, if there
    is one. *)
Fixpoint split_lines (s : str) : list str :=
  match s with
  | [] => [[]]
  | x :: s' =>
      if Ascii.eqb x nl then [] :: split_lines s'
      else if Ascii.eqb x cr && startswith [nl] s' then split_lines s'
      else match split_lines s' with
           | p :: ps => (x :: p) :: ps
           | [] => [[x]]
           end
  end.

(** ["\n".join([line.rstrip() for line in re.split(r"\r?\n", markdown)])] *)
Definition rstrip_lines (markdown : str) : str :=
  join [nl] (map rstrip (split_lines markdown)).

(** [re.sub(r"\n{3,}", "\n\n", s)]: of every run of newlines the first two
    are kept. [seen] is the number of newlines just before [s]. *)
Fixpoint collapse_newlines_from (seen : nat) (s : str) : str :=
  match s with
  | [] => []
  | c :: s' =>
      if Ascii.eqb c nl
      then (if seen <? 2 then nl :: collapse_newlines_from (S seen) s'
            else collapse_newlines_from (S seen) s')
      else c :: collapse_newlines_from 0 s'
  end.
Definition collapse_newlines (s : str) : str := collapse_newlines_from 0 s.

(** The [markdown_content] that [main] returns as the body, from the
    Markdown of the converter ([result.markdown]). *)
Definition main_markdown_content (markdown : str) : str :=
  let markdown_content := rstrip_lines markdown in
  let markdown_content := collapse_newlines markdown_content in
  _fix_markdown_tables markdown_content.

(** The class [\w] on one character, for the code points below 256: the
    letters, the digits and the other numbers, and the underscore. *)
Definition isword (c : ascii) : bool :=
  let n := nat_of_ascii c in
  ((48 <=? n) && (n <=? 57)) || ((65 <=? n) && (n <=? 90)) || (n =? 95)
  || ((97 <=? n) && (n <=? 122))
  || (n =? 170) || (n =? 178) || (n =? 179) || (n =? 181)
  || (n =? 185) || (n =? 186) || ((188 <=? n) && (n <=? 190))
  || ((192 <=? n) && (n <=? 214)) || ((216 <=? n) && (n <=? 246))
  || (248 <=? n).

(** [re.sub(r'[-\s]+', '-', s)]: every maximal run of hyphens and
    whitespace becomes one hyphen. [inrun] says that the character before
    was of the run. *)
Fixpoint hyphenate_from (inrun : bool) (s : str) : str :=
  match s with
  | [] => []
  | c :: s' =>
      if Ascii.eqb c dash || isspace c
      then (if inrun then hyphenate_from true s'
            else dash :: hyphenate_from true s')
      else c :: hyphenate_from false s'
  end.

(** The [safe_title] of [main]:
    [re.sub(r'[-\s]+', '-', re.sub(r'[^\w\s-]', '', title.strip()))]. *)
Definition safe_title (title : str) : str :=
  let safe_title :=
    filter (fun c => isword c || isspace c || Ascii.eqb c dash)
           (strip title) in
  hyphenate_from false safe_title.

(** The [filename] of [main], from [result.title] ([None] when the page has
    no title). *)
Definition main_filename (title : option str) : str :=
  match title with
  | Some title =>
      if truthy title then
        let safe_title := safe_title title in
        if truthy safe_title then safe_title ++ lit ".md"
        else lit "converted.md"
      else lit "converted.md"
  | None => lit "converted.md"
  end.

(* ===================================================================== *)
(** * Further definitions used to state the properties *)
(* ===================================================================== *)

(** [tag.attrs] *)
Definition attrs_of (n : node) : list (str * str) :=
  match n with
  | Text _ _ => []
  | Tag _ attrs _ => attrs
  end.

(** The tables at and below a node. *)
Definition tables_at (n : node) : list node :=
  filter (is_named [lit "table"]) (n :: descendants n).

(** [out] is [s] with some of its characters deleted. *)
Inductive deleted_from : str -> str -> Prop :=
| deleted_nil : deleted_from [] []
| deleted_keep (c : ascii) (out s : str) :
    deleted_from out s -> deleted_from (c :: out) (c :: s)
| deleted_drop (c : ascii) (out s : str) :
    deleted_from out s -> deleted_from out (c :: s).

(** A pipe of [s] with no backslash just before it. [escaped] says that the
    character before [s] was a backslash. *)
Fixpoint bare_pipe (escaped : bool) (s : str) : bool :=
  match s with
  | [] => false
  | c :: s' =>
      (Ascii.eqb c pipe && negb escaped)
      || bare_pipe (Ascii.eqb c backslash) s'
  end.

(** Every line with a pipe is a table row of [n] pipes. *)
Definition rectangular (n : nat) (lines : list str) : bool :=
  forallb (fun l => negb (has_char pipe l)
                    || (is_table_row l && (count pipe l =? n))) lines.

(** A table of two rows whose cells hold runs of blanks, and a text with no
    table. *)
Definition untidy_table : str :=
  text_of ["|  a   b | c|"; "| d |   e   |"]%string.
Definition prose : str := text_of ["Title"; ""; "a b"; "c - d"]%string.

(** A table in a wrapper, with attributes on its tags and on a link, and
    the options that leave tables as HTML. *)
Definition wrapped_table : node :=
  Tag (lit "div") [(lit "class", lit "table-wrap")]
    [Tag (lit "table") [(lit "class", lit "grid"); (lit "style", lit "x")]
       [el "tr"
          [Tag (lit "td") [(lit "colspan", lit "2"); (lit "class", lit "c")]
             [Tag (lit "a") [(lit "href", lit "u")] [txt "link"]]]]].
Definition html_options : options := {|
  preserve_tables_as_html := true;
  sanitize_tables_html := true;
  nested_table_handling := lit "append";
  keep_data_uris := false;
  keep_inline_images_in := []
|}.

(** A table with a nested table whose [thead] holds no row: its one row is
    a child of the table. *)
Definition headless_table : node :=
  el "table"
    [el "thead" [];
     el "tr" [el "td" [txt "kept?";
                       el "table" [el "tr" [el "td" [txt "n"]]]]]].

(** A nested table with no table inside. *)
Definition simple_nested : node :=
  el "table" [el "tr" [el "td" [txt "p|q"]; el "td" []];
              el "tr" [el "td" [txt "r"]]].

(** A page with a text before the content [div] and a text from the marker
    of the likes on. *)
Definition framed_page : str :=
  quoted "<p>menu</p><div id='content' class='c'>body</div><div id='likes-and-labels-container'>likes</div>".

(* ===================================================================== *)
(** * Facts on the string operations *)
(* ===================================================================== *)

Lemma eqb_pipe_space : Ascii.eqb pipe space = false.
Proof. reflexivity. Qed.

Lemma isspace_pipe : isspace pipe = false.
Proof. reflexivity. Qed.

Lemma isspace_space : isspace space = true.
Proof. reflexivity. Qed.

Lemma truthy_app_r (a b : str) : truthy b = true -> truthy (a ++ b) = true.
Proof. destruct a, b; auto. Qed.

(** ** [lstrip] and [rstrip] *)

Section Strip.

Variable p : ascii -> bool.

Lemma rstrip_by_cons (c : ascii) (s : str) :
  rstrip_by p (c :: s) = [] \/ rstrip_by p (c :: s) = c :: rstrip_by p s.
Proof.
  simpl. destruct (rstrip_by p s); [|now right].
  destruct (p c); [now left | now right].
Qed.

Lemma rstrip_by_keep (c : ascii) (s : str) :
  p c = false -> rstrip_by p (c :: s) = c :: rstrip_by p s.
Proof.
  intros H. simpl. destruct (rstrip_by p s); [now rewrite H | reflexivity].
Qed.

Lemma rstrip_by_app (a b : str) :
  rstrip_by p (a ++ b)
  = match rstrip_by p b with
    | [] => rstrip_by p a
    | r => a ++ r
    end.
Proof.
  induction a as [|c a IH]; simpl.
  - now destruct (rstrip_by p b).
  - rewrite IH. destruct (rstrip_by p b); [reflexivity|].
    destruct a; reflexivity.
Qed.

Lemma rstrip_by_snoc (s : str) (c : ascii) :
  rstrip_by p (s ++ [c]) = if p c then rstrip_by p s else s ++ [c].
Proof.
  rewrite rstrip_by_app. simpl. now destruct (p c).
Qed.

Lemma rstrip_by_all (s : str) :
  forallb p s = true -> rstrip_by p s = [].
Proof.
  induction s as [|c s IH]; simpl; [reflexivity|].
  intros H. apply andb_true_iff in H as [Hc Hs].
  now rewrite IH, Hc.
Qed.

Lemma rstrip_by_nil_all (s : str) :
  rstrip_by p s = [] -> forallb p s = true.
Proof.
  induction s as [|c s IH]; simpl; [reflexivity|].
  destruct (rstrip_by p s); [|discriminate].
  destruct (p c); [|discriminate]. intros _. now rewrite IH.
Qed.

Lemma rstrip_by_idem (s : str) :
  rstrip_by p (rstrip_by p s) = rstrip_by p s.
Proof.
  induction s as [|c s IH]; simpl; [reflexivity|].
  destruct (rstrip_by p s) as [|x r] eqn:E.
  - destruct (p c) eqn:Ec; simpl; [reflexivity | now rewrite Ec].
  - replace (rstrip_by p (c :: x :: r))
      with (match rstrip_by p (x :: r) with
            | [] => if p c then [] else [c]
            | r0 => c :: r0
            end) by reflexivity.
    rewrite IH. reflexivity.
Qed.

Lemma rstrip_by_incl (s : str) (c : ascii) :
  In c (rstrip_by p s) -> In c s.
Proof.
  induction s as [|x s IH]; simpl; [auto|].
  destruct (rstrip_by p s) as [|y r].
  - destruct (p x); simpl; tauto.
  - simpl in *. tauto.
Qed.

Lemma lstrip_by_incl (s : str) (c : ascii) :
  In c (lstrip_by p s) -> In c s.
Proof.
  induction s as [|x s IH]; simpl; [auto|].
  destruct (p x); simpl; tauto.
Qed.

Lemma lstrip_by_all_app (w s : str) :
  forallb p w = true -> lstrip_by p (w ++ s) = lstrip_by p s.
Proof.
  induction w as [|c w IH]; simpl; [reflexivity|].
  intros H. apply andb_true_iff in H as [Hc Hw]. now rewrite Hc, IH.
Qed.

Lemma lstrip_by_app_keep (a s : str) (c : ascii) :
  p c = false -> lstrip_by p (a ++ c :: s) = lstrip_by p (a ++ [c]) ++ s.
Proof.
  intros Hc. induction a as [|x a IH]; simpl.
  - now rewrite Hc.
  - destruct (p x); [assumption|]. simpl. f_equal.
    rewrite <- app_assoc. reflexivity.
Qed.

(** A string whose stripped form starts with [c] is blanks, then [c]. *)
Lemma lstrip_by_starts (s : str) (c : ascii) (u : str) :
  lstrip_by p s = c :: u ->
  exists w, s = w ++ c :: u /\ forallb p w = true /\ p c = false.
Proof.
  induction s as [|x s IH]; simpl; [discriminate|].
  destruct (p x) eqn:Ex.
  - intros H. destruct (IH H) as (w & -> & Hw & Hc).
    exists (x :: w). simpl. now rewrite Ex, Hw.
  - intros H. inversion H; subst. exists []. auto.
Qed.

Lemma lstrip_by_idem (s : str) :
  lstrip_by p (lstrip_by p s) = lstrip_by p s.
Proof.
  induction s as [|x s IH]; simpl; [reflexivity|].
  destruct (p x) eqn:Ex; [assumption|]. simpl. now rewrite Ex.
Qed.

End Strip.

Lemma strip_incl (s : str) (c : ascii) : In c (strip s) -> In c s.
Proof.
  unfold strip, rstrip, lstrip. intros H.
  apply rstrip_by_incl in H. now apply lstrip_by_incl in H.
Qed.

(** The stripped string starts as the left-stripped one does. *)
Lemma strip_cons (s : str) (c : ascii) (u : str) :
  lstrip s = c :: u -> strip s = c :: rstrip u.
Proof.
  unfold strip. intros H. rewrite H.
  destruct (lstrip_by_starts _ _ _ _ H) as (w & _ & _ & Hc).
  now apply rstrip_by_keep.
Qed.

Lemma strip_nil (s : str) : lstrip s = [] -> strip s = [].
Proof. unfold strip. now intros ->. Qed.

Lemma strip_idem (s : str) : strip (strip s) = strip s.
Proof.
  destruct (lstrip s) as [|c u] eqn:E.
  - rewrite (strip_nil _ E). reflexivity.
  - rewrite (strip_cons _ _ _ E).
    destruct (lstrip_by_starts _ _ _ _ E) as (w & _ & _ & Hc).
    assert (El : lstrip (c :: rstrip u) = c :: rstrip u)
      by (unfold lstrip; simpl; now rewrite Hc).
    rewrite (strip_cons _ _ _ El). unfold rstrip. now rewrite rstrip_by_idem.
Qed.

(** ** [in], [count], [startswith], [endswith] *)

Lemma has_char_In (c : ascii) (s : str) : has_char c s = true <-> In c s.
Proof.
  unfold has_char. rewrite existsb_exists. split.
  - intros (x & Hx & E). apply Ascii.eqb_eq in E. now subst.
  - intros H. exists c. split; [assumption | apply Ascii.eqb_refl].
Qed.

Lemma has_char_false (c : ascii) (s : str) :
  has_char c s = false <-> ~ In c s.
Proof.
  rewrite <- has_char_In. destruct (has_char c s); split; congruence.
Qed.

Lemma count_app (c : ascii) (a b : str) :
  count c (a ++ b) = count c a + count c b.
Proof. induction a as [|x a IH]; simpl; [reflexivity | rewrite IH; lia]. Qed.

Lemma count_zero (c : ascii) (s : str) : ~ In c s -> count c s = 0.
Proof.
  induction s as [|x s IH]; simpl; [reflexivity|]. intros H.
  destruct (Ascii.eqb x c) eqn:E.
  - apply Ascii.eqb_eq in E. subst. tauto.
  - apply IH. tauto.
Qed.

Lemma count_positive (c : ascii) (s : str) : In c s -> 0 < count c s.
Proof.
  induction s as [|x s IH]; simpl; [tauto|]. intros [-> | H].
  - rewrite Ascii.eqb_refl. lia.
  - specialize (IH H). lia.
Qed.

Lemma count_has_char (c : ascii) (s : str) :
  0 < count c s -> has_char c s = true.
Proof.
  intros H. apply has_char_In.
  destruct (in_dec ascii_dec c s) as [|n]; [assumption|].
  rewrite (count_zero _ _ n) in H. lia.
Qed.

Section CountStrip.

Variable p : ascii -> bool.
Variable c : ascii.
Hypothesis other : p c = false.

Lemma count_lstrip_by (s : str) : count c (lstrip_by p s) = count c s.
Proof.
  induction s as [|x s IH]; simpl; [reflexivity|].
  destruct (p x) eqn:Ex; [|reflexivity].
  rewrite IH. destruct (Ascii.eqb x c) eqn:E; [|reflexivity].
  apply Ascii.eqb_eq in E. congruence.
Qed.

Lemma count_rstrip_by (s : str) : count c (rstrip_by p s) = count c s.
Proof.
  induction s as [|x s IH]; simpl; [reflexivity|].
  destruct (rstrip_by p s) as [|y r] eqn:Er.
  - simpl in IH. rewrite <- IH. destruct (p x) eqn:Ex; simpl; [|lia].
    destruct (Ascii.eqb x c) eqn:E; [|reflexivity].
    apply Ascii.eqb_eq in E. congruence.
  - change (count c (x :: y :: r) = count c (x :: s)).
    simpl in *. lia.
Qed.

End CountStrip.

Lemma count_strip (s : str) : count pipe (strip s) = count pipe s.
Proof.
  unfold strip, rstrip, lstrip.
  rewrite count_rstrip_by, count_lstrip_by; auto.
Qed.

Lemma has_pipe_strip (s : str) : has_char pipe (strip s) = has_char pipe s.
Proof.
  destruct (has_char pipe s) eqn:E.
  - apply count_has_char. rewrite count_strip.
    now apply count_positive, has_char_In.
  - apply has_char_false. intros H. apply strip_incl in H.
    now apply has_char_false in E.
Qed.

Lemma startswith_app (sub a b : str) :
  startswith sub a = true -> startswith sub (a ++ b) = true.
Proof.
  revert a; induction sub as [|x sub IH]; intros [|y a]; simpl; auto;
    try discriminate.
  intros H. apply andb_true_iff in H as [H1 H2].
  now rewrite H1, IH.
Qed.

Lemma contains_cons (sub : str) (c : ascii) (s : str) :
  contains sub s = true -> contains sub (c :: s) = true.
Proof. intros H. simpl. rewrite H. apply orb_true_r. Qed.

Lemma contains_app_r (sub a b : str) :
  contains sub b = true -> contains sub (a ++ b) = true.
Proof.
  intros H. induction a as [|c a IH]; [assumption|].
  now apply contains_cons.
Qed.

Lemma contains_app_l (sub a b : str) :
  contains sub a = true -> contains sub (a ++ b) = true.
Proof.
  induction a as [|c a IH]; simpl.
  - rewrite orb_false_r. destruct sub; [|discriminate].
    intros _. now destruct b.
  - intros H. apply orb_true_iff in H as [H | H].
    + change (c :: a ++ b) with ((c :: a) ++ b).
      now rewrite (startswith_app _ _ b H).
    + rewrite (IH H). apply orb_true_r.
Qed.

Lemma contains_nonempty (sub s : str) :
  sub <> [] -> contains sub s = true -> s <> [].
Proof. intros Hs H ->. destruct sub; [congruence | discriminate]. Qed.

(** A string found in [s] is found in [s] stripped, when it holds no
    character that is stripped. *)
Section ContainsStrip.

Variable p : ascii -> bool.
Variable sub : str.
Hypothesis kept : forallb (fun c => negb (p c)) sub = true.
Hypothesis nonempty : sub <> [].

Lemma startswith_rstrip_by (s : str) :
  startswith sub s = true -> startswith sub (rstrip_by p s) = true.
Proof.
  clear nonempty. revert s kept.
  induction sub as [|x sub' IH]; intros s Hk; [reflexivity|].
  destruct s as [|y s]; [discriminate|]. simpl in Hk |- *.
  apply andb_true_iff in Hk as [Hx Hk]. intros H.
  apply andb_true_iff in H as [E H]. apply Ascii.eqb_eq in E. subst y.
  apply negb_true_iff in Hx.
  change (startswith (x :: sub') (rstrip_by p (x :: s)) = true).
  rewrite (rstrip_by_keep p x s Hx). simpl.
  rewrite Ascii.eqb_refl. now apply IH.
Qed.

Lemma contains_rstrip_by (s : str) :
  contains sub s = true -> contains sub (rstrip_by p s) = true.
Proof.
  induction s as [|c s IH]; intros H.
  - destruct sub; [congruence | discriminate].
  - simpl in H. apply orb_true_iff in H as [H | H].
    + apply startswith_rstrip_by in H.
      destruct (rstrip_by p (c :: s)); simpl in *; now rewrite H.
    + specialize (IH H).
      destruct (rstrip_by_cons p c s) as [E | E].
      * pose proof (contains_nonempty _ _ nonempty IH) as Hn.
        simpl in E. destruct (rstrip_by p s); [congruence | discriminate].
      * rewrite E. now apply contains_cons.
Qed.

Lemma contains_lstrip_by (s : str) :
  contains sub s = true -> contains sub (lstrip_by p s) = true.
Proof.
  induction s as [|c s IH]; intros H; [assumption|].
  simpl. destruct (p c) eqn:Ec; [|assumption].
  simpl in H. apply orb_true_iff in H as [H | H]; [|now apply IH].
  destruct sub as [|x sub']; [congruence|]. simpl in H, kept.
  apply andb_true_iff in H as [E _]. apply Ascii.eqb_eq in E. subst.
  rewrite Ec in kept. discriminate.
Qed.

End ContainsStrip.

Lemma dashes_kept : forallb (fun c => negb (isspace c)) (lit "---") = true.
Proof. reflexivity. Qed.

Lemma dashes_nonempty : lit "---" <> [].
Proof. discriminate. Qed.

Lemma contains_dashes_strip (s : str) :
  contains (lit "---") s = true -> contains (lit "---") (strip s) = true.
Proof.
  intros H. unfold strip, rstrip, lstrip.
  apply contains_rstrip_by; [exact dashes_kept | exact dashes_nonempty |].
  apply contains_lstrip_by; [exact dashes_kept | exact dashes_nonempty |].
  assumption.
Qed.

(** What is found in a stripped string is found in the string. *)
Lemma contains_lstrip_by_inv (p : ascii -> bool) (sub s : str) :
  contains sub (lstrip_by p s) = true -> contains sub s = true.
Proof.
  induction s as [|c s IH]; simpl; [auto|].
  destruct (p c); [|auto]. intros H. rewrite (IH H). apply orb_true_r.
Qed.

Lemma startswith_rstrip_by_inv (p : ascii -> bool) (sub s : str) :
  startswith sub (rstrip_by p s) = true -> startswith sub s = true.
Proof.
  revert s; induction sub as [|x sub IH]; intros s; [reflexivity|].
  destruct s as [|y s]; [discriminate|].
  destruct (rstrip_by_cons p y s) as [E | E]; rewrite E; [discriminate|].
  simpl. intros H. apply andb_true_iff in H as [H1 H2].
  now rewrite H1, IH.
Qed.

Lemma contains_rstrip_by_inv (p : ascii -> bool) (sub s : str) :
  sub <> [] ->
  contains sub (rstrip_by p s) = true -> contains sub s = true.
Proof.
  intros Hn. induction s as [|c s IH]; [auto|].
  destruct (rstrip_by_cons p c s) as [E | E]; rewrite E.
  - destruct sub; [congruence | discriminate].
  - intros H.
    change (startswith sub (c :: rstrip_by p s)
            || contains sub (rstrip_by p s) = true) in H.
    apply orb_true_iff in H as [H | H].
    + rewrite <- E in H. apply startswith_rstrip_by_inv in H.
      simpl. now rewrite H.
    + apply contains_cons. now apply IH.
Qed.

Lemma contains_strip_inv (sub s : str) :
  sub <> [] -> contains sub (strip s) = true -> contains sub s = true.
Proof.
  intros Hn H. unfold strip, rstrip, lstrip in H.
  apply contains_rstrip_by_inv in H; [|assumption].
  now apply contains_lstrip_by_inv in H.
Qed.

Lemma endswith_snoc (sub s : str) (c : ascii) :
  endswith sub (s ++ [c]) = startswith (rev sub) (c :: rev s).
Proof. unfold endswith. now rewrite rev_unit. Qed.

Lemma endswith_one_snoc (x : ascii) (s : str) (c : ascii) :
  endswith [x] (s ++ [c]) = Ascii.eqb x c.
Proof. rewrite endswith_snoc. simpl. apply andb_true_r. Qed.

Lemma endswith_one (x : ascii) (s : str) :
  endswith [x] s = true <-> exists s', s = s' ++ [x].
Proof.
  split.
  - destruct (rev s) as [|c r] eqn:E.
    + apply (f_equal (@rev ascii)) in E. rewrite rev_involutive in E.
      subst. discriminate.
    + apply (f_equal (@rev ascii)) in E. rewrite rev_involutive in E.
      simpl in E. subst. rewrite endswith_one_snoc. intros H.
      apply Ascii.eqb_eq in H. subst. eauto.
  - intros (s' & ->). rewrite endswith_one_snoc. apply Ascii.eqb_refl.
Qed.

Lemma endswith_app (x : ascii) (a b : str) :
  endswith [x] b = true -> endswith [x] (a ++ b) = true.
Proof.
  intros H. apply endswith_one in H as (b' & ->).
  rewrite app_assoc. apply endswith_one. eauto.
Qed.

(** ** [split] and [join] *)

Lemma split_nonempty (c : ascii) (s : str) : split c s <> [].
Proof.
  destruct s as [|x s]; simpl; [discriminate|].
  destruct (Ascii.eqb x c); [discriminate|].
  destruct (split c s); discriminate.
Qed.

Lemma join_split (c : ascii) (s : str) : join [c] (split c s) = s.
Proof.
  induction s as [|x s IH]; simpl; [reflexivity|].
  destruct (Ascii.eqb x c) eqn:E.
  - apply Ascii.eqb_eq in E. subst.
    pose proof (split_nonempty c s) as Hn.
    destruct (split c s) as [|p ps] eqn:Es; [congruence|].
    change (join [c] ([] :: p :: ps)) with (c :: join [c] (p :: ps)).
    now rewrite IH.
  - pose proof (split_nonempty c s) as Hn.
    destruct (split c s) as [|p ps] eqn:Es; [congruence|].
    rewrite <- IH. destruct ps; reflexivity.
Qed.

Lemma split_free (c : ascii) (s : str) :
  ~ In c s -> split c s = [s].
Proof.
  induction s as [|x s IH]; simpl; [reflexivity|]. intros H.
  destruct (Ascii.eqb x c) eqn:E.
  - apply Ascii.eqb_eq in E. subst. tauto.
  - rewrite IH by tauto. reflexivity.
Qed.

Lemma split_app (c : ascii) (p s : str) :
  ~ In c p -> split c (p ++ c :: s) = p :: split c s.
Proof.
  induction p as [|x p IH]; simpl; intros H.
  - now rewrite Ascii.eqb_refl.
  - destruct (Ascii.eqb x c) eqn:E.
    + apply Ascii.eqb_eq in E. subst. tauto.
    + rewrite IH by tauto. reflexivity.
Qed.

Lemma split_join (c : ascii) (parts : list str) :
  parts <> [] -> Forall (fun p => ~ In c p) parts ->
  split c (join [c] parts) = parts.
Proof.
  induction parts as [|p ps IH]; intros Hn F; [congruence|].
  inversion F as [|p' ps' Hp Hps]; subst.
  destruct ps as [|p2 ps].
  - simpl. now apply split_free.
  - change (join [c] (p :: p2 :: ps)) with (p ++ c :: join [c] (p2 :: ps)).
    rewrite split_app by assumption. f_equal. apply IH; [discriminate|].
    assumption.
Qed.

Lemma split_parts_free (c : ascii) (s : str) :
  Forall (fun p => ~ In c p) (split c s).
Proof.
  induction s as [|x s IH]; simpl.
  - constructor; [tauto | constructor].
  - destruct (Ascii.eqb x c) eqn:E.
    + constructor; [tauto | assumption].
    + destruct (split c s) as [|p ps]; [repeat constructor|].
      * simpl. intros [-> | []]. now rewrite Ascii.eqb_refl in E.
      * inversion IH; subst. constructor; [|assumption].
        simpl. intros [-> | H]; [|tauto].
        now rewrite Ascii.eqb_refl in E.
Qed.

Lemma split_parts_incl (c : ascii) (s : str) :
  Forall (fun p => incl p s) (split c s).
Proof.
  induction s as [|x s IH]; simpl.
  - constructor; [apply incl_refl | constructor].
  - pose proof (split_nonempty c s) as Hn. destruct (Ascii.eqb x c).
    + constructor; [intros y [] |].
      eapply Forall_impl; [|exact IH]. intros p Hp. apply incl_tl. exact Hp.
    + destruct (split c s) as [|p ps]; [congruence|].
      inversion IH; subst. constructor.
      * intros y [-> | Hy]; [now left | right; auto].
      * eapply Forall_impl; [|eassumption].
        intros q Hq. apply incl_tl. exact Hq.
Qed.

Lemma split_length (c : ascii) (s : str) :
  length (split c s) = S (count c s).
Proof.
  induction s as [|x s IH]; simpl; [reflexivity|].
  destruct (Ascii.eqb x c); simpl; [now rewrite IH|].
  destruct (split c s); simpl in *; lia.
Qed.

Lemma join_In (sep : str) (parts : list str) (c : ascii) :
  In c (join sep parts) ->
  In c sep \/ exists p, In p parts /\ In c p.
Proof.
  induction parts as [|p ps IH]; [simpl; tauto|].
  destruct ps as [|p2 ps].
  - simpl. intros H. right. exists p. auto.
  - change (join sep (p :: p2 :: ps)) with (p ++ sep ++ join sep (p2 :: ps)).
    intros H. apply in_app_or in H as [H | H].
    + right. exists p. split; [now left | assumption].
    + apply in_app_or in H as [H | H]; [now left|].
      destruct (IH H) as [H' | (q & Hq & Hc)]; [now left|].
      right. exists q. split; [now right | assumption].
Qed.

Lemma join_snoc (sep : str) (parts : list str) (last : str) :
  parts <> [] ->
  join sep (parts ++ [last]) = join sep parts ++ sep ++ last.
Proof.
  induction parts as [|p ps IH]; intros Hn; [congruence|].
  destruct ps as [|p2 ps]; [reflexivity|].
  change (join sep ((p :: p2 :: ps) ++ [last]))
    with (p ++ sep ++ join sep ((p2 :: ps) ++ [last])).
  rewrite IH by discriminate.
  change (join sep (p :: p2 :: ps)) with (p ++ sep ++ join sep (p2 :: ps)).
  now rewrite <- !app_assoc.
Qed.

Lemma join_cons (sep p : str) (ps : list str) :
  ps <> [] -> join sep (p :: ps) = p ++ sep ++ join sep ps.
Proof. destruct ps; [congruence | reflexivity]. Qed.

Lemma count_join_free (c : ascii) (parts : list str) :
  Forall (fun p => ~ In c p) parts ->
  count c (join [c] parts) = length parts - 1.
Proof.
  induction parts as [|p ps IH]; intros F; [reflexivity|].
  inversion F as [|p' ps' Hp Hps]; subst.
  destruct ps as [|p2 ps].
  - simpl. now apply count_zero.
  - change (join [c] (p :: p2 :: ps)) with (p ++ c :: join [c] (p2 :: ps)).
    rewrite count_app, (count_zero _ _ Hp). cbn [count].
    rewrite Ascii.eqb_refl, (IH Hps). cbn [length]. lia.
Qed.

Lemma contains_join (sub sep : str) (parts : list str) (p : str) :
  In p parts -> contains sub p = true ->
  contains sub (join sep parts) = true.
Proof.
  induction parts as [|q ps IH]; [intros []|].
  intros Hin H. destruct ps as [|p2 ps].
  - destruct Hin as [-> | []]. assumption.
  - change (join sep (q :: p2 :: ps)) with (q ++ sep ++ join sep (p2 :: ps)).
    destruct Hin as [-> | Hin].
    + now apply contains_app_l.
    + apply contains_app_r, contains_app_r. now apply IH.
Qed.

(** What is found in [s] and holds no [c] is found in a part of [s]. *)
Lemma startswith_split_hd (c : ascii) (sub s : str) :
  ~ In c sub -> startswith sub s = true ->
  startswith sub (hd [] (split c s)) = true.
Proof.
  revert s; induction sub as [|x sub IH]; intros s Hc; [reflexivity|].
  destruct s as [|y s]; [discriminate|]. simpl.
  intros H. apply andb_true_iff in H as [E H].
  apply Ascii.eqb_eq in E. subst y.
  destruct (Ascii.eqb x c) eqn:Ex.
  - apply Ascii.eqb_eq in Ex. subst. simpl in Hc. tauto.
  - specialize (IH s (fun Hi => Hc (or_intror Hi)) H).
    pose proof (split_nonempty c s) as Hn.
    destruct (split c s) as [|p ps]; [congruence|]. simpl in *.
    now rewrite Ascii.eqb_refl, IH.
Qed.

Lemma contains_split (c : ascii) (sub s : str) :
  ~ In c sub -> contains sub s = true ->
  exists p, In p (split c s) /\ contains sub p = true.
Proof.
  intros Hc. induction s as [|x s IH]; intros H.
  - exists []. simpl. auto.
  - simpl in H. apply orb_true_iff in H as [H | H].
    + apply (startswith_split_hd c) in H; [|assumption].
      pose proof (split_nonempty c (x :: s)) as Hn.
      destruct (split c (x :: s)) as [|p ps]; [congruence|].
      exists p. split; [now left|]. simpl in H.
      destruct p; simpl; rewrite H; reflexivity.
    + destruct (IH H) as (p & Hp & Hs). simpl.
      destruct (Ascii.eqb x c).
      * exists p. split; [now right | assumption].
      * destruct (split c s) as [|p0 ps]; [destruct Hp|].
        destruct Hp as [-> | Hp].
        -- exists (x :: p). split; [now left | now apply contains_cons].
        -- exists p. split; [now right | assumption].
Qed.

(** ** [re.sub(r'\s+', ' ', s)] and [replace] *)

Lemma collapse_idem (s : str) : forall b b',
    (b' = true -> b = true) ->
    collapse_ws_from b' (collapse_ws_from b s) = collapse_ws_from b s.
Proof.
  induction s as [|c s IH]; intros b b' Hb; simpl; [reflexivity|].
  destruct (isspace c) eqn:Ec.
  - destruct b.
    + apply IH. auto.
    + destruct b'; [now specialize (Hb eq_refl)|].
      simpl. f_equal. apply IH. auto.
  - simpl. rewrite Ec. f_equal. apply IH. discriminate.
Qed.

Lemma collapse_blank_is_space (s : str) (c : ascii) : forall b,
    In c (collapse_ws_from b s) -> isspace c = true -> c = space.
Proof.
  induction s as [|x s IH]; intros b; simpl; [tauto|].
  destruct (isspace x) eqn:Ex.
  - destruct b; [apply IH|]. simpl. intros [<- | H]; [reflexivity|].
    now apply (IH true).
  - simpl. intros [<- | H]; [congruence | now apply (IH false)].
Qed.

Lemma collapse_incl (s : str) (c : ascii) : forall b,
    In c (collapse_ws_from b s) -> c = space \/ In c s.
Proof.
  induction s as [|x s IH]; intros b; simpl; [tauto|].
  destruct (isspace x).
  - destruct b; simpl; intros H.
    + destruct (IH _ H); auto.
    + destruct H as [<- | H]; [auto|]. destruct (IH _ H); auto.
  - simpl. intros [<- | H]; [auto|]. destruct (IH _ H); auto.
Qed.

Lemma replace_free (c : ascii) (r s : str) : ~ In c s -> replace c r s = s.
Proof.
  unfold replace. induction s as [|x s IH]; simpl; [reflexivity|].
  intros H. destruct (Ascii.eqb x c) eqn:E.
  - apply Ascii.eqb_eq in E. subst. tauto.
  - simpl. rewrite IH by tauto. reflexivity.
Qed.

Lemma startswith_collapse (sub s : str) : forall b,
    forallb (fun c => negb (isspace c)) sub = true ->
    startswith sub s = true ->
    startswith sub (collapse_ws_from b s) = true.
Proof.
  revert s; induction sub as [|x sub IH]; intros s b Hk; [reflexivity|].
  destruct s as [|y s]; [discriminate|]. simpl in Hk |- *.
  apply andb_true_iff in Hk as [Hx Hk]. apply negb_true_iff in Hx.
  intros H. apply andb_true_iff in H as [E H].
  apply Ascii.eqb_eq in E. subst y. rewrite Hx. simpl.
  rewrite Ascii.eqb_refl. now apply IH.
Qed.

Lemma contains_collapse (sub s : str) : forall b,
    forallb (fun c => negb (isspace c)) sub = true ->
    contains sub s = true ->
    contains sub (collapse_ws_from b s) = true.
Proof.
  induction s as [|c s IH]; intros b Hk H; [assumption|].
  simpl in H. apply orb_true_iff in H as [H | H].
  - apply (startswith_collapse _ _ b Hk) in H.
    destruct (collapse_ws_from b (c :: s)); simpl in *; now rewrite H.
  - simpl. destruct (isspace c).
    + destruct b; [now apply IH|]. apply contains_cons. now apply IH.
    + apply contains_cons. now apply IH.
Qed.

(* ===================================================================== *)
(** * Properties of the table-row repair pass *)
(* ===================================================================== *)

(** ** Cleaning a cell *)

Lemma collapse_true_nil (s : str) :
  collapse_ws_from true s = [] -> forallb isspace s = true.
Proof.
  induction s as [|c s IH]; simpl; [reflexivity|].
  destruct (isspace c); [assumption | discriminate].
Qed.

Lemma rstrip_collapse (s : str) : forall b,
    rstrip s = s -> rstrip (collapse_ws_from b s) = collapse_ws_from b s.
Proof.
  unfold rstrip. induction s as [|c s IH]; intros b H; [reflexivity|].
  destruct (rstrip_by_cons isspace c s) as [E | E]; rewrite E in H;
    [discriminate|].
  inversion H as [Hs]. rewrite Hs.
  assert (Hkeep : forall x Z,
             rstrip_by isspace Z = Z -> (Z = [] -> isspace x = false) ->
             rstrip_by isspace (x :: Z) = x :: Z).
  { intros x Z HZ Hx. simpl. rewrite HZ. destruct Z; [|reflexivity].
    now rewrite Hx. }
  simpl. destruct (isspace c) eqn:Ec.
  - assert (Hne : collapse_ws_from true s <> []).
    { intros Hnil. apply collapse_true_nil in Hnil.
      apply rstrip_by_all in Hnil. rewrite Hnil in Hs. subst s.
      simpl in E. rewrite Ec in E. discriminate. }
    destruct b; [now apply IH|].
    apply Hkeep; [now apply IH | congruence].
  - apply Hkeep; [now apply IH | auto].
Qed.

Lemma strip_fixed (s : str) : strip s = s <-> lstrip s = s /\ rstrip s = s.
Proof.
  split.
  - intros H. assert (Hl : lstrip s = s).
    { destruct (lstrip s) as [|c u] eqn:E.
      - rewrite (strip_nil _ E) in H. now subst.
      - destruct (lstrip_by_starts _ _ _ _ E) as (w & Hw & _ & Hc).
        rewrite (strip_cons _ _ _ E) in H. rewrite <- H in E.
        unfold lstrip in E. simpl in E. rewrite Hc in E.
        inversion E as [Hu]. congruence. }
    split; [assumption|]. unfold strip in H. now rewrite Hl in H.
  - intros [Hl Hr]. unfold strip. now rewrite Hl.
Qed.

Lemma strip_collapse (s : str) :
  strip s = s -> strip (collapse_ws s) = collapse_ws s.
Proof.
  intros H. apply strip_fixed in H as [Hl Hr]. apply strip_fixed. split.
  - unfold collapse_ws, lstrip in *. destruct s as [|c s]; [reflexivity|].
    simpl in Hl |- *. destruct (isspace c) eqn:Ec.
    + exfalso. assert (Hlen : length (lstrip_by isspace s) <= length s).
      { clear. induction s as [|x s IH]; simpl; [lia|].
        destruct (isspace x); simpl; lia. }
      rewrite Hl in Hlen. simpl in Hlen. lia.
    + simpl. now rewrite Ec.
  - now apply rstrip_collapse.
Qed.

Lemma collapse_free (s : str) (c : ascii) :
  isspace c = true -> c <> space -> ~ In c (collapse_ws s).
Proof.
  intros Hc Hn H. apply Hn.
  exact (collapse_blank_is_space _ _ _ H Hc).
Qed.

(** A cleaned cell is the stripped cell, its blanks collapsed, between two
    spaces. *)
Lemma clean_cell_eq (part : str) :
  clean_cell part = space :: collapse_ws (strip part) ++ [space].
Proof.
  unfold clean_cell. cbn zeta.
  rewrite (replace_free nl), (replace_free cr); [reflexivity | |];
    apply collapse_free; (reflexivity || discriminate).
Qed.

Lemma strip_between_spaces (s : str) :
  strip s = s -> strip (space :: s ++ [space]) = s.
Proof.
  intros H. apply strip_fixed in H as [Hl Hr].
  unfold strip, lstrip, rstrip in *. simpl lstrip_by.
  change (isspace space) with true. cbn iota.
  destruct s as [|c s].
  - reflexivity.
  - simpl in Hl. destruct (isspace c) eqn:Ec.
    + exfalso. assert (Hlen : length (lstrip_by isspace s) <= length s).
      { clear. induction s as [|x s IH]; simpl; [lia|].
        destruct (isspace x); simpl; lia. }
      rewrite Hl in Hlen. simpl in Hlen. lia.
    + change ((c :: s) ++ [space]) with (c :: s ++ [space]).
      simpl lstrip_by. rewrite Ec.
      change (c :: s ++ [space]) with ((c :: s) ++ [space]).
      rewrite rstrip_by_snoc. change (isspace space) with true. cbn iota.
      exact Hr.
Qed.

Lemma clean_cell_idem (part : str) :
  clean_cell (clean_cell part) = clean_cell part.
Proof.
  rewrite !clean_cell_eq.
  assert (H : strip (collapse_ws (strip part)) = collapse_ws (strip part))
    by (apply strip_collapse, strip_idem).
  rewrite (strip_between_spaces _ H).
  unfold collapse_ws. rewrite collapse_idem; [reflexivity | auto].
Qed.

Lemma clean_cell_In (part : str) (c : ascii) :
  In c (clean_cell part) -> c = space \/ In c part.
Proof.
  rewrite clean_cell_eq. intros [<- | H]; [now left|].
  apply in_app_or in H as [H | [<- | []]]; [|now left].
  apply collapse_incl in H as [-> | H]; [now left|].
  right. now apply strip_incl.
Qed.

Lemma clean_cell_no_nl (part : str) : ~ In nl (clean_cell part).
Proof.
  rewrite clean_cell_eq. intros [H | H]; [discriminate|].
  apply in_app_or in H as [H | [H | []]]; [|discriminate].
  revert H. apply collapse_free; (reflexivity || discriminate).
Qed.

Lemma clean_cell_dashes (part : str) :
  contains (lit "---") part = true ->
  contains (lit "---") (clean_cell part) = true.
Proof.
  intros H. rewrite clean_cell_eq. apply contains_cons, contains_app_l.
  apply contains_collapse; [reflexivity|].
  now apply contains_dashes_strip.
Qed.

(** ** Cleaning a row *)

Lemma clean_parts_length (n : nat) (parts : list str) : forall i,
    length (clean_parts n i parts) = length parts.
Proof.
  induction parts as [|p ps IH]; intros i; simpl; [reflexivity|].
  now rewrite IH.
Qed.

Lemma clean_parts_tail (n : nat) (mids : list str) (last : str) : forall i,
    0 < i -> i + length mids = n - 1 ->
    clean_parts n i (mids ++ [last]) = map clean_cell mids ++ [last].
Proof.
  induction mids as [|m mids IH]; intros i Hi Hn; simpl in *.
  - replace (i =? n - 1) with true by (symmetry; apply Nat.eqb_eq; lia).
    now rewrite orb_true_r.
  - replace (i =? 0) with false by (symmetry; apply Nat.eqb_neq; lia).
    replace (i =? n - 1) with false by (symmetry; apply Nat.eqb_neq; lia).
    simpl. f_equal. apply IH; lia.
Qed.

(** The parts of a row with a pipe: a first one, the cells, a last one. *)
Lemma split_shape (row : str) :
  has_char pipe row = true ->
  exists first mids last, split pipe row = first :: mids ++ [last].
Proof.
  intros H. pose proof (split_length pipe row) as Hl.
  apply has_char_In, count_positive in H.
  destruct (split pipe row) as [|first rest]; [discriminate|].
  destruct (exists_last (l := rest)) as (mids & last & ->).
  - intros ->. simpl in Hl. lia.
  - eauto.
Qed.

Lemma truthy_strip_pipe (row : str) :
  has_char pipe row = true -> truthy (strip row) = true.
Proof.
  intros H. rewrite <- has_pipe_strip in H.
  destruct (strip row); [discriminate | reflexivity].
Qed.

Lemma clean_row_shape (row : str) (first : str) (mids : list str)
    (last : str) :
  has_char pipe row = true ->
  split pipe row = first :: mids ++ [last] ->
  _clean_table_row row
  = join [pipe] (first :: map clean_cell mids ++ [last]).
Proof.
  intros H Hs. unfold _clean_table_row.
  rewrite (truthy_strip_pipe _ H), H. cbn [negb orb]. cbn zeta.
  rewrite Hs. cbn [clean_parts Nat.eqb orb]. do 2 f_equal.
  apply clean_parts_tail; [lia|].
  cbn [length]. rewrite length_app. simpl. lia.
Qed.

Lemma clean_row_plain (row : str) :
  has_char pipe row = false -> _clean_table_row row = row.
Proof.
  intros H. unfold _clean_table_row. rewrite H.
  now rewrite orb_true_r.
Qed.

Lemma cleaned_parts_free (first : str) (mids : list str) (last : str) :
  Forall (fun p => ~ In pipe p) (first :: mids ++ [last]) ->
  Forall (fun p => ~ In pipe p) (first :: map clean_cell mids ++ [last]).
Proof.
  intros F. inversion F as [|x l Hf Hr]; subst. constructor; [assumption|].
  apply Forall_app in Hr as [Hm Hl]. apply Forall_app. split; [|assumption].
  apply Forall_map. eapply Forall_impl; [|exact Hm].
  intros p Hp H. apply clean_cell_In in H as [H | H];
    [discriminate | exact (Hp H)].
Qed.

Lemma clean_row_count (row : str) :
  count pipe (_clean_table_row row) = count pipe row.
Proof.
  destruct (has_char pipe row) eqn:H; [|now rewrite clean_row_plain].
  destruct (split_shape _ H) as (first & mids & last & Hs).
  rewrite (clean_row_shape _ _ _ _ H Hs).
  pose proof (split_parts_free pipe row) as F. rewrite Hs in F.
  rewrite count_join_free by now apply cleaned_parts_free.
  transitivity (count pipe (join [pipe] (split pipe row)));
    [|now rewrite join_split].
  rewrite Hs, count_join_free by assumption.
  cbn [length]. now rewrite !length_app, length_map.
Qed.

Lemma clean_row_has_pipe (row : str) :
  has_char pipe (_clean_table_row row) = has_char pipe row.
Proof.
  destruct (has_char pipe row) eqn:H; [|now rewrite clean_row_plain].
  apply count_has_char. rewrite clean_row_count.
  now apply count_positive, has_char_In.
Qed.

Lemma clean_row_idem (row : str) :
  _clean_table_row (_clean_table_row row) = _clean_table_row row.
Proof.
  destruct (has_char pipe row) eqn:H;
    [|now rewrite !(clean_row_plain _ H)].
  destruct (split_shape _ H) as (first & mids & last & Hs).
  pose proof (split_parts_free pipe row) as F. rewrite Hs in F.
  rewrite (clean_row_shape _ _ _ _ H Hs).
  assert (H' : has_char pipe
                 (join [pipe] (first :: map clean_cell mids ++ [last]))
               = true).
  { rewrite <- (clean_row_shape _ _ _ _ H Hs). now rewrite clean_row_has_pipe. }
  rewrite (clean_row_shape _ first (map clean_cell mids) last H').
  - do 3 f_equal. rewrite map_map. apply map_ext. apply clean_cell_idem.
  - apply split_join; [discriminate|]. now apply cleaned_parts_free.
Qed.

(** A row is recognised by its first and its last part. *)
Lemma starts_with_pipe (first rest : str) :
  ~ In pipe first ->
  startswith [pipe] (strip (first ++ pipe :: rest)) = forallb isspace first.
Proof.
  intros Hf. destruct (forallb isspace first) eqn:Ea.
  - assert (El : lstrip (first ++ pipe :: rest) = pipe :: rest).
    { unfold lstrip. rewrite lstrip_by_all_app by assumption. reflexivity. }
    rewrite (strip_cons _ _ _ El). reflexivity.
  - assert (Hex : exists c u, lstrip first = c :: u /\ c <> pipe).
    { clear rest. induction first as [|x first IH]; [discriminate|].
      simpl in Ea. unfold lstrip. simpl. destruct (isspace x) eqn:Ex.
      - apply IH; [|assumption]. intros H. apply Hf. now right.
      - exists x, first. split; [reflexivity|]. intros ->. apply Hf. now left. }
    destruct Hex as (c & u & E & Hc).
    assert (El : lstrip (first ++ pipe :: rest) = c :: u ++ pipe :: rest).
    { unfold lstrip in *. clear Ea Hf. revert E.
      induction first as [|x first IH]; simpl; [discriminate|].
      destruct (isspace x); [assumption|]. intros E. inversion E; subst.
      reflexivity. }
    rewrite (strip_cons _ _ _ El). cbn [startswith].
    destruct (Ascii.eqb pipe c) eqn:Ec; [|reflexivity].
    apply Ascii.eqb_eq in Ec. congruence.
Qed.

Lemma lstrip_keeps_tail (s : str) (c : ascii) (rest : str) :
  isspace c = false ->
  exists s', lstrip (s ++ c :: rest) = s' ++ c :: rest.
Proof.
  intros Hc. unfold lstrip. induction s as [|x s IH]; simpl.
  - rewrite Hc. exists []. reflexivity.
  - destruct (isspace x); [assumption|]. exists (x :: s). reflexivity.
Qed.

Lemma ends_with_pipe (init last : str) :
  ~ In pipe last ->
  endswith [pipe] (strip (init ++ pipe :: last)) = forallb isspace last.
Proof.
  intros Hl. unfold strip.
  destruct (lstrip_keeps_tail init pipe last isspace_pipe) as (s' & ->).
  unfold rstrip.
  change (s' ++ pipe :: last) with (s' ++ [pipe] ++ last).
  rewrite app_assoc, rstrip_by_app.
  destruct (forallb isspace last) eqn:Ea.
  - rewrite (rstrip_by_all _ _ Ea), rstrip_by_snoc, isspace_pipe.
    apply endswith_one. eauto.
  - destruct (rstrip_by isspace last) as [|c r] eqn:Er.
    + apply rstrip_by_nil_all in Er. congruence.
    + destruct (exists_last (l := c :: r)) as (r' & z & Ez); [discriminate|].
      rewrite Ez, app_assoc, endswith_one_snoc.
      destruct (Ascii.eqb pipe z) eqn:E; [|reflexivity].
      apply Ascii.eqb_eq in E. subst z. exfalso. apply Hl.
      apply (rstrip_by_incl isspace). rewrite Er, Ez.
      apply in_or_app. right. now left.
Qed.

Lemma clean_row_is_table_row (row : str) :
  is_table_row (_clean_table_row row) = is_table_row row.
Proof.
  unfold is_table_row. rewrite clean_row_has_pipe.
  destruct (has_char pipe row) eqn:H; [|reflexivity]. cbn [andb].
  destruct (split_shape _ H) as (first & mids & last & Hs).
  pose proof (split_parts_free pipe row) as F. rewrite Hs in F.
  pose proof (cleaned_parts_free _ _ _ F) as F'.
  rewrite (clean_row_shape _ _ _ _ H Hs).
  replace (strip row) with (strip (join [pipe] (first :: mids ++ [last])))
    by (now rewrite <- Hs, join_split).
  inversion F as [|x l Hf Hr]; subst. apply Forall_app in Hr as [_ Hl].
  inversion Hl as [|y l' Hlast _]; subst.
  f_equal.
  - rewrite !join_cons by (now destruct mids).
    cbn [app]. now rewrite !starts_with_pipe.
  - change (first :: map clean_cell mids ++ [last])
      with ((first :: map clean_cell mids) ++ [last]).
    change (first :: mids ++ [last]) with ((first :: mids) ++ [last]).
    rewrite !join_snoc by discriminate. cbn [app].
    now rewrite !ends_with_pipe.
Qed.

Lemma clean_row_dashes (row : str) :
  contains (lit "---") row = true ->
  contains (lit "---") (_clean_table_row row) = true.
Proof.
  intros Hd. destruct (has_char pipe row) eqn:H;
    [|now rewrite clean_row_plain].
  destruct (split_shape _ H) as (first & mids & last & Hs).
  rewrite (clean_row_shape _ _ _ _ H Hs).
  destruct (contains_split pipe (lit "---") row) as (p & Hp & Hc);
    [intros [E | [E | [E | []]]]; discriminate | assumption |].
  rewrite Hs in Hp. destruct Hp as [<- | Hp].
  - apply (contains_join _ _ _ first); [now left | assumption].
  - apply in_app_or in Hp as [Hp | [<- | []]].
    + apply (contains_join _ _ _ (clean_cell p)).
      * right. apply in_or_app. left. now apply in_map.
      * now apply clean_cell_dashes.
    + apply (contains_join _ _ _ last); [|assumption].
      right. apply in_or_app. right. now left.
Qed.

Lemma clean_row_no_nl (row : str) :
  ~ In nl row -> ~ In nl (_clean_table_row row).
Proof.
  intros Hn. destruct (has_char pipe row) eqn:H;
    [|now rewrite clean_row_plain].
  destruct (split_shape _ H) as (first & mids & last & Hs).
  rewrite (clean_row_shape _ _ _ _ H Hs).
  pose proof (split_parts_incl pipe row) as Hi. rewrite Hs in Hi.
  intros Hin. apply join_In in Hin as [[E | []] | (p & Hp & Hc)];
    [discriminate|].
  rewrite Forall_forall in Hi. destruct Hp as [<- | Hp].
  - apply Hn. apply (Hi first); [now left | assumption].
  - apply in_app_or in Hp as [Hp | [<- | []]].
    + apply in_map_iff in Hp as (m & <- & _).
      now apply clean_cell_no_nl in Hc.
    + apply Hn. apply (Hi last); [|assumption].
      right. apply in_or_app. right. now left.
Qed.

(** ** The inner loop *)

Lemma stops_false (table_row next_line : str) :
  stops_absorbing table_row next_line = false ->
  has_char pipe next_line = true
  /\ contains (lit "---") next_line = false.
Proof.
  unfold stops_absorbing.
  destruct (has_char pipe next_line); simpl.
  - destruct (contains (lit "---") next_line); [discriminate | auto].
  - rewrite orb_true_r. discriminate.
Qed.

Lemma stops_true (table_row next_line : str) :
  stops_absorbing table_row next_line = true <->
  has_char pipe next_line && contains (lit "---") next_line = true
  \/ has_char pipe next_line && startswith [pipe] next_line
     && endswith [pipe] next_line
     && (count pipe table_row <=? count pipe next_line) = true
  \/ negb (truthy next_line) || negb (has_char pipe next_line) = true.
Proof.
  unfold stops_absorbing.
  destruct (has_char pipe next_line && contains (lit "---") next_line);
    [tauto|].
  destruct (has_char pipe next_line && startswith [pipe] next_line
            && endswith [pipe] next_line
            && (count pipe table_row <=? count pipe next_line)); [tauto|].
  destruct (negb (truthy next_line) || negb (has_char pipe next_line));
    intuition discriminate.
Qed.

Lemma stops_same_count (t t' next_line : str) :
  count pipe t = count pipe t' ->
  stops_absorbing t next_line = stops_absorbing t' next_line.
Proof. unfold stops_absorbing. now intros ->. Qed.

(** What the inner loop leaves: the lines it has absorbed, and a first line
    left that stops it. *)
Lemma absorb_spec (rest : list str) : forall table_row,
    exists absorbed,
      rest = absorbed ++ snd (absorb table_row rest)
      /\ Forall absorbable absorbed
      /\ forall x, hd_error (snd (absorb table_row rest)) = Some x ->
                   stops_absorbing (fst (absorb table_row rest)) (strip x)
                   = true.
Proof.
  induction rest as [|l rest IH]; intros table_row; simpl.
  - exists []. repeat split; [constructor | discriminate].
  - destruct (stops_absorbing table_row (strip l)) eqn:E.
    + exists []. repeat split; [constructor|]. simpl.
      intros x Hx. inversion Hx; subst. exact E.
    + destruct (IH (merge_continuation table_row (strip l)))
        as (absorbed & Hr & Ha & Hs).
      exists (l :: absorbed). repeat split.
      * simpl. now f_equal.
      * constructor; [|assumption]. now apply stops_false in E.
      * assumption.
Qed.

Lemma absorb_suffix (P : str -> Prop) (rest : list str) (table_row : str) :
  Forall P rest -> Forall P (snd (absorb table_row rest)).
Proof.
  destruct (absorb_spec rest table_row) as (absorbed & Hr & _).
  intros F. rewrite Hr in F. now apply Forall_app in F as [_ F].
Qed.

Lemma absorb_shorter (rest : list str) (table_row : str) :
  length (snd (absorb table_row rest)) <= length rest.
Proof.
  destruct (absorb_spec rest table_row) as (absorbed & Hr & _).
  rewrite Hr at 2. rewrite length_app. lia.
Qed.

(** ** Merging a continuation line *)

Lemma merge_shape (table_row next_line : str) :
  truthy (strip next_line) = true ->
  exists t,
    merge_continuation table_row next_line = stem table_row ++ space :: t
    /\ endswith [pipe] (merge_continuation table_row next_line) = true.
Proof.
  intros H. unfold merge_continuation. cbn zeta. rewrite H. fold (stem table_row).
  destruct (endswith [pipe] (stem table_row ++ [space] ++ strip next_line))
    eqn:E; cbn [negb].
  - exists (strip next_line). split; [reflexivity | assumption].
  - exists (strip next_line ++ lit " |"). split.
    + now rewrite <- !app_assoc.
    + now apply endswith_app.
Qed.

Lemma stem_stable (line t : str) :
  stem (stem line ++ space :: t) = stem line
  \/ exists r, stem (stem line ++ space :: t) = stem line ++ space :: r.
Proof.
  assert (E0 : stem (stem line ++ space :: t)
               = match rstrip_by isspace
                         (space :: rstrip_by (Ascii.eqb pipe) t) with
                 | [] => stem line
                 | r => stem line ++ r
                 end).
  { unfold stem at 1, rstrip_char. rewrite rstrip_by_app.
    rewrite (rstrip_by_keep _ space t eqb_pipe_space).
    unfold rstrip. rewrite rstrip_by_app.
    destruct (rstrip_by isspace (space :: rstrip_by (Ascii.eqb pipe) t));
      [|reflexivity].
    unfold stem, rstrip. apply rstrip_by_idem. }
  rewrite E0.
  destruct (rstrip_by_cons isspace space (rstrip_by (Ascii.eqb pipe) t))
    as [E | E]; rewrite E; [now left | right; eauto].
Qed.

Lemma merge_merged_from (line m next_line : str) :
  truthy (strip next_line) = true ->
  merged_from line m ->
  merged_from line (merge_continuation m next_line).
Proof.
  intros Hn Hm. right.
  destruct (merge_shape m next_line Hn) as (t & -> & He).
  destruct Hm as [-> | (t0 & -> & _)]; [eauto|].
  destruct (stem_stable line t0) as [E | (r & E)]; rewrite E in *.
  - eauto.
  - exists (r ++ space :: t). split; [|assumption].
    now rewrite <- app_assoc.
Qed.

Lemma absorbable_truthy (l : str) :
  has_char pipe (strip l) = true -> truthy (strip (strip l)) = true.
Proof.
  intros H. rewrite strip_idem. destruct (strip l); [discriminate | reflexivity].
Qed.

Lemma absorb_merged_from (line : str) (rest : list str) : forall m,
    merged_from line m -> merged_from line (fst (absorb m rest)).
Proof.
  induction rest as [|l rest IH]; intros m Hm; simpl; [assumption|].
  destruct (stops_absorbing m (strip l)) eqn:E; [assumption|].
  apply IH, merge_merged_from; [|assumption].
  apply absorbable_truthy. now apply stops_false in E.
Qed.

Lemma absorb_no_nl (rest : list str) : forall m,
    ~ In nl m -> Forall (fun l => ~ In nl l) rest ->
    ~ In nl (fst (absorb m rest)).
Proof.
  induction rest as [|l rest IH]; intros m Hm F; simpl; [assumption|].
  inversion F as [|x r Hl Hr]; subst.
  destruct (stops_absorbing m (strip l)); [assumption|].
  apply IH; [|assumption]. unfold merge_continuation. cbn zeta.
  destruct (truthy (strip (strip l))); [|assumption].
  assert (Hx : ~ In nl (rstrip (rstrip_char pipe m) ++ [space]
                        ++ strip (strip l))).
  { intros H. apply in_app_or in H as [H | H].
    - apply rstrip_by_incl, rstrip_by_incl in H. contradiction.
    - destruct H as [H | H]; [discriminate|].
      apply strip_incl, strip_incl in H. contradiction. }
  destruct (negb _); [|assumption].
  intros H. apply in_app_or in H as [H | H]; [contradiction|].
  destruct H as [H | [H | []]]; discriminate.
Qed.

Lemma absorb_has_pipe (rest : list str) : forall m,
    has_char pipe m = true -> has_char pipe (fst (absorb m rest)) = true.
Proof.
  induction rest as [|l rest IH]; intros m Hm; simpl; [assumption|].
  destruct (stops_absorbing m (strip l)) eqn:E; [assumption|].
  apply IH. apply stops_false in E as [E _].
  destruct (merge_shape m (strip l) (absorbable_truthy _ E)) as (t & _ & He).
  apply endswith_one in He as (s' & ->).
  apply has_char_In, in_or_app. right. now left.
Qed.

(** ** Rows that end well *)

Lemma all_pipes_repeat (s : str) :
  forallb (Ascii.eqb pipe) s = true -> s = repeat pipe (length s).
Proof.
  induction s as [|c s IH]; cbn [forallb length repeat]; [reflexivity|].
  intros H. apply andb_true_iff in H as [Hc Hs]. apply Ascii.eqb_eq in Hc.
  subst c. f_equal. now apply IH.
Qed.

Lemma blanks_no_pipe (w : str) : forallb isspace w = true -> ~ In pipe w.
Proof.
  intros H Hin. rewrite forallb_forall in H. specialize (H _ Hin).
  discriminate.
Qed.

Lemma row_starts (line : str) :
  is_table_row line = true ->
  exists w u, line = w ++ pipe :: u /\ forallb isspace w = true.
Proof.
  unfold is_table_row. intros H. apply andb_true_iff in H as [H _].
  apply andb_true_iff in H as [_ H].
  destruct (lstrip line) as [|c u] eqn:E.
  - rewrite (strip_nil _ E) in H. discriminate.
  - rewrite (strip_cons _ _ _ E) in H. cbn [startswith] in H.
    rewrite andb_true_r in H. apply Ascii.eqb_eq in H. subst c.
    destruct (lstrip_by_starts _ _ _ _ E) as (w & -> & Hw & _). eauto.
Qed.

Lemma ends_in_two_pipes (w u : str) :
  forallb (Ascii.eqb pipe) (pipe :: u) = true -> u <> [] ->
  endswith (lit "||") (w ++ pipe :: u) = true.
Proof.
  intros H Hu. apply all_pipes_repeat in H. rewrite H.
  destruct u as [|c u]; [congruence|]. cbn [length].
  replace (S (S (length u))) with (length u + 2) by lia.
  rewrite repeat_app. unfold endswith.
  rewrite !rev_app_distr. reflexivity.
Qed.

Lemma stem_of_row (line : str) :
  is_table_row line = true -> row_ends_well line = true ->
  exists w u, stem line = w ++ pipe :: u /\ forallb isspace w = true.
Proof.
  intros Hr Hg. unfold row_ends_well in Hg. rewrite Hr in Hg.
  cbn [negb orb] in Hg. apply andb_true_iff in Hg as [He Hc].
  apply negb_true_iff in He. apply Nat.leb_le in Hc.
  destruct (row_starts _ Hr) as (w & u & -> & Hw).
  exists w. unfold stem, rstrip_char. rewrite rstrip_by_app.
  destruct (rstrip_by_cons (Ascii.eqb pipe) pipe u) as [E | E]; rewrite E.
  - exfalso. apply rstrip_by_nil_all in E.
    destruct u as [|c u].
    + rewrite count_app, (count_zero _ _ (blanks_no_pipe _ Hw)) in Hc.
      simpl in Hc. lia.
    + rewrite ends_in_two_pipes in He; [discriminate | assumption |].
      discriminate.
  - unfold rstrip. rewrite rstrip_by_app.
    rewrite (rstrip_by_keep _ pipe _ isspace_pipe). eauto.
Qed.

Lemma rstrip_char_count (line : str) :
  endswith (lit "||") line = false ->
  count pipe line <= count pipe (rstrip_char pipe line) + 1.
Proof.
  unfold rstrip_char.
  destruct line as [|c0 l0] using rev_ind; [simpl; lia|]. clear IHl0.
  rename l0 into l1, c0 into c.
  rewrite rstrip_by_snoc. destruct (Ascii.eqb pipe c) eqn:Ec; [|lia].
  apply Ascii.eqb_eq in Ec. subst c. intros He.
  rewrite count_app. simpl.
  destruct l1 as [|d l2] using rev_ind; [simpl; lia|]. clear IHl2.
  rewrite rstrip_by_snoc. destruct (Ascii.eqb pipe d) eqn:Ed; [|lia].
  apply Ascii.eqb_eq in Ed. subst d. exfalso.
  unfold endswith in He. rewrite !rev_app_distr in He. discriminate.
Qed.

Lemma stem_count (line : str) :
  endswith (lit "||") line = false ->
  count pipe line <= count pipe (stem line) + 1.
Proof.
  intros H. unfold stem, rstrip.
  rewrite count_rstrip_by by reflexivity. now apply rstrip_char_count.
Qed.

Lemma endswith_strip (s : str) :
  endswith [pipe] s = true -> endswith [pipe] (strip s) = true.
Proof.
  intros H. apply endswith_one in H as (s' & ->). unfold strip.
  destruct (lstrip_keeps_tail s' pipe [] isspace_pipe) as (s'' & ->).
  unfold rstrip. rewrite rstrip_by_snoc, isspace_pipe.
  apply endswith_one. eauto.
Qed.

(** A table row that ends well, with lines merged into it, is a table row
    still, with no fewer pipes, and with the [---] it had. *)
Lemma merged_row (line m : str) :
  is_table_row line = true -> row_ends_well line = true ->
  merged_from line m ->
  is_table_row m = true
  /\ count pipe line <= count pipe m
  /\ (contains (lit "---") line = true -> contains (lit "---") m = true).
Proof.
  intros Hr Hg [-> | (t & -> & He)]; [auto|].
  destruct (stem_of_row _ Hr Hg) as (w & u & Es & Hw).
  assert (Ht : 0 < count pipe (space :: t)).
  { destruct t as [|z t'] using rev_ind.
    - rewrite endswith_one_snoc in He. discriminate.
    - clear IHt'. rewrite app_comm_cons, app_assoc, endswith_one_snoc in He.
      apply Ascii.eqb_eq in He. subst z.
      rewrite app_comm_cons, count_app. simpl. lia. }
  split; [|split].
  - unfold is_table_row. rewrite (endswith_strip _ He), andb_true_r.
    rewrite Es, <- app_assoc. cbn [app].
    rewrite starts_with_pipe by now apply blanks_no_pipe.
    rewrite Hw, andb_true_r. apply has_char_In, in_or_app. right. now left.
  - unfold row_ends_well in Hg. rewrite Hr in Hg. cbn [negb orb] in Hg.
    apply andb_true_iff in Hg as [Hg _]. apply negb_true_iff in Hg.
    pose proof (stem_count _ Hg). rewrite count_app. lia.
  - intros Hd. apply contains_app_l. unfold stem, rstrip, rstrip_char.
    apply contains_rstrip_by; [reflexivity | discriminate |].
    apply contains_rstrip_by; [reflexivity | discriminate | assumption].
Qed.

(** ** The outer loop *)

Lemma fix_lines_cons (line : str) (rest : list str) :
  fix_lines (line :: rest)
  = if is_table_row line
    then _clean_table_row (fst (absorb line rest))
           :: fix_lines (snd (absorb line rest))
    else line :: fix_lines rest.
Proof. now simp fix_lines. Qed.

Lemma fix_lines_nonempty (lines : list str) :
  lines <> [] -> fix_lines lines <> [].
Proof.
  destruct lines as [|l rest]; [congruence|]. intros _.
  rewrite fix_lines_cons. destruct (is_table_row l); discriminate.
Qed.

(** Induction on the lines, with the property known of every shorter list. *)
Lemma lines_induction (P : list str -> Prop) :
  (forall lines,
      (forall shorter, length shorter < length lines -> P shorter) ->
      P lines) ->
  forall lines, P lines.
Proof.
  intros step lines.
  assert (H : forall n shorter, length shorter < n -> P shorter).
  { induction n as [|n IH]; intros shorter Hs; [lia|].
    apply step. intros s' Hs'. apply IH. lia. }
  apply (H (S (length lines))). lia.
Qed.

Lemma fix_lines_no_nl (lines : list str) :
  Forall (fun l => ~ In nl l) lines ->
  Forall (fun l => ~ In nl l) (fix_lines lines).
Proof.
  induction lines as [lines IH] using lines_induction.
  destruct lines as [|l rest]; intros F; [simp fix_lines; constructor|].
  inversion F as [|x r Hl Hr]; subst. rewrite fix_lines_cons.
  destruct (is_table_row l).
  - constructor.
    + apply clean_row_no_nl. now apply absorb_no_nl.
    + apply IH; [|now apply absorb_suffix].
      pose proof (absorb_shorter rest l). simpl. lia.
  - constructor; [assumption|]. apply IH; [simpl; lia | assumption].
Qed.

Lemma fix_lines_repaired (lines : list str) : repaired lines (fix_lines lines).
Proof.
  induction lines as [lines IH] using lines_induction.
  destruct lines as [|l rest]; [simp fix_lines; constructor|].
  rewrite fix_lines_cons. destruct (is_table_row l) eqn:Er.
  - destruct (absorb_spec rest l) as (absorbed & Hr & Ha & _).
    rewrite Hr at 1. apply repaired_row; try assumption.
    + rewrite clean_row_has_pipe. apply absorb_has_pipe.
      unfold is_table_row in Er. apply andb_true_iff in Er as [Er _].
      now apply andb_true_iff in Er as [Er _].
    + apply IH. pose proof (absorb_shorter rest l). simpl. lia.
  - apply repaired_kept; [assumption|]. apply IH. simpl. lia.
Qed.

Lemma repaired_plain_lines (lines out : list str) :
  repaired lines out ->
  filter (fun l => negb (has_char pipe l)) out
  = filter (fun l => negb (has_char pipe l)) lines.
Proof.
  induction 1 as [|line rest out Hr Hrep IH
                  |line absorbed rest row out Hr Ha Hrow Hrep IH].
  - reflexivity.
  - simpl. now rewrite IH.
  - cbn [filter]. rewrite Hrow. cbn [negb].
    unfold is_table_row in Hr. apply andb_true_iff in Hr as [Hr _].
    apply andb_true_iff in Hr as [Hr _]. rewrite Hr. cbn [negb].
    rewrite filter_app, IH.
    replace (filter (fun l => negb (has_char pipe l)) absorbed) with
      (@nil str); [reflexivity|].
    clear - Ha. induction Ha as [|l ls [Hl _] _ IHa]; [reflexivity|].
    cbn [filter]. rewrite has_pipe_strip in Hl. rewrite Hl. exact IHa.
Qed.

(** The repaired text, split into lines again, is the list of lines that
    the outer loop has made. *)
Lemma split_fixed_text (markdown_content : str) :
  split nl (_fix_markdown_tables markdown_content)
  = fix_lines (split nl markdown_content).
Proof.
  unfold _fix_markdown_tables. apply split_join.
  - apply fix_lines_nonempty, split_nonempty.
  - apply fix_lines_no_nl, split_parts_free.
Qed.

(** C10. The repair pass keeps every line that is no table row as it is and
    in its place, but for the lines that a table row absorbs: those follow
    the row and, stripped, hold a pipe and no [---]; the row and they
    become one line. So the lines without a pipe are the same, in the same
    order, before and after. *)
Theorem C10_other_lines_are_kept (markdown_content : str) :
  repaired (split nl markdown_content)
           (split nl (_fix_markdown_tables markdown_content))
  /\ filter (fun l => negb (has_char pipe l))
            (split nl (_fix_markdown_tables markdown_content))
     = filter (fun l => negb (has_char pipe l)) (split nl markdown_content).
Proof.
  rewrite split_fixed_text. split.
  - apply fix_lines_repaired.
  - apply repaired_plain_lines, fix_lines_repaired.
Qed.

(** ** Running the pass twice *)

(** The first line that the pass makes of lines stops the inner loop where
    their first line did. *)
Lemma fixed_head_stops (lines : list str) (t x y : str) :
  Forall (fun l => row_ends_well l = true) lines ->
  hd_error lines = Some x ->
  stops_absorbing t (strip x) = true ->
  hd_error (fix_lines lines) = Some y ->
  stops_absorbing t (strip y) = true.
Proof.
  intros F Hx Hs Hy. destruct lines as [|l rest]; [discriminate|].
  inversion Hx; subst l; clear Hx. inversion F as [|x' r Hg _]; subst.
  rewrite fix_lines_cons in Hy. destruct (is_table_row x) eqn:Er.
  - inversion Hy; subst y; clear Hy.
    set (m := fst (absorb x rest)).
    destruct (merged_row x m Er Hg) as (Hm & Hc & Hd).
    { apply absorb_merged_from. now left. }
    assert (Hrow : is_table_row (_clean_table_row m) = true)
      by now rewrite clean_row_is_table_row.
    unfold is_table_row in Hrow, Er.
    apply andb_true_iff in Hrow as [Hrow He].
    apply andb_true_iff in Hrow as [Hp Hb].
    apply andb_true_iff in Er as [Er _].
    apply andb_true_iff in Er as [Er _].
    rewrite <- has_pipe_strip in Hp, Er.
    apply stops_true. apply stops_true in Hs as [Hs | [Hs | Hs]].
    + left. rewrite Hp. cbn [andb].
      apply andb_true_iff in Hs as [_ Hs].
      apply contains_dashes_strip, clean_row_dashes, Hd.
      apply (contains_strip_inv _ _ dashes_nonempty Hs).
    + right. left. rewrite Hp, Hb, He. cbn [andb].
      apply andb_true_iff in Hs as [_ Hs]. apply Nat.leb_le in Hs.
      apply Nat.leb_le.
      rewrite count_strip, clean_row_count. rewrite count_strip in Hs. lia.
    + rewrite Er in Hs. rewrite orb_false_r in Hs.
      destruct (strip x); discriminate.
  - inversion Hy; subst y. assumption.
Qed.

Lemma absorb_stopped (table_row : str) (rest : list str) :
  (forall x, hd_error rest = Some x ->
             stops_absorbing table_row (strip x) = true) ->
  absorb table_row rest = (table_row, rest).
Proof.
  destruct rest as [|l rest]; intros H; [reflexivity|].
  simpl. now rewrite (H l eq_refl).
Qed.

Lemma fix_lines_idem (lines : list str) :
  Forall (fun l => row_ends_well l = true) lines ->
  fix_lines (fix_lines lines) = fix_lines lines.
Proof.
  induction lines as [lines IH] using lines_induction.
  destruct lines as [|l rest]; intros F; [now simp fix_lines|].
  inversion F as [|x r Hg Hrest]; subst.
  rewrite fix_lines_cons. destruct (is_table_row l) eqn:Er.
  - set (m := fst (absorb l rest)). set (rest' := snd (absorb l rest)).
    assert (Hlen : length rest' < length (l :: rest)).
    { pose proof (absorb_shorter rest l). subst rest'. simpl. lia. }
    assert (F' : Forall (fun l => row_ends_well l = true) rest')
      by now apply absorb_suffix.
    rewrite fix_lines_cons.
    destruct (is_table_row (_clean_table_row m)) eqn:Ec;
      [|now rewrite (IH rest' Hlen F')].
    rewrite absorb_stopped.
    + cbn [fst snd]. now rewrite clean_row_idem, (IH rest' Hlen F').
    + intros y Hy.
      rewrite (stops_same_count _ m) by apply clean_row_count.
      destruct rest' as [|x rest''] eqn:Erest.
      * rewrite fix_lines_equation_1 in Hy. discriminate.
      * apply (fixed_head_stops (x :: rest'') m x y F' eq_refl);
          [|assumption].
        destruct (absorb_spec rest l) as (_ & _ & _ & Hstop).
        apply Hstop. fold rest'. now rewrite Erest.
  - rewrite fix_lines_cons, Er. f_equal.
    apply IH; [simpl; lia | assumption].
Qed.

(** C6, as the specification states it, fails: the second row ends in two
    pipes and absorbs the line after it, which leaves it with fewer pipes
    than the first row, and the second run merges it into the first row. *)
Lemma C6_counterexample :
  _fix_markdown_tables broken_table = text_of ["| a | b |"; "| c d |"]%string
  /\ _fix_markdown_tables (_fix_markdown_tables broken_table)
     = text_of ["| a | b | c d |"]%string.
Proof. split; vm_compute; reflexivity. Qed.

(** C6, amended. On every text in which no table row ends in two pipes or
    is a lone pipe, running the repair pass twice gives what running it
    once gives. *)
Theorem C6_repair_twice (markdown_content : str) :
  rows_end_well markdown_content = true ->
  _fix_markdown_tables (_fix_markdown_tables markdown_content)
  = _fix_markdown_tables markdown_content.
Proof.
  intros H. unfold _fix_markdown_tables at 1.
  rewrite split_fixed_text. unfold _fix_markdown_tables. f_equal.
  apply fix_lines_idem. apply Forall_forall.
  unfold rows_end_well in H. rewrite forallb_forall in H. exact H.
Qed.

Lemma C6_witness :
  _fix_markdown_tables (_fix_markdown_tables spread_row)
  = _fix_markdown_tables spread_row.
Proof.
  apply (C6_repair_twice spread_row). vm_compute. reflexivity.
Defined.

(* ===================================================================== *)
(** * Properties of the table flattener *)
(* ===================================================================== *)

(** A step that succeeded inside a sequence of steps. *)
Lemma bind_Ok {A B : Type} (m : Exc A) (k : A -> Exc B) (b : B) :
  bind m k = Ok b -> exists a, m = Ok a /\ k a = Ok b.
Proof.
  destruct m as [a|]; simpl; intros H; [eauto | discriminate].
Qed.

Ltac bind_inv H :=
  let a := fresh "r" in
  let Ha := fresh "E" in
  apply bind_Ok in H; destruct H as (a & Ha & H).

Lemma labelled_cons (idx : nat) (md : str) (mds : list str) :
  labelled idx (md :: mds) = table_block idx md :: labelled (S idx) mds.
Proof. reflexivity. Qed.

Lemma labelled_app (mds1 mds2 : list str) (idx : nat) :
  labelled idx (mds1 ++ mds2)
  = labelled idx mds1 ++ labelled (idx + length mds1) mds2.
Proof.
  revert idx; induction mds1 as [|md mds1 IH]; intros idx.
  - simpl. now rewrite Nat.add_0_r.
  - rewrite <- app_comm_cons, !labelled_cons, IH. simpl.
    now rewrite Nat.add_succ_r.
Qed.

Lemma pad_truncate_length (texts : list str) (width : nat) :
  length (pad_truncate texts width) = width.
Proof.
  unfold pad_truncate. destruct (length texts <? width) eqn:E.
  - apply Nat.ltb_lt in E. rewrite length_app, repeat_length. lia.
  - apply Nat.ltb_ge in E. rewrite length_firstn. lia.
Qed.

Lemma pad_truncate_eq (texts : list str) (width : nat) :
  pad_truncate texts width
  = firstn width texts ++ repeat [] (width - length texts).
Proof.
  unfold pad_truncate. destruct (length texts <? width) eqn:E.
  - apply Nat.ltb_lt in E. rewrite firstn_all2 by lia. reflexivity.
  - apply Nat.ltb_ge in E.
    replace (width - length texts) with 0 by lia. simpl.
    now rewrite app_nil_r.
Qed.

Section FlattenerFacts.

Variable L : Library.
Variable opts : options.

Local Abbreviation rendered :=
  (fun t md => convert_nested_table_to_markdown L opts t = Ok md).
Local Abbreviation own :=
  (fun c raw => text_without_nested L c = Ok raw).

Lemma convert_nested_tables_Ok (ts : list node) :
  forall idx blocks idx',
    convert_nested_tables L opts idx ts = Ok (blocks, idx') ->
    exists mds,
      Forall2 rendered ts mds
      /\ blocks = labelled idx mds /\ idx' = idx + length ts.
Proof.
  induction ts as [|t ts IH]; intros idx blocks idx' H; simpl in H.
  - inversion H; subst. exists []. repeat split; auto.
  - bind_inv H. bind_inv H. destruct r0 as [bs i]. simpl in H.
    inversion H; subst; clear H.
    apply IH in E0 as (mds & F & -> & ->).
    exists (r :: mds). repeat split.
    + now constructor.
    + simpl. lia.
Qed.

Lemma convert_cell_Ok (idx : nat) (c : node) text blocks idx' :
  convert_cell L opts idx c = Ok (text, blocks, idx') ->
  exists raw mds,
    text_without_nested L c = Ok raw
    /\ Forall2 rendered (find_all [lit "table"] c) mds
    /\ text = marked (escape_pipes raw) idx (tables_in c)
    /\ blocks = labelled idx mds
    /\ idx' = idx + tables_in c.
Proof.
  unfold convert_cell, tables_in. intros H. bind_inv H.
  destruct (find_all [lit "table"] c) as [|t ts] eqn:Et.
  - inversion H; subst; clear H. exists r, [].
    repeat split; auto; simpl; lia.
  - bind_inv H. destruct r0 as [bs i]. simpl in H.
    inversion H; subst; clear H.
    apply convert_nested_tables_Ok in E0 as (mds & F & -> & ->).
    exists r, mds. repeat split; auto.
Qed.

Lemma convert_cells_Ok (cells : list node) :
  forall idx texts blocks idx',
    convert_cells L opts idx cells = Ok (texts, blocks, idx') ->
    exists raws mds,
      Forall2 own cells raws
      /\ Forall2 rendered (tables_of cells) mds
      /\ texts = cell_texts idx cells raws
      /\ blocks = labelled idx mds
      /\ idx' = idx + length (tables_of cells).
Proof.
  induction cells as [|c cells IH]; intros idx texts blocks idx' H;
    simpl in H.
  - inversion H; subst. exists [], []. repeat split; auto; simpl; lia.
  - bind_inv H. destruct r as [[text bs] i].
    bind_inv H. destruct r as [[texts' bs'] i']. simpl in H.
    inversion H; subst; clear H.
    apply convert_cell_Ok in E as (raw & mds1 & Hraw & F1 & -> & -> & ->).
    apply IH in E0 as (raws & mds2 & Fr & F2 & -> & -> & ->).
    exists (raw :: raws), (mds1 ++ mds2).
    assert (Hk : length mds1 = tables_in c)
      by (symmetry; apply (Forall2_length F1)).
    split; [now constructor|].
    split; [now apply Forall2_app|].
    split; [reflexivity|].
    split; [now rewrite labelled_app, Hk|].
    unfold tables_of, tables_in. cbn [flat_map]. rewrite length_app.
    unfold tables_in. lia.
Qed.

Lemma convert_rows_Ok (width : nat) (rows : list node) :
  forall idx rows_texts blocks idx',
    convert_rows L opts width idx rows = Ok (rows_texts, blocks, idx') ->
    exists raws mds,
      Forall2 (fun r raw => Forall2 own (cells_in_row r) raw) rows raws
      /\ Forall2 rendered (tables_of (flat_map cells_in_row rows)) mds
      /\ rows_texts = row_texts width idx rows raws
      /\ blocks = labelled idx mds
      /\ idx' = idx + length mds.
Proof.
  induction rows as [|r rows IH]; intros idx rows_texts blocks idx' H;
    simpl in H.
  - inversion H; subst. exists [], [].
    repeat split; auto; try constructor; simpl; lia.
  - bind_inv H. destruct r0 as [[texts bs] i].
    bind_inv H. destruct r0 as [[rts bs'] i']. simpl in H.
    inversion H; subst; clear H.
    apply convert_cells_Ok in E as (raw & mds1 & Fr & F1 & -> & -> & ->).
    apply IH in E0 as (raws & mds2 & Frs & F2 & -> & -> & ->).
    exists (raw :: raws), (mds1 ++ mds2).
    assert (Hk : length mds1 = length (tables_of (cells_in_row r)))
      by (symmetry; apply (Forall2_length F1)).
    split; [now constructor|].
    split.
    { unfold tables_of in *. cbn [flat_map]. rewrite flat_map_app.
      now apply Forall2_app. }
    split; [reflexivity|].
    split; [now rewrite labelled_app, Hk|].
    rewrite length_app. lia.
Qed.

Lemma cell_texts_length (cells : list node) :
  forall idx raws,
    length cells = length raws ->
    length (cell_texts idx cells raws) = length cells.
Proof.
  induction cells as [|c cells IH]; intros idx [|raw raws] H; simpl in *;
    try discriminate; auto.
Qed.

Lemma header_texts_length (cells : list node) :
  forall header, header_texts L cells = Ok header ->
                 length header = length cells.
Proof.
  induction cells as [|c cs IH]; intros header H; simpl in H.
  - now inversion H.
  - bind_inv H. bind_inv H. inversion H; subst. simpl. f_equal. now apply IH.
Qed.

(** What [flatten] has computed when it succeeds. *)
Lemma flatten_Ok (rows : list node) (f : flat) :
  flatten L opts rows = Ok f ->
  exists raws mds,
    let first := cells_in_row (hd (Text NavigableString []) rows) in
    let body := body_rows_of rows in
    Forall2 (fun r raw => Forall2 own (cells_in_row r) raw) body raws
    /\ Forall2 rendered (tables_of (flat_map cells_in_row body)) mds
    /\ (if existsb is_th first
        then header_texts L first = Ok (header_cells f)
        else header_cells f = repeat [space] (length first))
    /\ length (header_cells f) = length first
    /\ body_texts f = row_texts (length (header_cells f)) 1 body raws
    /\ nested_blocks f = labelled 1 mds.
Proof.
  unfold flatten, body_rows_of. intros H. bind_inv H.
  destruct r as [header body]. bind_inv H.
  destruct r as [[rts bs] i]. inversion H; subst; clear H. cbn zeta.
  cbn [header_cells body_texts nested_blocks].
  match goal with
  | Hc : convert_rows _ _ _ _ _ = Ok _ |- _ =>
      apply convert_rows_Ok in Hc as (raws & mds & Fr & Fm & -> & -> & _)
  end.
  exists raws, mds.
  destruct (existsb is_th (cells_in_row (hd (Text NavigableString []) rows))).
  - match goal with
    | Hh : bind _ _ = Ok _ |- _ => bind_inv Hh; inversion Hh; subst
    end.
    repeat split; auto. now apply header_texts_length.
  - match goal with Hh : Ok _ = Ok _ |- _ => inversion Hh; subst end.
    repeat split; auto. apply repeat_length.
Qed.

Lemma row_texts_widths (width : nat) (rows : list node) :
  forall idx raws,
    Forall (fun texts => length texts = width)
           (row_texts width idx rows raws).
Proof.
  induction rows as [|r rows IH]; intros idx [|raw raws]; simpl;
    try constructor.
  - apply pad_truncate_length.
  - apply IH.
Qed.

(** ** The flattening succeeds when the calls of the library do *)

Hypothesis render_succeeds : forall n, exists s, render L n = Ok s.
Hypothesis reparse_succeeds : forall n, exists d, reparse L n = Ok d.

Lemma _sanitize_table_html_succeeds (n : node) :
  exists s, _sanitize_table_html L opts n = Ok s.
Proof.
  unfold _sanitize_table_html. destruct (render_succeeds n) as (html & ->).
  simpl. destruct (negb (sanitize_tables_html opts)); [eauto|].
  destruct (reparse_succeeds n) as (soup & ->). simpl.
  destruct (render_succeeds (keep_allowed true (unwrap_wrappers soup)))
    as (s & ->).
  simpl. eauto.
Qed.

Lemma convert_nested_table_succeeds (t : node) :
  exists md, convert_nested_table_to_markdown L opts t = Ok md.
Proof.
  unfold convert_nested_table_to_markdown.
  destruct (_sanitize_table_html_succeeds t) as (s & Hs).
  destruct (find (lit "table") t); [rewrite Hs; simpl; eauto|].
  destruct (iter_rows t); [rewrite Hs; simpl; eauto|]. simpl. eauto.
Qed.

Lemma convert_nested_tables_succeed (ts : list node) :
  forall idx, exists r, convert_nested_tables L opts idx ts = Ok r.
Proof.
  induction ts as [|t ts IH]; intros idx; simpl; [eauto|].
  destruct (convert_nested_table_succeeds t) as (md & ->). simpl.
  destruct (IH (S idx)) as (r & ->). simpl. eauto.
Qed.

Lemma text_without_nested_succeeds (c : node) :
  exists raw, text_without_nested L c = Ok raw.
Proof.
  unfold text_without_nested.
  destruct (reparse_succeeds c) as (d & ->). simpl. eauto.
Qed.

Lemma convert_cells_succeed (cells : list node) :
  forall idx, exists r, convert_cells L opts idx cells = Ok r.
Proof.
  induction cells as [|c cells IH]; intros idx; simpl; [eauto|].
  unfold convert_cell.
  destruct (text_without_nested_succeeds c) as (raw & ->). simpl.
  destruct (find_all [lit "table"] c) as [|t ts] eqn:Et.
  - simpl. destruct (IH idx) as ([[texts blocks] i] & ->). simpl. eauto.
  - destruct (convert_nested_tables_succeed (t :: ts) idx) as (r & ->).
    simpl. destruct (IH (snd r)) as ([[texts blocks] i] & ->). simpl. eauto.
Qed.

Lemma convert_rows_succeed (width : nat) (rows : list node) :
  forall idx, exists r, convert_rows L opts width idx rows = Ok r.
Proof.
  induction rows as [|r rows IH]; intros idx; simpl; [eauto|].
  destruct (convert_cells_succeed (cells_in_row r) idx)
    as ([[texts blocks] i] & ->).
  simpl. destruct (IH i) as ([[rts bs] j] & ->). simpl. eauto.
Qed.

Lemma header_texts_succeed (cells : list node) :
  exists header, header_texts L cells = Ok header.
Proof.
  induction cells as [|c cells (header & IH)]; simpl; [eauto|].
  destruct (text_without_nested_succeeds c) as (raw & ->). simpl.
  rewrite IH. simpl. eauto.
Qed.

Lemma flatten_succeeds (rows : list node) :
  exists f, flatten L opts rows = Ok f.
Proof.
  unfold flatten.
  destruct (existsb is_th (cells_in_row (hd (Text NavigableString []) rows))).
  - destruct (header_texts_succeed (cells_in_row (hd (Text NavigableString []) rows)))
      as (header & ->).
    simpl.
    destruct (convert_rows_succeed (length header) (tl rows) 1)
      as ([[rts bs] i] & ->).
    simpl. eauto.
  - simpl.
    match goal with
    | |- context [convert_rows L opts ?w 1 rows] =>
        destruct (convert_rows_succeed w rows 1) as ([[rts bs] i] & ->)
    end.
    simpl. eauto.
Qed.

End FlattenerFacts.

(** ** The tree once the tables are deleted *)

Lemma str_eqb_eq (a b : str) : str_eqb a b = true -> a = b.
Proof.
  unfold str_eqb. destruct (list_eq_dec ascii_dec a b); [auto | discriminate].
Qed.


Lemma interesting_decompose_all (name : str) (n : node) :
  interesting_string_types (decompose_all name n) = interesting_string_types n.
Proof. destruct n; reflexivity. Qed.

Lemma strings_of_class_decompose_all (types : list string_class) (n : node) :
  strings_of_class types (decompose_all (lit "table") n)
  = own_strings_of_class types n.
Proof.
  induction n as [cls s | nm attrs cs IH] using node_induction; [reflexivity|].
  cbn [decompose_all strings_of_class own_strings_of_class].
  induction IH as [|c cs Hc _ IHcs]; [reflexivity|].
  cbn [flat_map]. rewrite flat_map_app, IHcs. f_equal.
  destruct (is_named [lit "table"] c); [reflexivity|].
  cbn [flat_map]. now rewrite app_nil_r.
Qed.

Lemma all_strings_decompose_all (n : node) :
  _all_strings (decompose_all (lit "table") n) = own_strings n.
Proof.
  destruct n as [cls s | nm attrs cs]; [reflexivity|].
  unfold _all_strings. rewrite interesting_decompose_all.
  exact (strings_of_class_decompose_all _ (Tag nm attrs cs)).
Qed.


Lemma own_text_own_strings (c : node) :
  own_text c = join [space] (filter truthy (map strip (own_strings c))).
Proof. unfold own_text, get_text. now rewrite all_strings_decompose_all. Qed.

(** A comment, a script, a template and a ruby text are no part of the text
    of a cell, and a nested table is no part of its own text. *)
Example noisy_cell_texts :
  get_text noisy_cell = lit "a k n b" /\ own_text noisy_cell = lit "a k b".
Proof. split; vm_compute; reflexivity. Qed.

Lemma cell_is_no_table (r c : node) :
  In c (cells_in_row r) -> is_named [lit "table"] c = false.
Proof.
  unfold cells_in_row, find_all_direct. intros H.
  apply filter_In in H as [_ H]. destruct c as [cls s | nm attrs cs];
    [reflexivity|].
  cbn [is_named existsb] in *. rewrite orb_false_r in *.
  apply orb_true_iff in H as [H | H]; apply str_eqb_eq in H; subst;
    reflexivity.
Qed.

(** A cell is no string container. *)
Lemma cell_string_types (r c : node) :
  In c (cells_in_row r) ->
  interesting_string_types c = [NavigableString; CData].
Proof.
  unfold cells_in_row, find_all_direct. intros H.
  apply filter_In in H as [_ H]. destruct c as [cls s | nm attrs cs];
    [reflexivity|].
  cbn [is_named existsb] in H. rewrite orb_false_r in H.
  apply orb_true_iff in H as [H | H]; apply str_eqb_eq in H; subst;
    reflexivity.
Qed.

(** The text of a cell that the parser gives back as it was written. *)
Lemma own_text_document (r c : node) :
  In c (cells_in_row r) -> own_text (document [c]) = own_text c.
Proof.
  intros Hin. rewrite !own_text_own_strings. f_equal. f_equal. f_equal.
  unfold own_strings, document. cbn [children flat_map].
  rewrite (cell_is_no_table _ _ Hin), app_nil_r.
  change (interesting_string_types (Tag (lit "[document]") [] [c]))
    with [NavigableString; CData].
  rewrite (cell_string_types _ _ Hin).
  destruct c as [cls s | nm attrs cs]; [|reflexivity].
  unfold cells_in_row, find_all_direct in Hin.
  apply filter_In in Hin as [_ Hin]. discriminate.
Qed.

(** What [text_without_nested] gives is the text of the parser's copy of the
    cell with every table of the copy deleted. *)
Lemma text_without_nested_Ok (L : Library) (c : node) (raw : str) :
  text_without_nested L c = Ok raw ->
  reparse L c = Ok (cell_copy L c)
  /\ raw = own_text (cell_copy L c)
  /\ raw_text L c = raw.
Proof.
  unfold raw_text. intros H. rewrite H.
  unfold text_without_nested, cell_copy in *.
  destruct (reparse L c) as [d|]; [|discriminate].
  cbn [bind] in H. injection H as <-. repeat split.
Qed.

Lemma text_without_nested_faithful (L : Library) (r c : node) (raw : str) :
  In c (cells_in_row r) -> faithful L c ->
  text_without_nested L c = Ok raw -> raw = own_text c.
Proof.
  intros Hin Hf H. apply text_without_nested_Ok in H as (_ & -> & _).
  unfold cell_copy. rewrite Hf. now apply (own_text_document r).
Qed.

(** ** The flat table and its references *)

(** The texts that the loop over the cells has found. *)
Lemma raws_are_raw_texts (L : Library) (cells : list node) (raws : list str) :
  Forall2 (fun c t => text_without_nested L c = Ok t) cells raws ->
  raws = map (raw_text L) cells
  /\ raws = map (fun c => own_text (cell_copy L c)) cells
  /\ Forall (fun c => text_without_nested L c = Ok (raw_text L c)
                      /\ reparse L c = Ok (cell_copy L c)) cells.
Proof.
  induction 1 as [|c t cells raws Hc _ (IH1 & IH2 & IH3)].
  - repeat split; constructor.
  - destruct (text_without_nested_Ok L c t Hc) as (Hp & Ht & Hr).
    repeat split.
    + cbn [map]. now rewrite Hr, <- IH1.
    + cbn [map]. now rewrite <- Ht, <- IH2.
    + constructor; [|exact IH3]. rewrite Hr. split; assumption.
Qed.

(** The rows of the flat table are the rows of [own_row_texts], each padded
    or cut. *)
Lemma row_texts_own (L : Library) (width : nat) (rows : list node) :
  forall idx raws,
    Forall2 (fun r raw =>
               Forall2 (fun c t => text_without_nested L c = Ok t)
                       (cells_in_row r) raw) rows raws ->
    row_texts width idx rows raws
    = map (fun texts => pad_truncate texts width) (own_row_texts L idx rows)
    /\ Forall2 (fun r texts => length texts = length (cells_in_row r))
               rows (own_row_texts L idx rows)
    /\ raws = map (fun r => map (fun c => own_text (cell_copy L c))
                              (cells_in_row r)) rows
    /\ Forall (fun r =>
                 Forall (fun c => text_without_nested L c = Ok (raw_text L c)
                                  /\ reparse L c = Ok (cell_copy L c))
                        (cells_in_row r)) rows.
Proof.
  induction rows as [|r rows IH]; intros idx raws F;
    inversion F as [|r' raw rows' raws' Fc Ft]; subst.
  - repeat split; constructor.
  - destruct (IH (idx + length (tables_of (cells_in_row r))) raws' Ft)
      as (E1 & E2 & E3 & E4).
    destruct (raws_are_raw_texts L _ _ Fc) as (R1 & R2 & R3).
    repeat split.
    + cbn [row_texts own_row_texts map]. now rewrite E1, <- R1.
    + cbn [own_row_texts]. constructor; [|exact E2].
      apply cell_texts_length. now rewrite length_map.
    + cbn [map]. now rewrite <- R2, <- E3.
    + constructor; assumption.
Qed.

Lemma pad_truncate_unfold (texts : list str) (width : nat) :
  pad_truncate texts width
  = if length texts <? width
    then texts ++ repeat [] (width - length texts)
    else firstn width texts.
Proof. reflexivity. Qed.

(** C1. When the 'append' strategy flattens a table (which it does whenever
    the calls of the library succeed, see [flatten_succeeds]), every body
    row of the flat table has exactly as many cells as the header row. The
    row is made of the texts of the row's own cells, one for each cell in
    their order (the text that [text_without_nested] gives for the cell,
    with its pipes escaped and with the reference of the cell, as
    [own_row_texts] has them): where these are fewer than the header's
    cells, they are all there and empty strings follow them up to the
    header's width; else the first of them, as many as the header has
    cells, are there and the others are left out. *)
Theorem C1_body_rows_have_header_width
    (L : Library) (opts : options) (table : node) (f : flat) :
  flatten L opts (iter_rows table) = Ok f ->
  let width := length (header_cells f) in
  let body := body_rows_of (iter_rows table) in
  Forall (fun texts => length texts = width) (body_texts f)
  /\ Forall (fun r =>
               Forall (fun c => text_without_nested L c = Ok (raw_text L c))
                      (cells_in_row r)) body
  /\ Forall2 (fun r texts => length texts = length (cells_in_row r))
             body (own_row_texts L 1 body)
  /\ body_texts f
     = map (fun texts =>
              if length texts <? width
              then texts ++ repeat [] (width - length texts)
              else firstn width texts)
           (own_row_texts L 1 body).
Proof.
  intros H width body.
  destruct (flatten_Ok _ _ _ _ H) as (raws & mds & Fr & _ & _ & _ & Eb & _).
  cbn zeta in Fr. fold body in Fr, Eb. fold width in Eb.
  destruct (row_texts_own L width body 1 raws Fr) as (E1 & E2 & _ & E4).
  split; [rewrite Eb; apply row_texts_widths|].
  split.
  - eapply Forall_impl; [|exact E4]. intros r Hr.
    eapply Forall_impl; [|exact Hr]. intros c Hc. apply Hc.
  - split; [exact E2|]. rewrite Eb, E1. apply map_ext.
    intros texts. apply pad_truncate_unfold.
Qed.

Lemma C1_witness :
  let width := length (header_cells example_flat) in
  let body := body_rows_of (iter_rows example_table) in
  Forall (fun texts => length texts = width) (body_texts example_flat)
  /\ Forall (fun r =>
               Forall (fun c => text_without_nested ideal c
                                = Ok (raw_text ideal c))
                      (cells_in_row r)) body
  /\ Forall2 (fun r texts => length texts = length (cells_in_row r))
             body (own_row_texts ideal 1 body)
  /\ body_texts example_flat
     = map (fun texts =>
              if length texts <? width
              then texts ++ repeat [] (width - length texts)
              else firstn width texts)
           (own_row_texts ideal 1 body).
Proof.
  apply (C1_body_rows_have_header_width ideal default_options example_table).
  vm_compute. reflexivity.
Defined.

(** C2. The code does not give the references that the specification asks
    for, and that the docstring of [convert_table] and the loop over the
    body rows promise, in two ways.

    The cells of the header row are converted without the loop over the
    nested tables: the header cell of [header_nested_table] holds the first
    nested table of the table, and that table gets no index, no block and
    no reference; the index 1 goes to the nested table of the body cell.

    The rows are looked for in the first [thead] and the first [tbody]
    anywhere below the table, although [iter_rows] is meant not to descend
    into nested tables. For [nested_sections_table] the rows are those of
    the nested table: the one cell of the table, which holds a text and a
    nested table, gets no text, no index and no reference. For
    [nested_thead_table] the innermost table is converted twice, as the
    tables 1 and 3, and the table around it, which comes before it in the
    document, is the table 2. *)
Theorem C2_nested_tables_without_their_references :
  map tables_in (cells_in_row
                   (hd (Text NavigableString [])
                       (iter_rows header_nested_table)))
  = [1]
  /\ flatten ideal default_options (iter_rows header_nested_table)
     = Ok {| header_cells := [lit "A"];
             body_texts := [[lit "[See Table 1](#table-1)"]];
             nested_blocks :=
               [table_block 1 (text_of ["| b |"; "| --- |"]%string)] |}
  /\ convert_table ideal default_options header_nested_table [] false
     = Ok (text_of ["| A |"; "| --- |"; "| [See Table 1](#table-1) |"; "";
                    "**Table 1:**"; ""; "| b |"; "| --- |"; ""; ""]%string)
  /\ map tables_in
         (flat_map cells_in_row
                   (find_all_direct [lit "tr"] nested_sections_table))
     = [1]
  /\ flatten ideal default_options (iter_rows nested_sections_table)
     = Ok {| header_cells := [lit "H"];
             body_texts := [[lit "v"]];
             nested_blocks := [] |}
  /\ find_all [lit "table"] nested_thead_table
     = [middle_table; innermost_table]
  /\ exists f,
       flatten ideal default_options (iter_rows nested_thead_table) = Ok f
       /\ body_texts f
          = [[lit "h ([See Table 1](#table-1))"];
             [lit "[See Tables 2-3](#table-2)"]]
       /\ convert_nested_table_to_markdown ideal default_options
            innermost_table
          = Ok (text_of ["| n |"; "| --- |"]%string)
       /\ length (nested_blocks f) = 3
       /\ nth 0 (nested_blocks f) []
          = table_block 1 (text_of ["| n |"; "| --- |"]%string)
       /\ nth 2 (nested_blocks f) []
          = table_block 3 (text_of ["| n |"; "| --- |"]%string).
Proof.
  repeat split; try (vm_compute; reflexivity).
  eexists. repeat split; vm_compute; reflexivity.
Qed.

(** Within one conversion by the 'append' strategy the nested tables of the
    cells of the rows that the strategy takes as body rows, in row-then-cell
    order, get the indices 1, 2, 3, ...: their blocks are labelled so, and
    such a cell with [k] nested tables takes the next [k] indices and gets,
    in its text, one reference to the first of them (to the range when
    [k > 1]). *)
Lemma body_rows_get_the_indices
    (L : Library) (opts : options) (rows : list node) (f : flat) :
  flatten L opts rows = Ok f ->
  let body := body_rows_of rows in
  exists raws mds,
    Forall2 (fun r raw =>
               Forall2 (fun c t => text_without_nested L c = Ok t)
                       (cells_in_row r) raw) body raws
    /\ Forall2 (fun t md => convert_nested_table_to_markdown L opts t = Ok md)
               (tables_of (flat_map cells_in_row body)) mds
    /\ nested_blocks f
       = map (fun p => table_block (fst p) (snd p))
             (combine (seq 1 (length mds)) mds)
    /\ body_texts f = row_texts (length (header_cells f)) 1 body raws.
Proof.
  intros H body.
  destruct (flatten_Ok _ _ _ _ H) as (raws & mds & Fr & Fm & _ & _ & Eb & En).
  exists raws, mds. repeat split; assumption.
Qed.




(** C4, as the specification states it, fails: the reference is not the
    literal text [(See Table N)] or [(See Tables N-M)]. A cell with two
    nested tables gets [[See Tables 1-2](#table-1)], and a cell with a text
    [x] and one nested table gets [x ([See Table 1](#table-1))]; neither
    holds the text the specification gives. *)
Lemma C4_counterexample :
  (exists blocks idx,
      convert_cell ideal default_options 1 two_tables_cell
      = Ok (lit "[See Tables 1-2](#table-1)", blocks, idx))
  /\ contains (lit "(See Tables 1-2)") (lit "[See Tables 1-2](#table-1)")
     = false
  /\ (exists blocks idx,
         convert_cell ideal default_options 1 text_and_table_cell
         = Ok (lit "x ([See Table 1](#table-1))", blocks, idx))
  /\ contains (lit "(See Table 1)") (lit "x ([See Table 1](#table-1))")
     = false.
Proof.
  split; [|split; [|split]].
  - eexists _, _. vm_compute. reflexivity.
  - vm_compute. reflexivity.
  - eexists _, _. vm_compute. reflexivity.
  - vm_compute. reflexivity.
Qed.

(** C4, amended. A cell of a body row with nested tables, the first of them
    numbered [idx], gets the Markdown link [[See Table idx](#table-idx)]
    when it has one nested table and [[See Tables idx-last](#table-idx)]
    when it has several; the link follows the cell's own text as
    [text (link)], or stands alone when the cell has no text of its own. *)
Theorem C4_reference_is_a_link
    (L : Library) (opts : options) (idx : nat) (c : node)
    (raw text : str) (blocks : list str) (idx' : nat) :
  convert_cell L opts idx c = Ok (text, blocks, idx') ->
  text_without_nested L c = Ok raw ->
  0 < tables_in c ->
  let base_text := escape_pipes raw in
  let last := idx + tables_in c - 1 in
  let link :=
    if tables_in c =? 1
    then lit "[See Table " ++ str_of_nat idx ++ lit "](#table-"
         ++ str_of_nat idx ++ lit ")"
    else lit "[See Tables " ++ str_of_nat idx ++ lit "-" ++ str_of_nat last
         ++ lit "](#table-" ++ str_of_nat idx ++ lit ")" in
  text = if truthy base_text then base_text ++ lit " (" ++ link ++ lit ")"
         else link.
Proof.
  intros H Hraw Hk base_text last link.
  apply convert_cell_Ok in H as (raw' & mds & Hraw' & _ & -> & _ & _).
  rewrite Hraw in Hraw'. inversion Hraw'; subst raw'; clear Hraw'.
  unfold marked. destruct (tables_in c) as [|k] eqn:Ek; [lia|].
  unfold with_reference, reference. fold base_text.
  assert (El : (idx =? idx + S k - 1) = (S k =? 1)).
  { destruct k as [|k].
    - replace (idx + 1 - 1) with idx by lia. now rewrite Nat.eqb_refl.
    - transitivity false; [apply Nat.eqb_neq; lia | reflexivity]. }
  subst link last. rewrite El. reflexivity.
Qed.

Lemma C4_witness :
  let base_text := escape_pipes [] in
  let last := 1 + tables_in two_tables_cell - 1 in
  let link :=
    if tables_in two_tables_cell =? 1
    then lit "[See Table " ++ str_of_nat 1 ++ lit "](#table-"
         ++ str_of_nat 1 ++ lit ")"
    else lit "[See Tables " ++ str_of_nat 1 ++ lit "-" ++ str_of_nat last
         ++ lit "](#table-" ++ str_of_nat 1 ++ lit ")" in
  lit "[See Tables 1-2](#table-1)"
  = if truthy base_text then base_text ++ lit " (" ++ link ++ lit ")"
    else link.
Proof.
  apply (C4_reference_is_a_link ideal default_options 1 two_tables_cell
           [] (lit "[See Tables 1-2](#table-1)")
           [table_block 1 (text_of ["| p |"; "| --- |"]%string);
            table_block 2 (text_of ["| q |"; "| --- |"]%string)]
           3).
  - vm_compute. reflexivity.
  - vm_compute. reflexivity.
  - vm_compute. lia.
Defined.

(** C5. A table with no table below it, converted with
    [preserve_tables_as_html] off, gives exactly what the standard
    converter of the library gives for that table. *)
Theorem C5_plain_table_is_standard
    (L : Library) (opts : options) (table : node) (text : str)
    (convert_as_inline : bool) :
  preserve_tables_as_html opts = false ->
  find (lit "table") table = None ->
  convert_table L opts table text convert_as_inline
  = super_convert_table L table text convert_as_inline.
Proof.
  intros Hp Hn. unfold convert_table, convert_table_try.
  rewrite Hp, Hn. reflexivity.
Qed.

Lemma C5_witness :
  convert_table ideal default_options plain_table [] false
  = super_convert_table ideal plain_table [] false.
Proof.
  apply C5_plain_table_is_standard; reflexivity.
Defined.

(** A cell that the parser rejects makes the flattening raise, whatever was
    done before. *)
Lemma convert_cells_Raise (L : Library) (opts : options) (c : node)
    (cells : list node) :
  In c cells -> text_without_nested L c = Raise ->
  forall idx, convert_cells L opts idx cells = Raise.
Proof.
  intros Hin Hc. induction cells as [|a cells IH]; [destruct Hin|].
  intros idx. cbn [convert_cells]. destruct Hin as [-> | Hin].
  - unfold convert_cell. rewrite Hc. reflexivity.
  - destruct (convert_cell L opts idx a) as [[[t b] i]|]; [|reflexivity].
    cbn [bind]. now rewrite (IH Hin).
Qed.

Lemma convert_rows_Raise (L : Library) (opts : options) (r c : node)
    (rows : list node) (width : nat) :
  In r rows -> In c (cells_in_row r) -> text_without_nested L c = Raise ->
  forall idx, convert_rows L opts width idx rows = Raise.
Proof.
  intros Hin Hc Hr. induction rows as [|a rows IH]; [destruct Hin|].
  intros idx. cbn [convert_rows]. destruct Hin as [-> | Hin].
  - now rewrite (convert_cells_Raise L opts c _ Hc Hr).
  - destruct (convert_cells L opts idx (cells_in_row a)) as [[[t b] i]|];
      [|reflexivity].
    cbn [bind]. now rewrite (IH Hin).
Qed.

Lemma rejected_cell_raises (L : Library) (opts : options) (r c : node)
    (rows : list node) :
  In r (body_rows_of rows) -> In c (cells_in_row r) ->
  text_without_nested L c = Raise ->
  flatten L opts rows = Raise.
Proof.
  intros Hin Hc Hr. unfold flatten, body_rows_of in *.
  destruct (existsb is_th (cells_in_row (hd (Text NavigableString []) rows))).
  - destruct (header_texts L (cells_in_row (hd (Text NavigableString []) rows)));
      [|reflexivity].
    cbn [bind]. now rewrite (convert_rows_Raise L opts r c _ _ Hin Hc Hr).
  - cbn [bind]. now rewrite (convert_rows_Raise L opts r c _ _ Hin Hc Hr).
Qed.

(** C9. When an exception leaves the 'append' flattening of a table -- as
    when the parser rejects a cell of a body row, see
    [rejected_cell_raises] -- the conversion of that table does not raise
    it: the table is given to the standard converter, and nothing of the
    work done so far is kept. *)
Theorem C9_failure_falls_back
    (L : Library) (opts : options) (table : node) (text : str)
    (convert_as_inline : bool) :
  preserve_tables_as_html opts = false ->
  find (lit "table") table <> None ->
  str_eqb (nested_table_handling opts) (lit "html") = false ->
  flatten L opts (iter_rows table) = Raise ->
  convert_table L opts table text convert_as_inline
  = super_convert_table L table text convert_as_inline.
Proof.
  intros Hp Hn Hh Hf. unfold convert_table, convert_table_try.
  rewrite Hp, Hh. destruct (find (lit "table") table); [|reflexivity].
  destruct (iter_rows table) as [|r rows].
  - discriminate Hf.
  - rewrite Hf. reflexivity.
Qed.

Lemma C9_witness :
  convert_table (limited 3) default_options example_table [] false
  = super_convert_table (limited 3) example_table [] false.
Proof.
  apply C9_failure_falls_back.
  - reflexivity.
  - vm_compute. discriminate.
  - vm_compute. reflexivity.
  - vm_compute. reflexivity.
Defined.

(* ===================================================================== *)
(** * Properties of the sanitizer and of the image rule *)
(* ===================================================================== *)

Section Substitution.

Variable r : regex.

Lemma search_bound (s : str) (p : nat) : search r s = Some p -> p <= length s.
Proof.
  revert p; induction s as [|c s IH]; intros p; simpl.
  - destruct (match_len r []); intros H; inversion H; lia.
  - destruct (match_len r (c :: s)); intros H; [inversion H; lia|].
    destruct (search r s) as [p'|]; simpl in H; inversion H; subst.
    specialize (IH p' eq_refl). lia.
Qed.

Lemma sub_from_length (s : str) : forall skip,
    length (sub_from r skip s) <= length s.
Proof.
  induction s as [|c s IH]; intros skip; simpl; [lia|].
  destruct skip as [|k].
  - destruct (match_len r (c :: s)) as [[|n]|]; simpl.
    + specialize (IH 0). lia.
    + specialize (IH n). lia.
    + specialize (IH 0). lia.
  - specialize (IH k). lia.
Qed.

(** Where nothing matches, [re.sub] changes nothing. *)
Lemma sub_no_match (s : str) : search r s = None -> sub r s = s.
Proof.
  unfold sub. induction s as [|c s IH]; simpl; [reflexivity|].
  destruct (match_len r (c :: s)); [discriminate|].
  destruct (search r s); [discriminate|]. intros _. now rewrite IH.
Qed.

Hypothesis first_is_Chr : starts_with_a_character r = true.

Lemma match_len_positive (s : str) (n : nat) :
  match_len r s = Some n -> 0 < n.
Proof.
  destruct r as [|[c| | |] r']; try discriminate.
  simpl. destruct s as [|x s]; [discriminate|].
  destruct (eqb_nocase x c); [|discriminate].
  destruct (match_len r' s); simpl; intros H; inversion H; lia.
Qed.

Lemma match_len_nil : match_len r [] = None.
Proof.
  destruct r as [|[c| | |] r']; try discriminate. reflexivity.
Qed.

(** Where something matches, [re.sub] makes the text shorter. *)
Lemma sub_shrinks (s : str) (p : nat) :
  search r s = Some p -> length (sub r s) < length s.
Proof.
  unfold sub. revert p; induction s as [|c s IH]; intros p; simpl.
  - now rewrite match_len_nil.
  - destruct (match_len r (c :: s)) as [[|n]|] eqn:E.
    + apply match_len_positive in E. lia.
    + intros _. pose proof (sub_from_length s n). lia.
    + destruct (search r s) as [p'|]; [|discriminate].
      intros _. specialize (IH p' eq_refl). simpl. lia.
Qed.

Lemma sub_fixed (s : str) : sub r s = s <-> no_match r s = true.
Proof.
  unfold no_match. split.
  - intros H. destruct (search r s) as [p|] eqn:E; [|reflexivity].
    apply sub_shrinks in E. rewrite H in E. lia.
  - destruct (search r s) eqn:E; [discriminate|]. intros _.
    now apply sub_no_match.
Qed.

Lemma search_match (s : str) (p : nat) :
  search r s = Some p -> exists n, match_len r (skipn p s) = Some n.
Proof.
  revert p; induction s as [|c s IH]; intros p; simpl.
  - destruct (match_len r []) as [n|] eqn:E; [|discriminate].
    intros H; inversion H; subst. simpl. eauto.
  - destruct (match_len r (c :: s)) as [n|] eqn:E.
    + intros H; inversion H; subst. simpl. eauto.
    + destruct (search r s) as [p'|]; [|discriminate].
      intros H; inversion H; subst. simpl. now apply IH.
Qed.

(** A match found by [re.search] starts before the end of the text. *)
Lemma search_inside (s : str) (p : nat) :
  search r s = Some p -> p < length s.
Proof.
  intros H. pose proof (search_bound _ _ H) as Hb.
  destruct (search_match _ _ H) as (n & Hn).
  destruct (Nat.eq_dec p (length s)) as [->|]; [|lia].
  rewrite skipn_all, match_len_nil in Hn. discriminate.
Qed.

End Substitution.

(** The [re.sub] calls one after the other. *)
Lemma removals_length (rs : list regex) : forall s,
    length (fold_left (fun html r => sub r html) rs s) <= length s.
Proof.
  induction rs as [|r rs IH]; intros s; simpl; [lia|].
  specialize (IH (sub r s)). pose proof (sub_from_length r s 0).
  unfold sub in *. lia.
Qed.

Lemma removals_fixed (rs : list regex) :
  forallb starts_with_a_character rs = true ->
  forall s,
    length (fold_left (fun html r => sub r html) rs s) = length s ->
    forallb (fun r => no_match r s) rs = true
    /\ fold_left (fun html r => sub r html) rs s = s.
Proof.
  induction rs as [|r rs IH]; intros Hrs s Hlen; simpl in *; [auto|].
  apply andb_true_iff in Hrs as [Hr Hrs].
  pose proof (removals_length rs (sub r s)) as H1.
  pose proof (sub_from_length r s 0) as H2. fold (sub r s) in H2.
  assert (Hs : sub r s = s).
  { destruct (search r s) as [p|] eqn:E.
    - apply (sub_shrinks r Hr) in E. lia.
    - now apply sub_no_match. }
  rewrite Hs in *. destruct (IH Hrs s Hlen) as [Hall Hfix].
  split; [|assumption].
  apply andb_true_iff. split; [|assumption].
  now apply (sub_fixed r Hr).
Qed.

Lemma removals_settled (rs : list regex) : forall s,
    forallb (fun r => no_match r s) rs = true ->
    fold_left (fun html r => sub r html) rs s = s.
Proof.
  induction rs as [|r rs IH]; intros s H; simpl in *; [reflexivity|].
  apply andb_true_iff in H as [Hr Hrs].
  unfold no_match in Hr. destruct (search r s) eqn:E; [discriminate|].
  rewrite (sub_no_match r s E). now apply IH.
Qed.

(** The sanitizer changes nothing exactly where nothing is left for it to
    do. *)
Lemma sanitizer_fixed (html : str) :
  _preprocess_html html = html <-> settled html = true.
Proof.
  unfold _preprocess_html, settled. split.
  - intros H.
    set (a := match search re_content html with
              | Some start_pos => skipn start_pos html
              | None => html
              end) in *.
    set (b := match search re_likes a with
              | Some end_pos => firstn end_pos a
              | None => a
              end) in *.
    assert (La : length a <= length html).
    { subst a. destruct (search re_content html); [|lia].
      rewrite length_skipn. lia. }
    assert (Lb : length b <= length a).
    { subst b. destruct (search re_likes a); [|lia].
      rewrite length_firstn. lia. }
    pose proof (removals_length removals b) as Lc.
    rewrite H in Lc.
    assert (Hb : length (fold_left (fun html r => sub r html) removals b)
                 = length b) by (rewrite H; lia).
    destruct (removals_fixed removals eq_refl b Hb) as [Hall Hfix].
    assert (Eb : b = html) by (rewrite <- Hfix; exact H).
    assert (Ea : a = html).
    { subst b. destruct (search re_likes a) as [p|] eqn:E; [|assumption].
      apply (search_inside re_likes eq_refl) in E.
      assert (length (firstn p a) = length html) by now rewrite Eb.
      rewrite length_firstn in *. lia. }
    rewrite Eb in Hall. rewrite Hall, andb_true_r.
    apply andb_true_iff. split.
    + subst a. destruct (search re_content html) as [[|p]|] eqn:E; auto.
      apply (search_inside re_content eq_refl) in E.
      assert (length (skipn (S p) html) = length html) by now rewrite Ea.
      rewrite length_skipn in *. lia.
    + subst b. rewrite Ea in *. unfold no_match.
      destruct (search re_likes html) as [p|] eqn:E; [|reflexivity].
      apply (search_inside re_likes eq_refl) in E.
      assert (length (firstn p html) = length html) by now rewrite Eb.
      rewrite length_firstn in *. lia.
  - intros H. apply andb_true_iff in H as [H Hall].
    apply andb_true_iff in H as [Ha Hb].
    assert (Ea : match search re_content html with
                 | Some start_pos => skipn start_pos html
                 | None => html
                 end = html).
    { destruct (search re_content html) as [[|p]|]; auto; discriminate. }
    rewrite Ea. unfold no_match in Hb.
    destruct (search re_likes html); [discriminate|].
    now apply removals_settled.
Qed.

(** C7, as the specification states it, fails: a stylesheet link whose
    inline style holds a [>] is not matched by the link pattern the first
    time; the style pattern then deletes the style, and the second run of
    the sanitizer deletes the link. *)
Lemma C7_counterexample :
  _preprocess_html styled_link = quoted "<link  rel='stylesheet'>"
  /\ _preprocess_html (_preprocess_html styled_link) = [].
Proof. split; vm_compute; reflexivity. Qed.

(** C7, amended. Sanitizing the sanitizer's output changes nothing exactly
    when that output leaves nothing for the sanitizer to do: no pattern of
    its [re.sub] calls and no likes-and-labels marker matches in it, and the
    content [div], if there is one, opens it. *)
Theorem C7_second_sanitizing (html : str) :
  _preprocess_html (_preprocess_html html) = _preprocess_html html
  <-> settled (_preprocess_html html) = true.
Proof. apply sanitizer_fixed. Qed.

(** C8, as the specification states it, fails: the sanitizer deletes the
    image before the parser sees the text, so the pipeline gives for the
    page with the image what it gives for the page without it. *)
Lemma C8_counterexample :
  _preprocess_html image_page = lit "<p>Logo:</p>"
  /\ (forall convert_soup,
         convert_string convert_soup image_page
         = convert_string convert_soup (lit "<p>Logo:</p>"))
  /\ convert_img default_options image_attrs (lit "p") [] false
     = lit "![logo](data:image/png;base64...)".
Proof.
  split; [|split].
  - vm_compute. reflexivity.
  - intros convert_soup. unfold convert_string.
    replace (_preprocess_html (_preprocess_html image_page))
      with (lit "<p>Logo:</p>") by (vm_compute; reflexivity).
    replace (_preprocess_html (_preprocess_html (lit "<p>Logo:</p>")))
      with (lit "<p>Logo:</p>") by (vm_compute; reflexivity).
    reflexivity.
  - vm_compute. reflexivity.
Qed.

(** C8, amended. An image whose source is a [data:image/png;base64,...] URI
    and which reaches the image rule with [keep_data_uris] off, not as an
    inline image to be replaced by its alt text, is written with the source
    cut to [data:image/png;base64...]. *)
Theorem C8_image_rule_truncates_data_uri
    (opts : options) (attrs : list (str * str)) (parent_name text : str)
    (convert_as_inline : bool) (payload : str) :
  keep_data_uris opts = false ->
  attr_get (lit "src") attrs
  = Some (lit "data:image/png;base64," ++ payload) ->
  convert_as_inline
  && negb (existsb (str_eqb parent_name) (keep_inline_images_in opts))
  = false ->
  let alt := attr_or_empty (lit "alt") attrs in
  let title := attr_or_empty (lit "title") attrs in
  let title_part :=
    if truthy title
    then [space; dquote] ++ replace dquote [backslash; dquote] title ++ [dquote]
    else [] in
  convert_img opts attrs parent_name text convert_as_inline
  = lit "![" ++ alt ++ lit "](" ++ lit "data:image/png;base64..."
    ++ title_part ++ lit ")".
Proof.
  intros Hk Hsrc Hin alt title title_part.
  assert (Hs : attr_or_empty (lit "src") attrs
               = lit "data:image/png;base64," ++ payload)
    by (unfold attr_or_empty; now rewrite Hsrc).
  unfold convert_img. rewrite Hin, Hk, Hs.
  fold alt. fold title. fold title_part.
  replace (startswith (lit "data:") (lit "data:image/png;base64," ++ payload))
    with true by reflexivity.
  replace (hd [] (split ","%char (lit "data:image/png;base64," ++ payload)))
    with (lit "data:image/png;base64").
  - cbn [andb negb]. rewrite <- !app_assoc. reflexivity.
  - unfold lit. cbn. reflexivity.
Qed.

Lemma C8_witness :
  let alt := attr_or_empty (lit "alt") image_attrs in
  let title := attr_or_empty (lit "title") image_attrs in
  let title_part :=
    if truthy title
    then [space; dquote] ++ replace dquote [backslash; dquote] title ++ [dquote]
    else [] in
  convert_img default_options image_attrs (lit "p") [] false
  = lit "![" ++ alt ++ lit "](" ++ lit "data:image/png;base64..."
    ++ title_part ++ lit ")".
Proof.
  apply (C8_image_rule_truncates_data_uri default_options image_attrs
           (lit "p") [] false (lit "iVBORw0=")); reflexivity.
Defined.

(* ===================================================================== *)
(** * Further properties of the table-row repair pass *)
(* ===================================================================== *)

(** X1. [_clean_table_row] is idempotent: a cleaned row is cleaned to
    itself. *)
Theorem X1_clean_row_twice (row : str) :
  _clean_table_row (_clean_table_row row) = _clean_table_row row.
Proof. exact (clean_row_idem row). Qed.

(** The parts of a cleaned row. *)
Lemma split_clean_row (row first : str) (mids : list str) (last : str) :
  split pipe row = first :: mids ++ [last] ->
  split pipe (_clean_table_row row) = first :: map clean_cell mids ++ [last].
Proof.
  intros Hs.
  assert (Hp : has_char pipe row = true).
  { destruct (has_char pipe row) eqn:E; [reflexivity|].
    apply has_char_false in E. rewrite (split_free _ _ E) in Hs.
    injection Hs as _ Hs. destruct mids; discriminate. }
  rewrite (clean_row_shape row first mids last Hp Hs).
  apply split_join; [discriminate|].
  apply cleaned_parts_free. rewrite <- Hs. apply split_parts_free.
Qed.

(** X2. [_clean_table_row] keeps the cells of a row in number and place:
    the row has as many pipes as before, the text before the first pipe and
    the text after the last one are as they were, and the row is a table
    row for the repair pass exactly if it was one. *)
Theorem X2_clean_row_keeps_the_cells (row : str) :
  count pipe (_clean_table_row row) = count pipe row
  /\ hd [] (split pipe (_clean_table_row row)) = hd [] (split pipe row)
  /\ List.last (split pipe (_clean_table_row row)) []
     = List.last (split pipe row) []
  /\ is_table_row (_clean_table_row row) = is_table_row row.
Proof.
  split; [apply clean_row_count|].
  split; [|split; [|apply clean_row_is_table_row]].
  - destruct (has_char pipe row) eqn:Hp.
    + destruct (split_shape row Hp) as (first & mids & last & Hs).
      rewrite (split_clean_row _ _ _ _ Hs), Hs. reflexivity.
    + rewrite (clean_row_plain row Hp). reflexivity.
  - destruct (has_char pipe row) eqn:Hp.
    + destruct (split_shape row Hp) as (first & mids & last & Hs).
      rewrite (split_clean_row _ _ _ _ Hs), Hs.
      rewrite !app_comm_cons, !last_last. reflexivity.
    + rewrite (clean_row_plain row Hp). reflexivity.
Qed.

(** X3. In a cleaned row every cell between two pipes is a text between
    two spaces; the text has no white space at its ends, no run of white
    space and no white space other than the space (so no line end). *)
Theorem X3_cleaned_cells_are_normal (row first : str) (mids : list str)
    (last : str) :
  split pipe (_clean_table_row row) = first :: mids ++ [last] ->
  Forall (fun cell =>
            exists x, cell = [space] ++ x ++ [space]
                      /\ strip x = x
                      /\ collapse_ws x = x
                      /\ forall c, In c x -> isspace c = true -> c = space)
         mids.
Proof.
  intros Hs.
  assert (Hp : has_char pipe row = true).
  { destruct (has_char pipe row) eqn:E; [reflexivity|].
    rewrite (clean_row_plain row E) in Hs.
    apply has_char_false in E. rewrite (split_free _ _ E) in Hs.
    injection Hs as _ Hs. destruct mids; discriminate. }
  destruct (split_shape row Hp) as (first' & mids' & last' & Hs').
  rewrite (split_clean_row _ _ _ _ Hs') in Hs.
  injection Hs as _ Hs. apply app_inj_tail in Hs as [Hs _]. subst mids.
  apply Forall_forall. intros cell Hc. apply in_map_iff in Hc as (m & <- & _).
  exists (collapse_ws (strip m)). split; [apply clean_cell_eq|].
  split; [apply strip_collapse, strip_idem|].
  split; [apply collapse_idem; auto|].
  intros c Hin Hsp. exact (collapse_blank_is_space _ _ _ Hin Hsp).
Qed.

Lemma X3_witness :
  Forall (fun cell =>
            exists x, cell = [space] ++ x ++ [space]
                      /\ strip x = x
                      /\ collapse_ws x = x
                      /\ forall c, In c x -> isspace c = true -> c = space)
         [lit " a b "; lit " c "].
Proof.
  apply (X3_cleaned_cells_are_normal (lit "|  a   b | c|") [] 
           [lit " a b "; lit " c "] []).
  reflexivity.
Defined.

(** The outer loop leaves lines alone when none of them is a table row. *)
Lemma fix_lines_plain (lines : list str) :
  forallb (fun l => negb (is_table_row l)) lines = true ->
  fix_lines lines = lines.
Proof.
  induction lines as [|line rest IH]; intros H.
  - now simp fix_lines.
  - cbn [forallb] in H. apply andb_prop in H as [Hl Hr].
    rewrite fix_lines_cons.
    apply negb_true_iff in Hl. rewrite Hl, (IH Hr). reflexivity.
Qed.

(** X4. A text none of whose lines is a table row (a line that, stripped,
    starts and ends with a pipe) is returned by [_fix_markdown_tables] as
    it is, pipes inside its lines or not. *)
Theorem X4_text_without_rows_is_unchanged (markdown_content : str) :
  forallb (fun l => negb (is_table_row l)) (split nl markdown_content) = true ->
  _fix_markdown_tables markdown_content = markdown_content.
Proof.
  intros H. unfold _fix_markdown_tables.
  rewrite (fix_lines_plain _ H). apply join_split.
Qed.

Lemma X4_witness :
  _fix_markdown_tables (text_of ["a | b"; ""; "c |"]%string)
  = text_of ["a | b"; ""; "c |"]%string.
Proof.
  apply (X4_text_without_rows_is_unchanged
           (text_of ["a | b"; ""; "c |"]%string)).
  vm_compute. reflexivity.
Defined.

(** The outer loop gives at most one line for each line. *)
Lemma fix_lines_length (lines : list str) :
  length (fix_lines lines) <= length lines.
Proof.
  induction lines as [lines IH] using lines_induction.
  destruct lines as [|line rest]; [now simp fix_lines|].
  rewrite fix_lines_cons. destruct (is_table_row line).
  - pose proof (absorb_shorter rest line) as Hs.
    specialize (IH (snd (absorb line rest))).
    cbn [length] in *. assert (length (snd (absorb line rest)) < S (length rest)) by lia.
    specialize (IH H). lia.
  - specialize (IH rest). cbn [length] in *.
    assert (length rest < S (length rest)) by lia. specialize (IH H). lia.
Qed.

(** X5. [_fix_markdown_tables] never adds a line: its result has at most
    as many newlines as the text, and is empty only if the text is. *)
Theorem X5_repair_adds_no_line (markdown_content : str) :
  count nl (_fix_markdown_tables markdown_content) <= count nl markdown_content
  /\ (_fix_markdown_tables markdown_content = [] -> markdown_content = []).
Proof.
  split.
  - pose proof (split_length nl (_fix_markdown_tables markdown_content)) as H1.
    pose proof (split_length nl markdown_content) as H2.
    rewrite split_fixed_text in H1.
    pose proof (fix_lines_length (split nl markdown_content)). lia.
  - intros H.
    destruct markdown_content as [|c s]; [reflexivity|exfalso].
    unfold _fix_markdown_tables in H. revert H.
    remember (c :: s) as md eqn:Hmd.
    destruct (split nl md) as [|line rest] eqn:Hs;
      [exact (False_ind _ (split_nonempty nl md Hs))|].
    rewrite fix_lines_cons.
    destruct (is_table_row line) eqn:Hrow.
    + intros H.
      assert (Hp : has_char pipe (_clean_table_row (fst (absorb line rest))) = true).
      { rewrite clean_row_has_pipe. apply absorb_has_pipe.
        unfold is_table_row in Hrow.
        apply andb_prop in Hrow as [Hrow _]. apply andb_prop in Hrow as [Hrow _].
        exact Hrow. }
      destruct (fix_lines (snd (absorb line rest))) as [|y ys] eqn:Hf.
      * cbn [join] in H. rewrite H in Hp. discriminate.
      * rewrite join_cons in H by discriminate.
        apply app_eq_nil in H as [H _]. rewrite H in Hp. discriminate.
    + intros H.
      destruct rest as [|l2 rest'].
      * simp fix_lines in H. cbn [join] in H. subst line.
        pose proof (join_split nl md) as J. rewrite Hs in J. cbn [join] in J.
        rewrite <- J in Hmd. discriminate.
      * assert (Hne : fix_lines (l2 :: rest') <> [])
          by (apply fix_lines_nonempty; discriminate).
        rewrite join_cons in H by exact Hne.
        apply app_eq_nil in H as [_ H]. discriminate.
Qed.

(** On the lines of a rectangular table the inner loop stops at once. *)
Lemma rectangular_stops (n : nat) (line x : str) :
  count pipe line = n ->
  negb (has_char pipe x) || (is_table_row x && (count pipe x =? n)) = true ->
  stops_absorbing line (strip x) = true.
Proof.
  intros Hn Hx. apply stops_true.
  apply orb_prop in Hx as [Hx|Hx].
  - right. right. rewrite has_pipe_strip. rewrite Hx. apply orb_true_r.
  - apply andb_prop in Hx as [Hrow Hc]. apply Nat.eqb_eq in Hc.
    unfold is_table_row in Hrow.
    apply andb_prop in Hrow as [Hrow He]. apply andb_prop in Hrow as [Hp Hst].
    right. left. rewrite has_pipe_strip, Hp, Hst, He, count_strip. cbn [andb].
    apply Nat.leb_le. lia.
Qed.

Lemma fix_lines_rectangular (n : nat) (lines : list str) :
  rectangular n lines = true ->
  fix_lines lines = map _clean_table_row lines.
Proof.
  unfold rectangular.
  induction lines as [|line rest IH]; intros H.
  - now simp fix_lines.
  - cbn [forallb] in H. apply andb_prop in H as [Hl Hr].
    rewrite fix_lines_cons. cbn [map].
    destruct (is_table_row line) eqn:Hrow.
    + assert (Hn : count pipe line = n).
      { apply orb_prop in Hl as [Hl|Hl].
        - unfold is_table_row in Hrow.
          apply andb_prop in Hrow as [Hrow _].
          apply andb_prop in Hrow as [Hrow _].
          rewrite Hrow in Hl. discriminate.
        - apply andb_prop in Hl as [_ Hl]. now apply Nat.eqb_eq in Hl. }
      rewrite (absorb_stopped line rest).
      * cbn [fst snd]. now rewrite (IH Hr).
      * intros x Hx. destruct rest as [|y rest']; [discriminate|].
        injection Hx as ->. cbn [forallb] in Hr.
        apply andb_prop in Hr as [Hy _].
        exact (rectangular_stops n line x Hn Hy).
    + rewrite (IH Hr). f_equal.
      apply orb_prop in Hl as [Hl|Hl].
      * apply negb_true_iff in Hl. now rewrite (clean_row_plain line Hl).
      * cbn [andb] in Hl. discriminate.
Qed.

(** X6. On a text whose lines with a pipe are all table rows of the same
    number of pipes, [_fix_markdown_tables] merges nothing: every line is
    cleaned by [_clean_table_row] in its place (which leaves a line
    without a pipe as it is). *)
Theorem X6_rectangular_table_is_cleaned_line_by_line (n : nat)
    (markdown_content : str) :
  rectangular n (split nl markdown_content) = true ->
  _fix_markdown_tables markdown_content
  = join [nl] (map _clean_table_row (split nl markdown_content)).
Proof.
  intros H. unfold _fix_markdown_tables.
  now rewrite (fix_lines_rectangular n _ H).
Qed.

Lemma X6_witness :
  _fix_markdown_tables untidy_table
  = join [nl] (map _clean_table_row (split nl untidy_table)).
Proof.
  apply (X6_rectangular_table_is_cleaned_line_by_line 3 untidy_table).
  vm_compute. reflexivity.
Defined.

(* ===================================================================== *)
(** * Further properties of the sanitizer *)
(* ===================================================================== *)

Lemma deleted_refl (s : str) : deleted_from s s.
Proof. induction s; constructor; assumption. Qed.

Lemma deleted_all (s : str) : deleted_from [] s.
Proof. induction s; constructor; assumption. Qed.

Lemma deleted_trans (a b c : str) :
  deleted_from a b -> deleted_from b c -> deleted_from a c.
Proof.
  intros H1 H2. revert a H1.
  induction H2 as [|x b c H2 IH|x b c H2 IH]; intros a H1.
  - exact H1.
  - inversion H1; subst.
    + apply deleted_keep. now apply IH.
    + apply deleted_drop. now apply IH.
  - apply deleted_drop. now apply IH.
Qed.

Lemma deleted_length (out s : str) :
  deleted_from out s -> length out <= length s.
Proof. induction 1; simpl; lia. Qed.

Lemma deleted_skipn (n : nat) (s : str) : deleted_from (skipn n s) s.
Proof.
  revert n; induction s as [|c s IH]; intros [|n]; simpl;
    try apply deleted_refl.
  apply deleted_drop, IH.
Qed.

Lemma deleted_firstn (n : nat) (s : str) : deleted_from (firstn n s) s.
Proof.
  revert n; induction s as [|c s IH]; intros [|n]; simpl;
    try apply deleted_all; try apply deleted_nil.
  apply deleted_keep, IH.
Qed.

(** [re.sub(r, '', s)] deletes characters. *)
Lemma deleted_sub_from (r : regex) (s : str) : forall skip,
    deleted_from (sub_from r skip s) s.
Proof.
  induction s as [|c s IH]; intros skip; simpl; [apply deleted_nil|].
  destruct skip as [|k].
  - destruct (match_len r (c :: s)) as [[|n]|].
    + apply deleted_keep, IH.
    + apply deleted_drop, IH.
    + apply deleted_keep, IH.
  - apply deleted_drop, IH.
Qed.

Lemma deleted_removals (rs : list regex) : forall s,
    deleted_from (fold_left (fun html r => sub r html) rs s) s.
Proof.
  induction rs as [|r rs IH]; intros s; simpl; [apply deleted_refl|].
  eapply deleted_trans; [apply IH|]. apply deleted_sub_from.
Qed.

(** X7. [_preprocess_html] only deletes: its result is the text with some
    of its characters taken out, the others in their order, so it is never
    longer than the text; and [convert_string] hands such a text to the
    parser. *)
Theorem X7_sanitizer_only_deletes (html_content : str) :
  deleted_from (_preprocess_html html_content) html_content
  /\ length (_preprocess_html html_content) <= length html_content
  /\ deleted_from (_preprocess_html (_preprocess_html html_content))
                  html_content.
Proof.
  assert (H : forall s, deleted_from (_preprocess_html s) s).
  { intros s. unfold _preprocess_html.
    eapply deleted_trans; [apply deleted_removals|].
    eapply deleted_trans.
    - destruct (search re_likes _); [apply deleted_firstn|apply deleted_refl].
    - destruct (search re_content s); [apply deleted_skipn|apply deleted_refl]. }
  split; [apply H|]. split; [apply deleted_length, H|].
  eapply deleted_trans; apply H.
Qed.

(** The matcher, unfolded by one character. *)
Lemma match_len_Star (k : class) (r : regex) (s : str) :
  match_len (Star k :: r) s
  = match s with
    | x :: s' =>
        if in_class k x then
          match match_len (Star k :: r) s' with
          | Some n => Some (S n)
          | None => match_len r s
          end
        else match_len r s
    | [] => match_len r []
    end.
Proof. destruct s; reflexivity. Qed.

Lemma match_len_Lazy (k : class) (r : regex) (s : str) :
  match_len (Lazy k :: r) s
  = match match_len r s with
    | Some n => Some n
    | None =>
        match s with
        | x :: s' => if in_class k x
                     then option_map S (match_len (Lazy k :: r) s')
                     else None
        | [] => None
        end
    end.
Proof. destruct s; reflexivity. Qed.

(** A match holds every character that the pattern asks for. *)
Lemma match_needs (r : regex) : forall s n c,
    match_len r s = Some n -> In (Chr c) r ->
    exists x, In x s /\ eqb_nocase x c = true.
Proof.
  induction r as [|a r IH]; intros s n c H Hin; [destruct Hin|].
  destruct a as [c0|k|k|c0].
  - simpl in H. destruct s as [|x s']; [discriminate|].
    destruct (eqb_nocase x c0) eqn:E; [|discriminate].
    destruct Hin as [Hin|Hin].
    + injection Hin as ->. exists x. split; [now left|exact E].
    + destruct (match_len r s') as [m|] eqn:Em; [|discriminate].
      destruct (IH _ _ _ Em Hin) as (y & Hy & Hc).
      exists y. split; [now right|exact Hc].
  - destruct Hin as [Hin|Hin]; [discriminate|].
    revert n H. induction s as [|x s' IHs]; intros n H;
      rewrite match_len_Star in H.
    + exact (IH _ _ _ H Hin).
    + destruct (in_class k x).
      * destruct (match_len (Star k :: r) s') as [m|] eqn:Em.
        -- destruct (IHs m eq_refl) as (y & Hy & Hc).
           exists y. split; [now right|exact Hc].
        -- exact (IH _ _ _ H Hin).
      * exact (IH _ _ _ H Hin).
  - destruct Hin as [Hin|Hin]; [discriminate|].
    revert n H. induction s as [|x s' IHs]; intros n H;
      rewrite match_len_Lazy in H.
    + destruct (match_len r []) as [m|] eqn:Em; [|discriminate].
      exact (IH _ _ _ Em Hin).
    + destruct (match_len r (x :: s')) as [m|] eqn:Em.
      * exact (IH _ _ _ Em Hin).
      * destruct (in_class k x); [|discriminate].
        destruct (match_len (Lazy k :: r) s') as [m|] eqn:El; [|discriminate].
        destruct (IHs m eq_refl) as (y & Hy & Hc).
        exists y. split; [now right|exact Hc].
  - destruct Hin as [Hin|Hin]; [discriminate|].
    simpl in H. destruct s as [|x s'].
    + exact (IH _ _ _ H Hin).
    + destruct (eqb_nocase x c0).
      * destruct (match_len r s') as [m|] eqn:Em.
        -- destruct (IH _ _ _ Em Hin) as (y & Hy & Hc).
           exists y. split; [now right|exact Hc].
        -- exact (IH _ _ _ H Hin).
      * exact (IH _ _ _ H Hin).
Qed.

(** A pattern that asks for a character the text does not hold matches
    nowhere. *)
Lemma search_needs (r : regex) (c : ascii) (s : str) :
  In (Chr c) r ->
  (forall x, In x s -> eqb_nocase x c = false) ->
  search r s = None.
Proof.
  intros Hin. induction s as [|y s IH]; intros Hs; simpl.
  - destruct (match_len r []) as [n|] eqn:E; [|reflexivity].
    destruct (match_needs _ _ _ _ E Hin) as (x & [] & _).
  - destruct (match_len r (y :: s)) as [n|] eqn:E.
    + destruct (match_needs _ _ _ _ E Hin) as (x & Hx & Hc).
      rewrite (Hs x Hx) in Hc. discriminate.
    + rewrite IH; [reflexivity|]. intros x Hx. apply Hs. now right.
Qed.

(** Only [<] is [<] and only the double quote is the double quote, whatever
    the case. *)
Lemma nocase_lt (x : ascii) : eqb_nocase x "<"%char = true -> x = "<"%char.
Proof.
  destruct x as [[] [] [] [] [] [] [] []]; vm_compute; intros H;
    try discriminate; reflexivity.
Qed.

Lemma nocase_dquote (x : ascii) : eqb_nocase x dquote = true -> x = dquote.
Proof.
  destruct x as [[] [] [] [] [] [] [] []]; vm_compute; intros H;
    try discriminate; reflexivity.
Qed.

Lemma absent_nocase (c : ascii) (s : str) :
  (forall x, eqb_nocase x c = true -> x = c) ->
  ~ In c s -> forall x, In x s -> eqb_nocase x c = false.
Proof.
  intros Hc Hs x Hx. destruct (eqb_nocase x c) eqn:E; [|reflexivity].
  apply Hc in E. subst x. contradiction.
Qed.

(** A text with no [<] and no double quote gives the sanitizer nothing to
    do. *)
Lemma plain_settled (html : str) :
  ~ In "<"%char html -> ~ In dquote html -> settled html = true.
Proof.
  intros Hlt Hq.
  pose proof (absent_nocase _ _ nocase_lt Hlt) as Ha.
  pose proof (absent_nocase _ _ nocase_dquote Hq) as Hb.
  assert (lt_first : forall r, In (Chr "<"%char) r -> search r html = None)
    by (intros r Hr; exact (search_needs r _ html Hr Ha)).
  unfold settled, no_match, removals. cbn [forallb].
  rewrite (lt_first re_content) by (cbv; left; reflexivity).
  rewrite (lt_first re_likes) by (cbv; left; reflexivity).
  rewrite (lt_first re_link) by (cbv; left; reflexivity).
  rewrite (lt_first re_style_block) by (cbv; left; reflexivity).
  rewrite (search_needs re_style_attr dquote html)
    by (first [exact Hb | cbv; do 6 right; left; reflexivity]).
  rewrite (lt_first re_drawio) by (cbv; left; reflexivity).
  rewrite (lt_first re_svg) by (cbv; left; reflexivity).
  rewrite (lt_first re_canvas) by (cbv; left; reflexivity).
  rewrite (lt_first re_viewer) by (cbv; left; reflexivity).
  rewrite (lt_first re_data_img) by (cbv; left; reflexivity).
  rewrite (lt_first re_evaluation) by (cbv; left; reflexivity).
  rewrite (lt_first re_diagram) by (cbv; left; reflexivity).
  reflexivity.
Qed.

(** X8. A text with no [<] and no double quote in it passes the sanitizer
    unchanged, so [convert_string] hands it to the parser as it is. *)
Theorem X8_plain_text_passes_the_sanitizer (html_content : str) :
  ~ In "<"%char html_content ->
  ~ In dquote html_content ->
  _preprocess_html html_content = html_content
  /\ forall convert_soup,
       convert_string convert_soup html_content
       = strip (convert_soup html_content).
Proof.
  intros Hlt Hq.
  assert (H : _preprocess_html html_content = html_content)
    by (apply sanitizer_fixed, plain_settled; assumption).
  split; [exact H|]. intros f. unfold convert_string. now rewrite !H.
Qed.

Lemma X8_witness :
  _preprocess_html prose = prose
  /\ forall convert_soup,
       convert_string convert_soup prose = strip (convert_soup prose).
Proof.
  apply (X8_plain_text_passes_the_sanitizer prose).
  - vm_compute. intuition discriminate.
  - vm_compute. intuition discriminate.
Defined.

(** X24. The two cuts of [_preprocess_html] are final: when the text has
    a content [div], the result is made of characters from the start of
    the first one on, and nothing of what is before it; and when what is
    left has the marker of the likes, the result is made of characters
    before the first one. *)
Theorem X24_text_outside_the_content_is_dropped (html_content : str)
    (start_pos : nat) :
  search re_content html_content = Some start_pos ->
  deleted_from (_preprocess_html html_content) (skipn start_pos html_content)
  /\ length (_preprocess_html html_content)
     <= length html_content - start_pos
  /\ forall end_pos,
       search re_likes (skipn start_pos html_content) = Some end_pos ->
       deleted_from (_preprocess_html html_content)
                    (firstn end_pos (skipn start_pos html_content)).
Proof.
  intros Hc. unfold _preprocess_html. rewrite Hc.
  assert (H : deleted_from
                (fold_left (fun html r => sub r html) removals
                   match search re_likes (skipn start_pos html_content) with
                   | Some end_pos => firstn end_pos (skipn start_pos html_content)
                   | None => skipn start_pos html_content
                   end)
                (skipn start_pos html_content)).
  { eapply deleted_trans; [apply deleted_removals|].
    destruct (search re_likes _); [apply deleted_firstn|apply deleted_refl]. }
  split; [exact H|]. split.
  - apply deleted_length in H. now rewrite length_skipn in H.
  - intros end_pos ->. apply deleted_removals.
Qed.

Lemma X24_witness :
  deleted_from (_preprocess_html framed_page) (skipn 11 framed_page)
  /\ length (_preprocess_html framed_page) <= length framed_page - 11
  /\ forall end_pos,
       search re_likes (skipn 11 framed_page) = Some end_pos ->
       deleted_from (_preprocess_html framed_page)
                    (firstn end_pos (skipn 11 framed_page)).
Proof.
  apply (X24_text_outside_the_content_is_dropped framed_page 11).
  vm_compute. reflexivity.
Defined.

(* ===================================================================== *)
(** * Further properties of the table sanitizer and of [convert_table] *)
(* ===================================================================== *)

(** ** The tree that [_sanitize_table_html] writes out *)

Lemma is_named_keep_allowed (names : list str) (top : bool) (n : node) :
  is_named names (keep_allowed top n) = is_named names n.
Proof. destruct n; reflexivity. Qed.

Lemma allowed_attrs_only (top : bool) (n : node) :
  forall d, In d (descendants (keep_allowed top n)) ->
            is_named table_tags d = true ->
            Forall (fun kv => In (fst kv) allowed) (attrs_of d).
Proof.
  revert top. induction n as [s|nm attrs cs IH] using node_induction;
    intros top d Hd Hn; [destruct Hd|].
  cbn [keep_allowed descendants] in Hd.
  apply in_flat_map in Hd as (c' & Hc' & Hd).
  apply in_map_iff in Hc' as (c & <- & Hc).
  rewrite Forall_forall in IH.
  destruct Hd as [<-|Hd]; [|exact (IH c Hc false d Hd Hn)].
  rewrite is_named_keep_allowed in Hn.
  destruct c as [s|nm' attrs' cs']; [discriminate|].
  cbn [keep_allowed attrs_of negb andb]. rewrite Hn.
  apply Forall_forall. intros kv Hkv. apply filter_In in Hkv as [_ Hkv].
  apply existsb_exists in Hkv as (a & Ha & Heq).
  apply str_eqb_eq in Heq. now rewrite Heq.
Qed.

(** X9. In the tree that [_sanitize_table_html] writes out, every [table],
    [thead], [tbody], [tfoot], [tr], [td], [th], [colgroup] and [col] has
    no attribute but [scope], [colspan] and [rowspan]. *)
Theorem X9_table_tags_keep_allowed_attributes_only (soup d : node) :
  In d (descendants (keep_allowed true (unwrap_wrappers soup))) ->
  is_named table_tags d = true ->
  Forall (fun kv => In (fst kv) allowed) (attrs_of d).
Proof. apply allowed_attrs_only. Qed.

Lemma X9_witness :
  Forall (fun kv => In (fst kv) allowed)
         (attrs_of (Tag (lit "td") [(lit "colspan", lit "2")]
                      [Tag (lit "a") [(lit "href", lit "u")] [txt "link"]])).
Proof.
  apply (X9_table_tags_keep_allowed_attributes_only (document [wrapped_table])).
  - vm_compute. right. right. left. reflexivity.
  - reflexivity.
Defined.

Lemma flat_map_map {A B C : Type} (f : A -> B) (g : B -> list C)
    (l : list A) :
  flat_map g (map f l) = flat_map (fun x => g (f x)) l.
Proof. induction l as [|x l IH]; simpl; [reflexivity|now rewrite IH]. Qed.

Lemma flat_map_flat_map {A B C : Type} (f : A -> list B) (g : B -> list C)
    (l : list A) :
  flat_map g (flat_map f l) = flat_map (fun x => flat_map g (f x)) l.
Proof.
  induction l as [|x l IH]; simpl; [reflexivity|].
  now rewrite flat_map_app, IH.
Qed.

Lemma flat_map_ext_Forall {A B : Type} (f g : A -> list B) (l : list A) :
  Forall (fun x => f x = g x) l -> flat_map f l = flat_map g l.
Proof. induction 1 as [|x l Hx _ IH]; simpl; [reflexivity|now rewrite Hx, IH]. Qed.

Lemma strings_keep_allowed (n : node) : forall top,
    strings (keep_allowed top n) = strings n.
Proof.
  induction n as [s|nm attrs cs IH] using node_induction; intros top;
    [reflexivity|].
  cbn [keep_allowed strings]. rewrite flat_map_map.
  apply flat_map_ext_Forall.
  eapply Forall_impl; [|exact IH]. intros c Hc. apply Hc.
Qed.

Lemma strings_unwrap_below (n : node) :
  flat_map strings (unwrap_below n) = strings n.
Proof.
  induction n as [s|nm attrs cs IH] using node_induction; [reflexivity|].
  assert (H : flat_map strings (flat_map unwrap_below cs) = flat_map strings cs).
  { rewrite flat_map_flat_map. now apply flat_map_ext_Forall. }
  cbn [unwrap_below]. destruct (is_wrapper (Tag nm attrs cs)).
  - exact H.
  - cbn [flat_map strings]. now rewrite app_nil_r.
Qed.

Lemma strings_unwrap_wrappers (soup : node) :
  strings (unwrap_wrappers soup) = strings soup.
Proof.
  destruct soup as [s|nm attrs cs]; [reflexivity|].
  cbn [unwrap_wrappers strings]. rewrite flat_map_flat_map.
  apply flat_map_ext_Forall, Forall_forall. intros c _.
  apply strings_unwrap_below.
Qed.

Lemma strings_of_class_keep_allowed (types : list string_class) (n : node) :
  forall top,
    strings_of_class types (keep_allowed top n) = strings_of_class types n.
Proof.
  induction n as [cls s|nm attrs cs IH] using node_induction; intros top;
    [reflexivity|].
  cbn [keep_allowed strings_of_class]. rewrite flat_map_map.
  apply flat_map_ext_Forall.
  eapply Forall_impl; [|exact IH]. intros c Hc. apply Hc.
Qed.

Lemma strings_of_class_unwrap_below (types : list string_class) (n : node) :
  flat_map (strings_of_class types) (unwrap_below n)
  = strings_of_class types n.
Proof.
  induction n as [cls s|nm attrs cs IH] using node_induction.
  - cbn [unwrap_below flat_map]. now rewrite app_nil_r.
  - assert (H : flat_map (strings_of_class types) (flat_map unwrap_below cs)
                = flat_map (strings_of_class types) cs).
    { rewrite flat_map_flat_map. now apply flat_map_ext_Forall. }
    cbn [unwrap_below]. destruct (is_wrapper (Tag nm attrs cs)).
    + exact H.
    + cbn [flat_map strings_of_class]. now rewrite app_nil_r.
Qed.

Lemma all_strings_sanitized (soup : node) :
  _all_strings (keep_allowed true (unwrap_wrappers soup)) = _all_strings soup.
Proof.
  destruct soup as [cls s|nm attrs cs]; [reflexivity|].
  unfold _all_strings.
  change (interesting_string_types
            (keep_allowed true (unwrap_wrappers (Tag nm attrs cs))))
    with (interesting_string_types (Tag nm attrs cs)).
  set (types := interesting_string_types (Tag nm attrs cs)).
  change (flat_map (strings_of_class types)
            (children (keep_allowed true (unwrap_wrappers (Tag nm attrs cs)))))
    with (strings_of_class types
            (keep_allowed true (unwrap_wrappers (Tag nm attrs cs)))).
  rewrite strings_of_class_keep_allowed.
  cbn [unwrap_wrappers strings_of_class children].
  rewrite flat_map_flat_map.
  apply flat_map_ext_Forall, Forall_forall. intros c _.
  apply strings_of_class_unwrap_below.
Qed.

Lemma find_all_children (names : list str) (nm : str)
    (attrs : list (str * str)) (cs : list node) :
  find_all names (Tag nm attrs cs)
  = flat_map (fun c => filter (is_named names) (c :: descendants c)) cs.
Proof.
  unfold find_all. cbn [descendants].
  induction cs as [|c cs IH]; [reflexivity|].
  cbn [flat_map]. now rewrite filter_app, IH.
Qed.

Lemma length_flat_map_ext {A B C : Type} (f : A -> list B) (g : A -> list C)
    (l : list A) :
  Forall (fun x => length (f x) = length (g x)) l ->
  length (flat_map f l) = length (flat_map g l).
Proof.
  induction 1 as [|x l Hx _ IH]; simpl; [reflexivity|].
  now rewrite !length_app, Hx, IH.
Qed.

Lemma tables_keep_allowed (n : node) : forall top,
    length (tables_at (keep_allowed top n)) = length (tables_at n).
Proof.
  unfold tables_at.
  induction n as [s|nm attrs cs IH] using node_induction; intros top;
    [reflexivity|].
  cbn [filter]. rewrite is_named_keep_allowed.
  assert (H : length (find_all [lit "table"] (keep_allowed top (Tag nm attrs cs)))
              = length (find_all [lit "table"] (Tag nm attrs cs))).
  { cbn [keep_allowed]. rewrite !find_all_children, flat_map_map.
    apply length_flat_map_ext.
    eapply Forall_impl; [|exact IH]. intros c Hc. apply (Hc false). }
  unfold find_all in H.
  destruct (is_named [lit "table"] (Tag nm attrs cs)); cbn [length];
    now rewrite H.
Qed.

Lemma wrapper_is_no_table (n : node) :
  is_wrapper n = true -> is_named [lit "table"] n = false.
Proof.
  unfold is_wrapper. intros H. apply andb_prop in H as [H _].
  destruct n as [s|nm attrs cs]; [reflexivity|].
  cbn [is_named existsb] in *. rewrite orb_false_r.
  destruct (str_eqb nm (lit "table")) eqn:E; [|reflexivity].
  apply str_eqb_eq in E. subst nm. discriminate.
Qed.

Lemma tables_unwrap_below (n : node) :
  length (flat_map tables_at (unwrap_below n)) = length (tables_at n).
Proof.
  induction n as [s|nm attrs cs IH] using node_induction; [reflexivity|].
  assert (H : length (flat_map tables_at (flat_map unwrap_below cs))
              = length (find_all [lit "table"] (Tag nm attrs cs))).
  { rewrite flat_map_flat_map, find_all_children.
    apply length_flat_map_ext. exact IH. }
  cbn [unwrap_below].
  destruct (is_wrapper (Tag nm attrs cs)) eqn:Hw.
  - rewrite H. unfold tables_at. cbn [filter].
    now rewrite (wrapper_is_no_table _ Hw).
  - cbn [flat_map]. rewrite app_nil_r. unfold tables_at at 1. cbn [filter].
    change (is_named [lit "table"] (Tag nm attrs (flat_map unwrap_below cs)))
      with (is_named [lit "table"] (Tag nm attrs cs)).
    assert (H' : length (filter (is_named [lit "table"])
                           (descendants (Tag nm attrs (flat_map unwrap_below cs))))
                 = length (find_all [lit "table"] (Tag nm attrs cs))).
    { rewrite <- H.
      change (filter (is_named [lit "table"])
                (descendants (Tag nm attrs (flat_map unwrap_below cs))))
        with (find_all [lit "table"] (Tag nm attrs (flat_map unwrap_below cs))).
      rewrite find_all_children. reflexivity. }
    unfold tables_at. cbn [filter]. unfold find_all in H'.
    destruct (is_named [lit "table"] (Tag nm attrs cs)); cbn [length];
      now rewrite H'.
Qed.

Lemma tables_unwrap_wrappers (soup : node) :
  length (find_all [lit "table"] (unwrap_wrappers soup))
  = length (find_all [lit "table"] soup).
Proof.
  destruct soup as [s|nm attrs cs]; [reflexivity|].
  cbn [unwrap_wrappers]. rewrite !find_all_children.
  change (fun c => filter (is_named [lit "table"]) (c :: descendants c))
    with tables_at.
  rewrite flat_map_flat_map. apply length_flat_map_ext, Forall_forall.
  intros c _. apply tables_unwrap_below.
Qed.

(** X10. The two steps of [_sanitize_table_html] on the tree, the
    unwrapping of the wrappers and the dropping of attributes, lose no text
    and no table: the strings of the tree, and so its text, are those of
    the tree that was parsed, and it has as many tables. *)
Theorem X10_sanitizing_keeps_text_and_tables (soup : node) :
  let sanitized := keep_allowed true (unwrap_wrappers soup) in
  strings sanitized = strings soup
  /\ get_text sanitized = get_text soup
  /\ length (find_all [lit "table"] sanitized)
     = length (find_all [lit "table"] soup).
Proof.
  cbn zeta.
  assert (Hs : strings (keep_allowed true (unwrap_wrappers soup))
               = strings soup)
    by (rewrite strings_keep_allowed; apply strings_unwrap_wrappers).
  split; [exact Hs|].
  split; [unfold get_text; now rewrite all_strings_sanitized|].
  transitivity (length (find_all [lit "table"] (unwrap_wrappers soup)));
    [|apply tables_unwrap_wrappers].
  pose proof (tables_keep_allowed (unwrap_wrappers soup) true) as H.
  unfold tables_at in H. cbn [filter] in H.
  rewrite is_named_keep_allowed in H. unfold find_all.
  destruct (is_named [lit "table"] (unwrap_wrappers soup));
    cbn [length] in H; lia.
Qed.

(** ** What [_sanitize_table_html] does when the library raises *)

(** Once [str(el)] has given a text, the sanitizer gives one. *)
Lemma sanitizer_gives_a_text (L : Library) (opts : options) (el : node)
    (html : str) :
  render L el = Ok html -> exists out, _sanitize_table_html L opts el = Ok out.
Proof.
  unfold _sanitize_table_html. intros ->. cbn [bind].
  destruct (negb (sanitize_tables_html opts)); [eauto|].
  destruct (reparse L el) as [soup|]; cbn [bind try_except]; [|eauto].
  destruct (render L (keep_allowed true (unwrap_wrappers soup)));
    cbn [try_except]; eauto.
Qed.

(** X11. [self._sanitize_table_html(str(el))] raises only if [str(el)]
    does. When [str(el)] gives [html], the result is [html] itself if the
    option [sanitize_tables_html] is off, if the parser raises, or if the
    sanitized tree cannot be written out; and else it is the sanitized
    tree written out. *)
Theorem X11_table_sanitizer_falls_back_to_its_input (L : Library)
    (opts : options) (el : node) :
  (render L el = Raise -> _sanitize_table_html L opts el = Raise)
  /\ forall html, render L el = Ok html ->
       exists out, _sanitize_table_html L opts el = Ok out
         /\ (sanitize_tables_html opts = false -> out = html)
         /\ (reparse L el = Raise -> out = html)
         /\ forall soup, sanitize_tables_html opts = true ->
              reparse L el = Ok soup ->
              match render L (keep_allowed true (unwrap_wrappers soup)) with
              | Ok written => out = written
              | Raise => out = html
              end.
Proof.
  unfold _sanitize_table_html. split; [intros ->; reflexivity|].
  intros html ->. cbn [bind].
  destruct (sanitize_tables_html opts); cbn [negb].
  - destruct (reparse L el) as [soup|]; cbn [bind try_except].
    + destruct (render L (keep_allowed true (unwrap_wrappers soup)))
        as [written|] eqn:E; cbn [try_except].
      * exists written. repeat split; try discriminate.
        intros soup' _ Hs. injection Hs as <-. now rewrite E.
      * exists html. repeat split; try discriminate.
        intros soup' _ Hs. injection Hs as <-. now rewrite E.
    + exists html. repeat split; discriminate.
  - exists html. repeat split; try discriminate.
Qed.

Lemma X11_witness :
  _sanitize_table_html (limited 3) default_options plain_table
  = Ok (write plain_table).
Proof.
  destruct (X11_table_sanitizer_falls_back_to_its_input (limited 3)
              default_options plain_table) as [_ H].
  destruct (H (write plain_table) eq_refl) as (out & Hout & _ & _ & Hs).
  specialize (Hs (document [plain_table]) eq_refl eq_refl).
  vm_compute in Hs. rewrite Hout, Hs. reflexivity.
Defined.

(** ** The branches of [convert_table] *)

(** X12. With [preserve_tables_as_html], and for a table with a table
    inside under the strategy ['html'], [convert_table] gives the table as
    sanitized HTML between two blank lines whenever [str(el)] succeeds:
    neither the flattener nor the standard converter is used, and a
    failure of the parser does not change that. *)
Theorem X12_html_modes_give_sanitized_html (L : Library) (opts : options)
    (el : node) (text : str) (convert_as_inline : bool) (html : str) :
  preserve_tables_as_html opts = true
  \/ (find (lit "table") el <> None
      /\ str_eqb (nested_table_handling opts) (lit "html") = true) ->
  render L el = Ok html ->
  exists out,
    _sanitize_table_html L opts el = Ok out
    /\ convert_table L opts el text convert_as_inline
       = Ok ([nl; nl] ++ out ++ [nl; nl]).
Proof.
  intros Hmode Hr.
  destruct (sanitizer_gives_a_text L opts el html Hr) as (out & Hout).
  exists out. split; [exact Hout|].
  unfold convert_table, convert_table_try.
  destruct (preserve_tables_as_html opts) eqn:Ep.
  - rewrite Hout. reflexivity.
  - destruct Hmode as [Hmode|[Hn Hh]]; [discriminate|].
    destruct (find (lit "table") el); [|contradiction].
    rewrite Hh, Hout. reflexivity.
Qed.

Lemma X12_witness :
  exists out,
    _sanitize_table_html ideal html_options wrapped_table = Ok out
    /\ convert_table ideal html_options wrapped_table [] false
       = Ok ([nl; nl] ++ out ++ [nl; nl]).
Proof.
  apply (X12_html_modes_give_sanitized_html ideal html_options wrapped_table
           [] false (write wrapped_table)).
  - left. reflexivity.
  - reflexivity.
Defined.

(* ===================================================================== *)
(** * Further properties of the table flattener and of the image rule *)
(* ===================================================================== *)

(** X13. A table with a table inside for which [iter_rows] finds no row
    is converted to the empty text by the 'append' strategy, whatever the
    table holds and whatever the library does: so it is when the table has
    a [thead] without rows and no [tbody], its rows being children of the
    table itself. *)
Theorem X13_table_without_rows_gives_nothing (L : Library) (opts : options)
    (el : node) (text : str) (convert_as_inline : bool) :
  preserve_tables_as_html opts = false ->
  find (lit "table") el <> None ->
  str_eqb (nested_table_handling opts) (lit "html") = false ->
  iter_rows el = [] ->
  convert_table L opts el text convert_as_inline = Ok [].
Proof.
  intros Hp Hn Hh Hr. unfold convert_table, convert_table_try.
  rewrite Hp. destruct (find (lit "table") el); [|contradiction].
  rewrite Hh, Hr. reflexivity.
Qed.

Lemma X13_witness :
  convert_table ideal default_options headless_table [] false = Ok []
  /\ get_text headless_table = lit "kept? n".
Proof.
  split; [|reflexivity].
  apply (X13_table_without_rows_gives_nothing ideal default_options
           headless_table [] false).
  - reflexivity.
  - vm_compute. discriminate.
  - reflexivity.
  - reflexivity.
Defined.

(** X14. The 'append' strategy fails only through the library: when
    [str] and the parser raise on no node, a table with a table inside is
    converted by the flattener, to the empty text if it has no rows and to
    the flat table else, and the standard converter is not used. *)
Theorem X14_flattener_succeeds_when_the_library_does (L : Library)
    (opts : options) (el : node) (text : str) (convert_as_inline : bool) :
  (forall n, exists s, render L n = Ok s) ->
  (forall n, exists d, reparse L n = Ok d) ->
  preserve_tables_as_html opts = false ->
  find (lit "table") el <> None ->
  str_eqb (nested_table_handling opts) (lit "html") = false ->
  exists out,
    convert_table L opts el text convert_as_inline = Ok out
    /\ (iter_rows el = [] -> out = [])
    /\ (iter_rows el <> [] ->
        exists f, flatten L opts (iter_rows el) = Ok f /\ out = flat_output f).
Proof.
  intros Hrender Hparse Hp Hn Hh. unfold convert_table, convert_table_try.
  rewrite Hp. destruct (find (lit "table") el); [|contradiction].
  rewrite Hh. destruct (iter_rows el) as [|r rows] eqn:Hr.
  - exists []. repeat split. intros H. contradiction.
  - destruct (flatten_succeeds L opts Hrender Hparse (r :: rows)) as (f & Hf).
    rewrite Hf. cbn [bind]. exists (flat_output f).
    repeat split; [discriminate|]. intros _. now exists f.
Qed.

Lemma X14_witness :
  exists out,
    convert_table ideal default_options example_table [] false = Ok out
    /\ (iter_rows example_table = [] -> out = [])
    /\ (iter_rows example_table <> [] ->
        exists f, flatten ideal default_options (iter_rows example_table) = Ok f
                  /\ out = flat_output f).
Proof.
  apply (X14_flattener_succeeds_when_the_library_does ideal default_options
           example_table [] false).
  - intros n. eexists. reflexivity.
  - intros n. eexists. reflexivity.
  - reflexivity.
  - vm_compute. discriminate.
  - reflexivity.
Defined.

(** X15. A nested table with no table inside and at least one row is
    converted to Markdown by [convert_nested_table_to_markdown] without the
    library and without the options: the result does not depend on them,
    and it is not an exception. *)
Theorem X15_simple_nested_table_needs_no_library (table_tag : node)
    (L1 L2 : Library) (opts1 opts2 : options) :
  find (lit "table") table_tag = None ->
  iter_rows table_tag <> [] ->
  convert_nested_table_to_markdown L1 opts1 table_tag
  = convert_nested_table_to_markdown L2 opts2 table_tag
  /\ exists md, convert_nested_table_to_markdown L1 opts1 table_tag = Ok md.
Proof.
  intros Hn Hr. unfold convert_nested_table_to_markdown. rewrite Hn.
  destruct (iter_rows table_tag) as [|r rows]; [contradiction|].
  cbn [try_except]. split; [reflexivity|eauto].
Qed.

Lemma X15_witness :
  convert_nested_table_to_markdown ideal default_options simple_nested
  = convert_nested_table_to_markdown (limited 0) html_options simple_nested
  /\ exists md,
       convert_nested_table_to_markdown ideal default_options simple_nested
       = Ok md.
Proof.
  apply (X15_simple_nested_table_needs_no_library simple_nested ideal
           (limited 0) default_options html_options).
  - reflexivity.
  - vm_compute. discriminate.
Defined.

(** ** Pipes in the cells of the flat table *)

Lemma bare_pipe_free (s : str) : forall b, ~ In pipe s -> bare_pipe b s = false.
Proof.
  induction s as [|c s IH]; intros b H; [reflexivity|].
  cbn [bare_pipe].
  destruct (Ascii.eqb c pipe) eqn:E.
  - apply Ascii.eqb_eq in E. subst c. exfalso. apply H. now left.
  - cbn [andb orb]. apply IH. intros Hin. apply H. now right.
Qed.

Lemma bare_pipe_app (a t : str) : forall b,
    bare_pipe b a = false -> ~ In pipe t -> bare_pipe b (a ++ t) = false.
Proof.
  induction a as [|c a IH]; intros b Ha Ht.
  - now apply bare_pipe_free.
  - cbn [app bare_pipe] in *. apply orb_false_iff in Ha as [H1 H2].
    rewrite H1. cbn [orb]. now apply IH.
Qed.

Lemma bare_pipe_escape (s : str) : forall b,
    bare_pipe b (escape_pipes s) = false.
Proof.
  unfold escape_pipes, replace.
  induction s as [|c s IH]; intros b; [reflexivity|].
  cbn [flat_map]. destruct (Ascii.eqb c pipe) eqn:E.
  - cbn [app bare_pipe]. rewrite IH. reflexivity.
  - cbn [app bare_pipe]. rewrite E, IH. reflexivity.
Qed.

Lemma digits_no_pipe (u : Decimal.uint) :
  has_char pipe (lit (NilEmpty.string_of_uint u)) = false.
Proof. induction u; cbn; auto. Qed.

Lemma has_char_app (c : ascii) (a b : str) :
  has_char c (a ++ b) = has_char c a || has_char c b.
Proof. apply existsb_app. Qed.

Lemma reference_no_pipe (start_idx last_idx : nat) :
  has_char pipe (reference start_idx last_idx) = false.
Proof.
  unfold reference, str_of_nat.
  destruct (start_idx =? last_idx); rewrite !has_char_app, !digits_no_pipe;
    reflexivity.
Qed.

Lemma marked_no_bare_pipe (raw : str) (idx k : nat) :
  bare_pipe false (marked (escape_pipes raw) idx k) = false.
Proof.
  destruct k as [|k]; cbn [marked]; [apply bare_pipe_escape|].
  unfold with_reference.
  destruct (truthy (escape_pipes raw)).
  - apply bare_pipe_app; [apply bare_pipe_escape|].
    apply has_char_false. rewrite !has_char_app, reference_no_pipe.
    reflexivity.
  - apply bare_pipe_free, has_char_false, reference_no_pipe.
Qed.

Lemma cell_texts_no_bare_pipe (cells : list node) : forall idx raws,
    Forall (fun t => bare_pipe false t = false) (cell_texts idx cells raws).
Proof.
  induction cells as [|c cells IH]; intros idx [|raw raws]; cbn [cell_texts];
    constructor; [apply marked_no_bare_pipe|apply IH].
Qed.

Lemma pad_truncate_Forall (P : str -> Prop) (texts : list str) (width : nat) :
  P [] -> Forall P texts -> Forall P (pad_truncate texts width).
Proof.
  intros Hnil H. rewrite pad_truncate_eq. apply Forall_app. split.
  - rewrite <- (firstn_skipn width texts) in H.
    now apply Forall_app in H as [H _].
  - apply Forall_forall. intros x Hx. apply repeat_spec in Hx. now subst.
Qed.

Lemma row_texts_no_bare_pipe (width : nat) (rows : list node) :
  forall idx raws,
    Forall (Forall (fun t => bare_pipe false t = false))
           (row_texts width idx rows raws).
Proof.
  induction rows as [|r rows IH]; intros idx [|raw raws]; cbn [row_texts];
    constructor; [|apply IH].
  apply pad_truncate_Forall; [reflexivity|apply cell_texts_no_bare_pipe].
Qed.

Lemma header_texts_no_bare_pipe (L : Library) (cells : list node) :
  forall header, header_texts L cells = Ok header ->
                 Forall (fun t => bare_pipe false t = false) header.
Proof.
  induction cells as [|c cells IH]; intros header H; cbn [header_texts] in H.
  - injection H as <-. constructor.
  - apply bind_Ok in H as (raw & _ & H).
    apply bind_Ok in H as (texts & Ht & H). injection H as <-.
    constructor; [|exact (IH _ Ht)].
    unfold or_blank. destruct (truthy (escape_pipes raw));
      [apply bare_pipe_escape|reflexivity].
Qed.

(** X16. No cell of the flat table holds a pipe without a backslash just
    before it: the escaping covers the text of every header and body cell,
    and the reference markers and the padding add no pipe. *)
Theorem X16_cells_hold_no_bare_pipe (L : Library) (opts : options)
    (rows : list node) (f : flat) :
  flatten L opts rows = Ok f ->
  Forall (fun t => bare_pipe false t = false) (header_cells f)
  /\ Forall (Forall (fun t => bare_pipe false t = false)) (body_texts f).
Proof.
  intros H. destruct (flatten_Ok L opts rows f H)
    as (raws & mds & _ & _ & Hh & _ & Hb & _).
  split.
  - destruct (existsb is_th (cells_in_row (hd (Text NavigableString []) rows))).
    + exact (header_texts_no_bare_pipe L _ _ Hh).
    + rewrite Hh. apply Forall_forall. intros x Hx.
      apply repeat_spec in Hx. now subst.
  - rewrite Hb. apply row_texts_no_bare_pipe.
Qed.

Lemma X16_witness :
  Forall (fun t => bare_pipe false t = false) (header_cells example_flat)
  /\ Forall (Forall (fun t => bare_pipe false t = false))
            (body_texts example_flat).
Proof.
  apply (X16_cells_hold_no_bare_pipe ideal default_options
           (iter_rows example_table) example_flat).
  reflexivity.
Defined.

(** ** The image rule on any data URI *)

Lemma split_hd (c : ascii) (s : str) :
  s = hd [] (split c s) \/ exists rest, s = hd [] (split c s) ++ c :: rest.
Proof.
  pose proof (join_split c s) as J.
  destruct (split c s) as [|p [|p' ps]] eqn:E.
  - exact (False_ind _ (split_nonempty c s E)).
  - left. cbn [join hd] in *. now symmetry.
  - right. rewrite join_cons in J by discriminate.
    exists (join [c] (p' :: ps)). cbn [hd]. now symmetry.
Qed.

(** X17. For an image whose [src] starts with [data:], of whatever media
    type, and with [keep_data_uris] off, [convert_img] writes the [src] up
    to its first comma (the whole of it if it has none), then [...]; of
    the payload after the comma it writes nothing. *)
Theorem X17_data_uri_is_cut_at_the_first_comma (opts : options)
    (attrs : list (str * str)) (parent_name text : str)
    (convert_as_inline : bool) (src : str) :
  keep_data_uris opts = false ->
  attr_get (lit "src") attrs = Some src ->
  startswith (lit "data:") src = true ->
  convert_as_inline
  && negb (existsb (str_eqb parent_name) (keep_inline_images_in opts))
  = false ->
  exists kept,
    ~ In ","%char kept
    /\ (src = kept \/ exists payload, src = kept ++ ","%char :: payload)
    /\ convert_img opts attrs parent_name text convert_as_inline
       = lit "![" ++ attr_or_empty (lit "alt") attrs ++ lit "](" ++ kept
         ++ lit "..."
         ++ (if truthy (attr_or_empty (lit "title") attrs)
             then [space; dquote]
                  ++ replace dquote [backslash; dquote]
                       (attr_or_empty (lit "title") attrs)
                  ++ [dquote]
             else [])
         ++ lit ")".
Proof.
  intros Hk Hs Hd Hi. exists (hd [] (split ","%char src)).
  split; [|split; [apply split_hd|]].
  - pose proof (split_parts_free ","%char src) as F.
    destruct (split ","%char src) as [|p ps]; [intros []|].
    now inversion F.
  - assert (Hsrc : attr_or_empty (lit "src") attrs = src)
      by (unfold attr_or_empty; now rewrite Hs).
    unfold convert_img. rewrite Hi, Hsrc, Hd, Hk. cbn [negb andb].
    now rewrite <- !app_assoc.
Qed.

Lemma X17_witness :
  exists kept,
    ~ In ","%char kept
    /\ (lit "data:text/plain,hello,world" = kept
        \/ exists payload,
             lit "data:text/plain,hello,world" = kept ++ ","%char :: payload)
    /\ convert_img default_options
         [(lit "src", lit "data:text/plain,hello,world")] (lit "p") [] false
       = lit "![" ++ [] ++ lit "](" ++ kept ++ lit "..." ++ [] ++ lit ")".
Proof.
  apply (X17_data_uri_is_cut_at_the_first_comma default_options
           [(lit "src", lit "data:text/plain,hello,world")] (lit "p") []
           false (lit "data:text/plain,hello,world"));
    reflexivity.
Defined.

(* ===================================================================== *)
(** * Properties of the Markdown and the file name that [main] returns *)
(* ===================================================================== *)

(** ** The lines without their trailing white space *)

Lemma startswith_cons (a b : ascii) (p s : str) :
  startswith (a :: p) (b :: s) = Ascii.eqb a b && startswith p s.
Proof. reflexivity. Qed.

Lemma contains_step (sub : str) (c : ascii) (s : str) :
  contains sub (c :: s) = startswith sub (c :: s) || contains sub s.
Proof. reflexivity. Qed.

Lemma rstrip_cons_eq (c : ascii) (p q : str) :
  rstrip p = rstrip q -> rstrip (c :: p) = rstrip (c :: q).
Proof. unfold rstrip. cbn [rstrip_by]. now intros ->. Qed.

(** The carriage return before a newline is white space at the end of a
    line. *)
Lemma split_lines_rstrip (s : str) :
  map rstrip (split_lines s) = map rstrip (split nl s).
Proof.
  induction s as [|x s IH]; [reflexivity|].
  cbn [split_lines split].
  destruct (Ascii.eqb x nl) eqn:E; [cbn [map]; now rewrite IH|].
  destruct (Ascii.eqb x cr && startswith [nl] s) eqn:Ec.
  - apply andb_prop in Ec as [Ex Es]. apply Ascii.eqb_eq in Ex. subst x.
    destruct s as [|y s']; [discriminate|].
    rewrite startswith_cons in Es. apply andb_prop in Es as [Ey _].
    apply Ascii.eqb_eq in Ey. subst y.
    rewrite IH. cbn [split]. rewrite Ascii.eqb_refl. reflexivity.
  - destruct (split_lines s) as [|p ps], (split nl s) as [|q qs];
      cbn [map] in *; try discriminate; [reflexivity|].
    injection IH as Hp Hps. now rewrite (rstrip_cons_eq x p q Hp), Hps.
Qed.

(** X18. In the step of [main] that strips the lines, the optional
    carriage return of the pattern [\r?\n] makes no difference: the text
    is the one got by splitting at the newlines alone. *)
Theorem X18_carriage_return_is_stripped_anyway (markdown : str) :
  rstrip_lines markdown = join [nl] (map rstrip (split nl markdown)).
Proof. unfold rstrip_lines. now rewrite split_lines_rstrip. Qed.

Lemma rstrip_lines_split (markdown : str) :
  split nl (rstrip_lines markdown) = map rstrip (split nl markdown).
Proof.
  unfold rstrip_lines. rewrite split_lines_rstrip. apply split_join.
  - pose proof (split_nonempty nl markdown).
    destruct (split nl markdown); [contradiction|discriminate].
  - apply Forall_forall. intros p Hp. apply in_map_iff in Hp as (l & <- & Hl).
    pose proof (split_parts_free nl markdown) as F.
    rewrite Forall_forall in F. intros Hin. apply (F l Hl).
    exact (rstrip_by_incl _ _ _ Hin).
Qed.

(** X19. The text with its lines stripped has the lines of the text, each
    without its trailing white space: as many lines, and none that ends
    in white space. *)
Theorem X19_stripped_lines (markdown : str) :
  split nl (rstrip_lines markdown) = map rstrip (split nl markdown)
  /\ count nl (rstrip_lines markdown) = count nl markdown
  /\ Forall (fun l => rstrip l = l) (split nl (rstrip_lines markdown)).
Proof.
  pose proof (rstrip_lines_split markdown) as H.
  split; [exact H|]. split.
  - pose proof (split_length nl (rstrip_lines markdown)) as H1.
    pose proof (split_length nl markdown) as H2.
    rewrite H, length_map in H1. lia.
  - rewrite H. apply Forall_forall. intros p Hp.
    apply in_map_iff in Hp as (l & <- & _). apply rstrip_by_idem.
Qed.

(** ** The runs of newlines *)

Lemma startswith_longer (a : ascii) (p s : str) :
  startswith [a] s = false -> startswith (a :: p) s = false.
Proof.
  destruct s as [|b s]; [reflexivity|]. rewrite !startswith_cons.
  cbn [startswith]. rewrite andb_true_r. now intros ->.
Qed.

Lemma collapse_newlines_runs (s : str) : forall seen,
    contains [nl; nl; nl] (collapse_newlines_from seen s) = false
    /\ startswith
         (match seen with 0 => [nl; nl; nl] | 1 => [nl; nl] | _ => [nl] end)
         (collapse_newlines_from seen s) = false.
Proof.
  induction s as [|c s IH]; intros seen.
  - destruct seen as [|[|k]]; split; reflexivity.
  - cbn [collapse_newlines_from].
    destruct (Ascii.eqb c nl) eqn:E.
    + destruct seen as [|[|k]].
      * change (0 <? 2) with true. cbv iota.
        destruct (IH 1) as [H1 H2].
        rewrite contains_step, !startswith_cons, H1, H2, Ascii.eqb_refl.
        split; reflexivity.
      * change (1 <? 2) with true. cbv iota.
        destruct (IH 2) as [H1 H2].
        rewrite contains_step, !startswith_cons, H1, H2, Ascii.eqb_refl.
        rewrite (startswith_longer nl [nl] _ H2).
        split; reflexivity.
      * change (S (S k) <? 2) with false. cbv iota.
        destruct (IH (S (S (S k)))) as [H1 H2]. split; assumption.
    + assert (E' : Ascii.eqb nl c = false) by (now rewrite Ascii.eqb_sym).
      destruct (IH 0) as [H1 _].
      rewrite contains_step, !startswith_cons, E', H1.
      destruct seen as [|[|k]]; rewrite startswith_cons, E';
        split; reflexivity.
Qed.

Lemma collapse_newlines_fixed (s : str) : forall seen,
    startswith
      (match seen with 0 => [nl; nl; nl] | 1 => [nl; nl] | _ => [nl] end)
      s = false ->
    contains [nl; nl; nl] s = false ->
    collapse_newlines_from seen s = s.
Proof.
  induction s as [|c s IH]; intros seen Hs Hc; [reflexivity|].
  cbn [collapse_newlines_from].
  rewrite contains_step in Hc. apply orb_false_iff in Hc as [Hc1 Hc2].
  destruct (Ascii.eqb c nl) eqn:E.
  - apply Ascii.eqb_eq in E. subst c.
    rewrite startswith_cons, Ascii.eqb_refl in Hc1. cbn [andb] in Hc1.
    destruct seen as [|[|k]].
    + change (0 <? 2) with true. cbv iota. now rewrite (IH 1).
    + change (1 <? 2) with true. cbv iota.
      rewrite startswith_cons, Ascii.eqb_refl in Hs. cbn [andb] in Hs.
      now rewrite (IH 2).
    + rewrite startswith_cons, Ascii.eqb_refl in Hs. discriminate.
  - rewrite (IH 0); [reflexivity| |exact Hc2].
    destruct s as [|d s']; [reflexivity|].
    rewrite contains_step in Hc2. now apply orb_false_iff in Hc2 as [Hc2 _].
Qed.

Lemma collapse_newlines_others (s : str) : forall seen,
    filter (fun c => negb (Ascii.eqb c nl)) (collapse_newlines_from seen s)
    = filter (fun c => negb (Ascii.eqb c nl)) s.
Proof.
  induction s as [|c s IH]; intros seen; [reflexivity|].
  cbn [collapse_newlines_from filter].
  destruct (Ascii.eqb c nl) eqn:E; cbn [negb].
  - destruct (seen <? 2); [cbn [filter]; rewrite Ascii.eqb_refl; cbn [negb]|];
      apply IH.
  - cbn [filter]. rewrite E. cbn [negb]. now rewrite IH.
Qed.

(** X20. The step of [main] that collapses the blank lines leaves no
    three newlines in a row; it takes away newlines only; and a text with
    no three newlines in a row is left as it is, so the step is
    idempotent. *)
Theorem X20_blank_lines_are_collapsed (s : str) :
  contains [nl; nl; nl] (collapse_newlines s) = false
  /\ filter (fun c => negb (Ascii.eqb c nl)) (collapse_newlines s)
     = filter (fun c => negb (Ascii.eqb c nl)) s
  /\ (contains [nl; nl; nl] s = false -> collapse_newlines s = s)
  /\ collapse_newlines (collapse_newlines s) = collapse_newlines s.
Proof.
  unfold collapse_newlines.
  destruct (collapse_newlines_runs s 0) as [H1 H2].
  split; [exact H1|]. split; [apply collapse_newlines_others|].
  assert (F : forall t, contains [nl; nl; nl] t = false ->
                        collapse_newlines_from 0 t = t).
  { intros t Ht. apply collapse_newlines_fixed; [|exact Ht].
    destruct t as [|d t']; [reflexivity|].
    rewrite contains_step in Ht. now apply orb_false_iff in Ht as [Ht _]. }
  split; [apply F|]. now apply F.
Qed.

(** ** The lines of the body *)

Lemma rstrip_fixed_tail (c : ascii) (q : str) :
  rstrip (c :: q) = c :: q -> rstrip q = q.
Proof.
  unfold rstrip. cbn [rstrip_by].
  destruct (rstrip_by isspace q) as [|r rs] eqn:E.
  - destruct (isspace c); [discriminate|]. intros H. now injection H as <-.
  - intros H. now injection H as <-.
Qed.

Lemma collapse_newlines_first_line (s : str) : forall seen,
    seen < 2 ->
    hd [] (split nl (collapse_newlines_from seen s)) = hd [] (split nl s).
Proof.
  induction s as [|c s IH]; intros seen Hk; [reflexivity|].
  cbn [collapse_newlines_from].
  destruct (Ascii.eqb c nl) eqn:E.
  - apply Nat.ltb_lt in Hk. rewrite Hk. cbn [split].
    rewrite Ascii.eqb_refl, E. reflexivity.
  - cbn [split]. rewrite E. specialize (IH 0 ltac:(lia)).
    pose proof (split_nonempty nl (collapse_newlines_from 0 s)) as N1.
    pose proof (split_nonempty nl s) as N2.
    destruct (split nl (collapse_newlines_from 0 s)) as [|p ps];
      [contradiction|].
    destruct (split nl s) as [|q qs]; [contradiction|].
    cbn [hd] in *. now rewrite IH.
Qed.

Lemma collapse_newlines_lines (s : str) : forall seen,
    Forall (fun l => rstrip l = l) (split nl s) ->
    Forall (fun l => rstrip l = l) (split nl (collapse_newlines_from seen s)).
Proof.
  induction s as [|c s IH]; intros seen H; [exact H|].
  cbn [collapse_newlines_from]. cbn [split] in H.
  destruct (Ascii.eqb c nl) eqn:E.
  - inversion H as [|? ? _ Ht]; subst.
    destruct (seen <? 2); [|now apply IH].
    cbn [split]. rewrite Ascii.eqb_refl. constructor; [reflexivity|].
    now apply IH.
  - cbn [split]. rewrite E.
    pose proof (collapse_newlines_first_line s 0 ltac:(lia)) as Hd.
    pose proof (split_nonempty nl (collapse_newlines_from 0 s)) as N1.
    pose proof (split_nonempty nl s) as N2.
    specialize (IH 0).
    destruct (split nl (collapse_newlines_from 0 s)) as [|p ps];
      [contradiction|].
    destruct (split nl s) as [|q qs]; [contradiction|].
    cbn [hd] in Hd. subst p.
    inversion H as [|? ? Hq Hqs]; subst.
    assert (IH' : Forall (fun l => rstrip l = l) (q :: ps)).
    { apply IH. constructor; [exact (rstrip_fixed_tail c q Hq)|exact Hqs]. }
    inversion IH'; subst. now constructor.
Qed.

(** A row that ends in a pipe is cleaned to one that ends in a pipe. *)
Lemma clean_row_ends_with_pipe (row : str) :
  endswith [pipe] row = true -> endswith [pipe] (_clean_table_row row) = true.
Proof.
  intros He. apply endswith_one in He as (init & ->).
  assert (Hp : has_char pipe (init ++ [pipe]) = true).
  { apply has_char_In, in_or_app. right. now left. }
  destruct (split_shape _ Hp) as (first & mids & last & Hs).
  rewrite (clean_row_shape _ first mids last Hp Hs).
  assert (Hl : last = []).
  { pose proof (join_split pipe (init ++ [pipe])) as J. rewrite Hs in J.
    rewrite app_comm_cons, join_snoc in J by discriminate.
    pose proof (split_parts_free pipe (init ++ [pipe])) as F.
    rewrite Hs, app_comm_cons in F. apply Forall_app in F as [_ F].
    inversion F as [|? ? Hfree _]; subst.
    destruct last as [|z l' _] using rev_ind; [reflexivity|].
    exfalso.
    replace (join [pipe] (first :: mids) ++ [pipe] ++ l' ++ [z])
      with ((join [pipe] (first :: mids) ++ [pipe] ++ l') ++ [z]) in J
      by (now rewrite <- !app_assoc).
    apply app_inj_tail in J as [_ ->].
    apply Hfree. apply in_or_app. right. now left. }
  subst last. rewrite app_comm_cons, join_snoc by discriminate.
  rewrite app_nil_r. apply endswith_app, endswith_one. now exists [].
Qed.

Lemma ends_with_pipe_fixed (s : str) :
  endswith [pipe] s = true -> rstrip s = s.
Proof.
  intros H. apply endswith_one in H as (init & ->).
  unfold rstrip. rewrite rstrip_by_snoc. reflexivity.
Qed.

(** A table row with no white space at its end ends in a pipe. *)
Lemma fixed_row_ends_with_pipe (line : str) :
  is_table_row line = true -> rstrip line = line ->
  endswith [pipe] line = true.
Proof.
  intros Hrow Hfix. unfold is_table_row in Hrow.
  apply andb_prop in Hrow as [_ He]. unfold strip in He.
  destruct (lstrip line) as [|c u] eqn:El.
  - discriminate.
  - apply lstrip_by_starts in El as (w & -> & Hw & Hc).
    unfold rstrip in *. rewrite rstrip_by_app in Hfix.
    destruct (rstrip_by isspace (c :: u)) as [|r rs] eqn:Er.
    + discriminate.
    + apply app_inv_head in Hfix. rewrite <- Hfix.
      now apply endswith_app.
Qed.

Lemma merged_ends_with_pipe (line m : str) :
  endswith [pipe] line = true -> merged_from line m ->
  endswith [pipe] m = true.
Proof. intros H [->|(t & _ & Ht)]; assumption. Qed.

Lemma fix_lines_fixed (lines : list str) :
  Forall (fun l => rstrip l = l) lines ->
  Forall (fun l => rstrip l = l) (fix_lines lines).
Proof.
  induction lines as [lines IH] using lines_induction. intros H.
  destruct lines as [|line rest]; [now simp fix_lines|].
  rewrite fix_lines_cons. inversion H as [|? ? Hl Hr]; subst.
  destruct (is_table_row line) eqn:Hrow.
  - constructor.
    + apply ends_with_pipe_fixed, clean_row_ends_with_pipe.
      apply (merged_ends_with_pipe line).
      * now apply fixed_row_ends_with_pipe.
      * apply absorb_merged_from. now left.
    + apply IH.
      * pose proof (absorb_shorter rest line). cbn [length]. lia.
      * now apply absorb_suffix.
  - constructor; [exact Hl|]. apply IH; [cbn [length]; lia|exact Hr].
Qed.

(** X21. No line of the body that [main] returns ends in white space:
    the lines are stripped at their right end, and neither the collapsing
    of the blank lines nor the repair of the table rows brings white space
    back.  *)
Theorem X21_body_lines_have_no_trailing_white_space (markdown : str) :
  Forall (fun l => rstrip l = l) (split nl (main_markdown_content markdown)).
Proof.
  unfold main_markdown_content. rewrite split_fixed_text.
  apply fix_lines_fixed. unfold collapse_newlines.
  apply collapse_newlines_lines.
  rewrite rstrip_lines_split. apply Forall_forall. intros p Hp.
  apply in_map_iff in Hp as (l & <- & _). apply rstrip_by_idem.
Qed.

(** ** The file name *)

Lemma hyphenate_In (s : str) (c : ascii) : forall inrun,
    In c (hyphenate_from inrun s) ->
    c = dash \/ (In c s /\ Ascii.eqb c dash || isspace c = false).
Proof.
  induction s as [|x s IH]; intros inrun H; [destruct H|].
  cbn [hyphenate_from] in H.
  destruct (Ascii.eqb x dash || isspace x) eqn:E.
  - assert (H' : c = dash \/ In c (hyphenate_from true s)).
    { destruct inrun; [now right|]. destruct H as [<-|H]; [now left|now right]. }
    destruct H' as [->|H']; [now left|].
    destruct (IH _ H') as [->|[Hin Hc]]; [now left|].
    right. split; [now right|exact Hc].
  - destruct H as [<-|H]; [right; split; [now left|exact E]|].
    destruct (IH _ H) as [->|[Hin Hc]]; [now left|].
    right. split; [now right|exact Hc].
Qed.

Lemma hyphenate_runs (s : str) : forall inrun,
    contains [dash; dash] (hyphenate_from inrun s) = false
    /\ (inrun = true -> startswith [dash] (hyphenate_from inrun s) = false).
Proof.
  induction s as [|x s IH]; intros inrun; [split; reflexivity|].
  cbn [hyphenate_from].
  destruct (Ascii.eqb x dash || isspace x) eqn:E.
  - destruct (IH true) as [H1 H2]. specialize (H2 eq_refl).
    destruct inrun; [split; [exact H1|intros _; exact H2]|].
    split; [|discriminate].
    now rewrite contains_step, startswith_cons, H1, H2, andb_false_r.
  - destruct (IH false) as [H1 _].
    apply orb_false_iff in E as [E _].
    assert (E' : Ascii.eqb dash x = false) by (now rewrite Ascii.eqb_sym).
    rewrite contains_step, !startswith_cons, E', H1. split; reflexivity.
Qed.

Lemma contains_free (d : ascii) (sub s : str) :
  ~ In d s -> contains (d :: sub) s = false.
Proof.
  induction s as [|x s IH]; intros H; [reflexivity|].
  rewrite contains_step, startswith_cons.
  destruct (Ascii.eqb d x) eqn:E.
  - apply Ascii.eqb_eq in E. subst x. exfalso. apply H. now left.
  - cbn [andb orb]. apply IH. intros Hin. apply H. now right.
Qed.

Lemma contains_double_app (d : ascii) (a b : str) :
  contains [d; d] a = false -> ~ In d b -> contains [d; d] (a ++ b) = false.
Proof.
  intros Ha Hb. induction a as [|x a IH]; [now apply contains_free|].
  rewrite contains_step in Ha. apply orb_false_iff in Ha as [H1 H2].
  cbn [app]. rewrite contains_step, (IH H2), orb_false_r.
  rewrite startswith_cons in *.
  destruct (Ascii.eqb d x); [cbn [andb] in *|reflexivity].
  destruct a as [|y a'].
  - cbn [app]. destruct b as [|z b']; [reflexivity|].
    rewrite startswith_cons. destruct (Ascii.eqb d z) eqn:E; [|reflexivity].
    apply Ascii.eqb_eq in E. subst z. exfalso. apply Hb. now left.
  - cbn [app]. rewrite startswith_cons in *. cbn [startswith] in *.
    exact H1.
Qed.

Lemma startswith_self_app (p s : str) : startswith p (p ++ s) = true.
Proof.
  induction p as [|c p IH]; [reflexivity|].
  cbn [app]. now rewrite startswith_cons, Ascii.eqb_refl, IH.
Qed.

Lemma endswith_app_self (p s : str) : endswith p (s ++ p) = true.
Proof. unfold endswith. rewrite rev_app_distr. apply startswith_self_app. Qed.

(** A word character is no white space, no hyphen, no dot, no quote and no
    slash. *)
Lemma word_character (c : ascii) :
  isword c = true ->
  isspace c = false /\ c <> dash /\ c <> "."%char
  /\ c <> dquote /\ c <> "/"%char /\ c <> backslash.
Proof.
  destruct c as [[] [] [] [] [] [] [] []]; vm_compute; intros H;
    try discriminate H; repeat split; discriminate.
Qed.

Lemma safe_title_characters (title : str) (c : ascii) :
  In c (safe_title title) -> isword c = true \/ c = dash.
Proof.
  unfold safe_title. intros H.
  apply hyphenate_In in H as [->|[Hin Hc]]; [now right|].
  apply filter_In in Hin as [_ Hf].
  apply orb_false_iff in Hc as [Hd Hs]. rewrite Hd, Hs in Hf.
  left. now rewrite !orb_false_r in Hf.
Qed.

Lemma filename_characters (title : option str) (c : ascii) :
  In c (main_filename title) ->
  isword c = true \/ c = dash \/ c = "."%char.
Proof.
  assert (D : In c (lit "converted.md") ->
              isword c = true \/ c = dash \/ c = "."%char).
  { intros H. vm_compute in H.
    repeat (destruct H as [<-|H]; [vm_compute; tauto|]). destruct H. }
  unfold main_filename.
  destruct title as [title|]; [|exact D].
  destruct (truthy title); [|exact D].
  destruct (truthy (safe_title title)); [|exact D].
  intros H. apply in_app_or in H as [H|H].
  - destruct (safe_title_characters _ _ H); tauto.
  - vm_compute in H.
    repeat (destruct H as [<-|H]; [vm_compute; tauto|]). destruct H.
Qed.

(** X22. The file name that [main] gives is made of word characters,
    hyphens and dots only, so that it holds no double quote, no slash, no
    backslash and no white space; it ends in [.md]; and it has no two
    hyphens in a row. *)
Theorem X22_file_name_is_safe (title : option str) :
  (forall c, In c (main_filename title) ->
             isword c = true \/ c = dash \/ c = "."%char)
  /\ (forall c, In c (main_filename title) ->
                isspace c = false /\ c <> dquote /\ c <> "/"%char
                /\ c <> backslash)
  /\ endswith (lit ".md") (main_filename title) = true
  /\ contains (lit "--") (main_filename title) = false.
Proof.
  split; [apply filename_characters|]. split.
  - intros c H. apply filename_characters in H as [H|[ -> | -> ]].
    + apply word_character in H. tauto.
    + repeat split; discriminate.
    + repeat split; discriminate.
  - unfold main_filename.
    destruct title as [title|]; [|split; reflexivity].
    destruct (truthy title); [|split; reflexivity].
    destruct (truthy (safe_title title)); [|split; reflexivity].
    split; [apply endswith_app_self|].
    apply (contains_double_app dash).
    + unfold safe_title. apply hyphenate_runs.
    + vm_compute. intuition discriminate.
Qed.

Lemma rstrip_by_none (p : ascii -> bool) (s : str) :
  forallb (fun c => negb (p c)) s = true -> rstrip_by p s = s.
Proof.
  induction s as [|c s IH]; intros H; [reflexivity|].
  cbn [forallb] in H. apply andb_prop in H as [Hc Hs].
  cbn [rstrip_by]. rewrite (IH Hs). apply negb_true_iff in Hc.
  destruct s; [now rewrite Hc|reflexivity].
Qed.

Lemma lstrip_by_none (p : ascii -> bool) (s : str) :
  forallb (fun c => negb (p c)) s = true -> lstrip_by p s = s.
Proof.
  destruct s as [|c s]; intros H; [reflexivity|].
  cbn [forallb] in H. apply andb_prop in H as [Hc _].
  apply negb_true_iff in Hc. cbn [lstrip_by]. now rewrite Hc.
Qed.

Lemma hyphenate_none (s : str) :
  forallb isword s = true -> hyphenate_from false s = s.
Proof.
  induction s as [|c s IH]; intros H; [reflexivity|].
  cbn [forallb] in H. apply andb_prop in H as [Hc Hs].
  cbn [hyphenate_from].
  destruct (word_character c Hc) as (Hsp & Hd & _).
  rewrite Hsp. destruct (Ascii.eqb c dash) eqn:E;
    [apply Ascii.eqb_eq in E; contradiction|].
  cbn [orb]. now rewrite (IH Hs).
Qed.

Lemma filter_all {A : Type} (f : A -> bool) (l : list A) :
  forallb f l = true -> filter f l = l.
Proof.
  induction l as [|x l IH]; intros H; [reflexivity|].
  cbn [forallb] in H. apply andb_prop in H as [Hx Hl].
  cbn [filter]. now rewrite Hx, (IH Hl).
Qed.

(** X23. A title made of word characters only (letters, digits, the
    underscore) is the file name as it is, with [.md] after it. *)
Theorem X23_word_title_is_the_file_name (title : str) :
  forallb isword title = true ->
  title <> [] ->
  main_filename (Some title) = title ++ lit ".md".
Proof.
  intros Hw Hne.
  assert (Hs : forallb (fun c => negb (isspace c)) title = true).
  { apply forallb_forall. intros c Hc.
    rewrite forallb_forall in Hw.
    destruct (word_character c (Hw c Hc)) as (-> & _). reflexivity. }
  assert (St : safe_title title = title).
  { unfold safe_title, strip, lstrip, rstrip.
    rewrite (lstrip_by_none _ _ Hs), (rstrip_by_none _ _ Hs).
    rewrite filter_all; [now apply hyphenate_none|].
    apply forallb_forall. intros c Hc. rewrite forallb_forall in Hw.
    now rewrite (Hw c Hc). }
  unfold main_filename. rewrite St.
  destruct title; [contradiction|reflexivity].
Qed.

Lemma X23_witness :
  main_filename (Some (lit "Release_notes2"))
  = lit "Release_notes2" ++ lit ".md".
Proof.
  apply (X23_word_title_is_the_file_name (lit "Release_notes2")).
  - reflexivity.
  - discriminate.
Defined.
